(** * pam-u2f: the configuration loader of [cfg.c]

    A shallow embedding of [cfg.c]: the C library calls it makes, the
    operating-system resources it touches (descriptors, heap blocks, debug
    sinks), the settings record [cfg_t], and the functions [cfg_load_arg],
    [slurp], [open_safely], [pack], [cfg_load_buffer], [cfg_load_defaults],
    [cfg_reset], [cfg_init] and [cfg_free], followed by the properties of
    the loader. *)

From Stdlib Require Import ZArith List String Ascii Bool Lia PeanoNat.
Import ListNotations.

Local Open Scope list_scope.
Local Open Scope string_scope.

(** ** The C library

    A C string is modelled by a [string] that holds no NUL character; the
    pointer [s + n] is [skip n s], and storing a NUL at [s[n]] leaves
    [take n s]. *)

Module LibC.

Definition NUL : ascii := Ascii.zero.

(** [isspace] in the C locale: space, and the controls from HT to CR. *)
Definition isspace (c : ascii) : bool :=
  let n := nat_of_ascii c in
  Nat.eqb n 32 || (Nat.leb 9 n && Nat.leb n 13).

Definition isdigit (c : ascii) : bool :=
  let n := nat_of_ascii c in
  Nat.leb 48 n && Nat.leb n 57.

Definition empty (s : string) : bool :=
  match s with
  | EmptyString => true
  | String _ _ => false
  end.

Fixpoint skip (n : nat) (s : string) : string :=
  match n, s with
  | O, _ => s
  | S _, EmptyString => EmptyString
  | S n', String _ s' => skip n' s'
  end.

Fixpoint take (n : nat) (s : string) : string :=
  match n, s with
  | O, _ => EmptyString
  | S _, EmptyString => EmptyString
  | S n', String c s' => String c (take n' s')
  end.

(** The characters of a buffer up to its first NUL: what a [char *] to it
    denotes. *)
Fixpoint c_str (bytes : string) : string :=
  match bytes with
  | EmptyString => EmptyString
  | String c rest => if Ascii.eqb c NUL then EmptyString else String c (c_str rest)
  end.

Fixpoint mem (c : ascii) (set : string) : bool :=
  match set with
  | EmptyString => false
  | String d set' => Ascii.eqb c d || mem c set'
  end.

(** [strspn(s, accept)] and [strcspn(s, reject)]: the length of the longest
    prefix of [s] made of characters in, respectively not in, the set. *)
Fixpoint strspn (s accept : string) : nat :=
  match s with
  | EmptyString => O
  | String c s' => if mem c accept then S (strspn s' accept) else O
  end.

Fixpoint strcspn (s reject : string) : nat :=
  match s with
  | EmptyString => O
  | String c s' => if mem c reject then O else S (strcspn s' reject)
  end.

(** [strchr(s, c)]: the offset of the first [c] in [s], or [None] for NULL. *)
Fixpoint strchr (s : string) (c : ascii) : option nat :=
  match s with
  | EmptyString => None
  | String d s' =>
      if Ascii.eqb d c then Some O
      else match strchr s' c with
           | Some i => Some (S i)
           | None => None
           end
  end.

(** [s[i] == d], where [s[i]] is [None] past the end of [s]. *)
Definition is_char (c : option ascii) (d : ascii) : bool :=
  match c with
  | Some c => Ascii.eqb c d
  | None => false
  end.

(** [strcmp(a, b) == 0]. *)
Definition strcmp_eq (a b : string) : bool := String.eqb a b.

(** [strncmp(a, lit, strlen(lit)) == 0]: [a] starts with the literal. *)
Fixpoint starts_with (lit a : string) : bool :=
  match lit with
  | EmptyString => true
  | String c lit' =>
      match a with
      | EmptyString => false
      | String d a' => Ascii.eqb d c && starts_with lit' a'
      end
  end.

Definition strncmp_eq (a lit : string) : bool := starts_with lit a.

(** [strtok_r(str, delim, &saveptr)]: the token found (NULL is [None]) and
    the new [saveptr]. *)
Definition strtok_r (str delim : string) : option string * string :=
  let s := skip (strspn str delim) str in
  if empty s then (None, s)
  else
    let n := strcspn s delim in
    (Some (take n s), skip (S n) s).

(** The tokens that [strtok_r(str, ...)] followed by calls of
    [strtok_r(NULL, ...)] return before the first NULL. A token takes at
    least one character, so [fuel] = the length of [str] is never used up. *)
Fixpoint strtok_from (fuel : nat) (str delim : string) : list string :=
  match fuel with
  | O => []
  | S fuel' =>
      match strtok_r str delim with
      | (None, _) => []
      | (Some tok, saveptr) => tok :: strtok_from fuel' saveptr delim
      end
  end.

Definition strtok_all (str delim : string) : list string :=
  strtok_from (String.length str) str delim.

(** *** Number conversions of [sscanf]

    [%d] and [%u] skip white space, take an optional sign and then decimal
    digits; with no digit there is a matching failure and nothing is stored. *)

Definition digit_value (c : ascii) : Z := Z.of_nat (nat_of_ascii c - 48).

Fixpoint digits_value (s : string) (acc : Z) : Z :=
  match s with
  | EmptyString => acc
  | String c s' =>
      if isdigit c then digits_value s' (10 * acc + digit_value c)%Z else acc
  end.

Fixpoint skip_space (s : string) : string :=
  match s with
  | EmptyString => EmptyString
  | String c s' => if isspace c then skip_space s' else s
  end.

(** The sign and the magnitude of the number at the start of [s]. *)
Definition scan_number (s : string) : option (bool * Z) :=
  let s := skip_space s in
  let '(neg, s) :=
    match s with
    | String "-" s' => (true, s')
    | String "+" s' => (false, s')
    | _ => (false, s)
    end in
  match s with
  | EmptyString => None
  | String c _ => if isdigit c then Some (neg, digits_value s 0%Z) else None
  end.

Definition LONG_MAX : Z := (2 ^ 63 - 1)%Z.
Definition LONG_MIN : Z := (- 2 ^ 63)%Z.
Definition ULONG_MAX : Z := (2 ^ 64 - 1)%Z.

(** The value is converted as [strtol] does on LP64 (saturating) and stored
    in an [int]: the low 32 bits, read as two's complement. *)
Definition to_int (v : Z) : Z :=
  ((v + 2 ^ 31) mod 2 ^ 32 - 2 ^ 31)%Z.

Definition conv_d (s : string) : option Z :=
  match scan_number s with
  | None => None
  | Some (neg, m) =>
      let v := if neg then Z.max LONG_MIN (- m) else Z.min LONG_MAX m in
      Some (to_int v)
  end.

(** [%u]: converted as [strtoul] does (a minus sign negates modulo 2^64,
    overflow saturates) and stored in an [unsigned]: the low 32 bits. *)
Definition conv_u (s : string) : option Z :=
  match scan_number s with
  | None => None
  | Some (neg, m) =>
      let v := if (ULONG_MAX <? m)%Z then ULONG_MAX
               else if neg then ((- m) mod 2 ^ 64)%Z else m in
      Some (v mod 2 ^ 32)%Z
  end.

(** [sscanf(arg, "<lit>%d", &x)] and [sscanf(arg, "<lit>%u", &x)]: the
    value stored in [x], or [None] when nothing is stored. *)
Definition sscanf_d (arg lit : string) : option Z :=
  if starts_with lit arg then conv_d (skip (String.length lit) arg) else None.

Definition sscanf_u (arg lit : string) : option Z :=
  if starts_with lit arg then conv_u (skip (String.length lit) arg) else None.

#[global] Arguments isspace : simpl never.
#[global] Arguments isdigit : simpl never.

End LibC.

Import LibC.

(** ** Lines of the configuration file: [ltrim], [rtrim], [pack] *)

Fixpoint ltrim (s : string) : string :=
  match s with
  | EmptyString => EmptyString
  | String c s' => if isspace c then ltrim s' else s
  end.

(** [rtrim]: [l] runs down from [strlen(s)] while [s[l - 1]] is a space. *)
Fixpoint rtrim_loop (s : string) (l : nat) : nat :=
  match l with
  | O => O
  | S l' =>
      match String.get l' s with
      | Some c => if isspace c then rtrim_loop s l' else l
      | None => l
      end
  end.

Definition rtrim (s : string) : string :=
  take (rtrim_loop s (String.length s)) s.

Definition pack (s : string) : string :=
  let s := take (strcspn s "#") s in
  let s := ltrim s in
  match strchr s "=" with
  | None => rtrim s
  | Some i =>
      let v := skip (S i) s in
      let s := take i s in
      let v := ltrim (rtrim v) in
      let s := rtrim s in
      s ++ "=" ++ v
  end.

(** ** Return codes

    The codes of [<security/_pam_types.h>] that [cfg.c] returns. A C test
    [if (r)] is a test against [PAM_SUCCESS], which is 0. *)

Inductive pam_status : Type :=
| PAM_SUCCESS
| PAM_SERVICE_ERR
| PAM_SYSTEM_ERR
| PAM_BUF_ERR.

Definition is_success (r : pam_status) : bool :=
  match r with
  | PAM_SUCCESS => true
  | _ => false
  end.

(** ** The settings record *)

(** Modelled from the spec: the debug sink of [debug.h] is an opaque handle;
    [DEFAULT_DEBUG_FILE], a macro of [debug.h], names the process-wide
    default sink, and [debug_open] hands out the others. [NullSink] is the
    NULL handle of a zeroed record. *)
Inductive sink : Type :=
| NullSink
| DefaultSink
| FileSink (id : nat).

Definition DEFAULT_DEBUG_FILE : sink := DefaultSink.

Definition sink_eqb (a b : sink) : bool :=
  match a, b with
  | NullSink, NullSink => true
  | DefaultSink, DefaultSink => true
  | FileSink i, FileSink j => Nat.eqb i j
  | _, _ => false
  end.

(** Modelled from the spec: [cfg_t] is declared in [cfg.h]; the fields are
    those [cfg.c] reads and writes. An [int] or [unsigned] field is a [Z], a
    [const char *] field is [None] for NULL or the string pointed to, and
    [defaults_buffer] is NULL or the address of a heap block. *)
Record cfg_t : Type := mk_cfg {
  max_devs : Z;
  manual : Z;
  debug : Z;
  nouserok : Z;
  openasuser : Z;
  alwaysok : Z;
  interactive : Z;
  cue : Z;
  nodetect : Z;
  userpresence : Z;
  userverification : Z;
  pinverification : Z;
  sshformat : Z;
  expand : Z;
  auth_file : option string;
  authpending_file : option string;
  origin : option string;
  appid : option string;
  prompt : option string;
  cue_prompt : option string;
  debug_file : sink;
  defaults_buffer : option nat
}.

Definition set_max_devs (v : Z) (c : cfg_t) : cfg_t :=
  mk_cfg
    v (manual c) (debug c) (nouserok c) (openasuser c) (alwaysok c)
    (interactive c) (cue c) (nodetect c) (userpresence c)
    (userverification c) (pinverification c) (sshformat c) (expand c)
    (auth_file c) (authpending_file c) (origin c) (appid c) (prompt c)
    (cue_prompt c) (debug_file c) (defaults_buffer c).

Definition set_manual (v : Z) (c : cfg_t) : cfg_t :=
  mk_cfg
    (max_devs c) v (debug c) (nouserok c) (openasuser c) (alwaysok c)
    (interactive c) (cue c) (nodetect c) (userpresence c)
    (userverification c) (pinverification c) (sshformat c) (expand c)
    (auth_file c) (authpending_file c) (origin c) (appid c) (prompt c)
    (cue_prompt c) (debug_file c) (defaults_buffer c).

Definition set_debug (v : Z) (c : cfg_t) : cfg_t :=
  mk_cfg
    (max_devs c) (manual c) v (nouserok c) (openasuser c) (alwaysok c)
    (interactive c) (cue c) (nodetect c) (userpresence c)
    (userverification c) (pinverification c) (sshformat c) (expand c)
    (auth_file c) (authpending_file c) (origin c) (appid c) (prompt c)
    (cue_prompt c) (debug_file c) (defaults_buffer c).

Definition set_nouserok (v : Z) (c : cfg_t) : cfg_t :=
  mk_cfg
    (max_devs c) (manual c) (debug c) v (openasuser c) (alwaysok c)
    (interactive c) (cue c) (nodetect c) (userpresence c)
    (userverification c) (pinverification c) (sshformat c) (expand c)
    (auth_file c) (authpending_file c) (origin c) (appid c) (prompt c)
    (cue_prompt c) (debug_file c) (defaults_buffer c).

Definition set_openasuser (v : Z) (c : cfg_t) : cfg_t :=
  mk_cfg
    (max_devs c) (manual c) (debug c) (nouserok c) v (alwaysok c)
    (interactive c) (cue c) (nodetect c) (userpresence c)
    (userverification c) (pinverification c) (sshformat c) (expand c)
    (auth_file c) (authpending_file c) (origin c) (appid c) (prompt c)
    (cue_prompt c) (debug_file c) (defaults_buffer c).

Definition set_alwaysok (v : Z) (c : cfg_t) : cfg_t :=
  mk_cfg
    (max_devs c) (manual c) (debug c) (nouserok c) (openasuser c) v
    (interactive c) (cue c) (nodetect c) (userpresence c)
    (userverification c) (pinverification c) (sshformat c) (expand c)
    (auth_file c) (authpending_file c) (origin c) (appid c) (prompt c)
    (cue_prompt c) (debug_file c) (defaults_buffer c).

Definition set_interactive (v : Z) (c : cfg_t) : cfg_t :=
  mk_cfg
    (max_devs c) (manual c) (debug c) (nouserok c) (openasuser c)
    (alwaysok c) v (cue c) (nodetect c) (userpresence c)
    (userverification c) (pinverification c) (sshformat c) (expand c)
    (auth_file c) (authpending_file c) (origin c) (appid c) (prompt c)
    (cue_prompt c) (debug_file c) (defaults_buffer c).

Definition set_cue (v : Z) (c : cfg_t) : cfg_t :=
  mk_cfg
    (max_devs c) (manual c) (debug c) (nouserok c) (openasuser c)
    (alwaysok c) (interactive c) v (nodetect c) (userpresence c)
    (userverification c) (pinverification c) (sshformat c) (expand c)
    (auth_file c) (authpending_file c) (origin c) (appid c) (prompt c)
    (cue_prompt c) (debug_file c) (defaults_buffer c).

Definition set_nodetect (v : Z) (c : cfg_t) : cfg_t :=
  mk_cfg
    (max_devs c) (manual c) (debug c) (nouserok c) (openasuser c)
    (alwaysok c) (interactive c) (cue c) v (userpresence c)
    (userverification c) (pinverification c) (sshformat c) (expand c)
    (auth_file c) (authpending_file c) (origin c) (appid c) (prompt c)
    (cue_prompt c) (debug_file c) (defaults_buffer c).

Definition set_userpresence (v : Z) (c : cfg_t) : cfg_t :=
  mk_cfg
    (max_devs c) (manual c) (debug c) (nouserok c) (openasuser c)
    (alwaysok c) (interactive c) (cue c) (nodetect c) v (userverification c)
    (pinverification c) (sshformat c) (expand c) (auth_file c)
    (authpending_file c) (origin c) (appid c) (prompt c) (cue_prompt c)
    (debug_file c) (defaults_buffer c).

Definition set_userverification (v : Z) (c : cfg_t) : cfg_t :=
  mk_cfg
    (max_devs c) (manual c) (debug c) (nouserok c) (openasuser c)
    (alwaysok c) (interactive c) (cue c) (nodetect c) (userpresence c) v
    (pinverification c) (sshformat c) (expand c) (auth_file c)
    (authpending_file c) (origin c) (appid c) (prompt c) (cue_prompt c)
    (debug_file c) (defaults_buffer c).

Definition set_pinverification (v : Z) (c : cfg_t) : cfg_t :=
  mk_cfg
    (max_devs c) (manual c) (debug c) (nouserok c) (openasuser c)
    (alwaysok c) (interactive c) (cue c) (nodetect c) (userpresence c)
    (userverification c) v (sshformat c) (expand c) (auth_file c)
    (authpending_file c) (origin c) (appid c) (prompt c) (cue_prompt c)
    (debug_file c) (defaults_buffer c).

Definition set_sshformat (v : Z) (c : cfg_t) : cfg_t :=
  mk_cfg
    (max_devs c) (manual c) (debug c) (nouserok c) (openasuser c)
    (alwaysok c) (interactive c) (cue c) (nodetect c) (userpresence c)
    (userverification c) (pinverification c) v (expand c) (auth_file c)
    (authpending_file c) (origin c) (appid c) (prompt c) (cue_prompt c)
    (debug_file c) (defaults_buffer c).

Definition set_expand (v : Z) (c : cfg_t) : cfg_t :=
  mk_cfg
    (max_devs c) (manual c) (debug c) (nouserok c) (openasuser c)
    (alwaysok c) (interactive c) (cue c) (nodetect c) (userpresence c)
    (userverification c) (pinverification c) (sshformat c) v (auth_file c)
    (authpending_file c) (origin c) (appid c) (prompt c) (cue_prompt c)
    (debug_file c) (defaults_buffer c).

Definition set_auth_file (v : option string) (c : cfg_t) : cfg_t :=
  mk_cfg
    (max_devs c) (manual c) (debug c) (nouserok c) (openasuser c)
    (alwaysok c) (interactive c) (cue c) (nodetect c) (userpresence c)
    (userverification c) (pinverification c) (sshformat c) (expand c) v
    (authpending_file c) (origin c) (appid c) (prompt c) (cue_prompt c)
    (debug_file c) (defaults_buffer c).

Definition set_authpending_file (v : option string) (c : cfg_t) : cfg_t :=
  mk_cfg
    (max_devs c) (manual c) (debug c) (nouserok c) (openasuser c)
    (alwaysok c) (interactive c) (cue c) (nodetect c) (userpresence c)
    (userverification c) (pinverification c) (sshformat c) (expand c)
    (auth_file c) v (origin c) (appid c) (prompt c) (cue_prompt c)
    (debug_file c) (defaults_buffer c).

Definition set_origin (v : option string) (c : cfg_t) : cfg_t :=
  mk_cfg
    (max_devs c) (manual c) (debug c) (nouserok c) (openasuser c)
    (alwaysok c) (interactive c) (cue c) (nodetect c) (userpresence c)
    (userverification c) (pinverification c) (sshformat c) (expand c)
    (auth_file c) (authpending_file c) v (appid c) (prompt c) (cue_prompt c)
    (debug_file c) (defaults_buffer c).

Definition set_appid (v : option string) (c : cfg_t) : cfg_t :=
  mk_cfg
    (max_devs c) (manual c) (debug c) (nouserok c) (openasuser c)
    (alwaysok c) (interactive c) (cue c) (nodetect c) (userpresence c)
    (userverification c) (pinverification c) (sshformat c) (expand c)
    (auth_file c) (authpending_file c) (origin c) v (prompt c)
    (cue_prompt c) (debug_file c) (defaults_buffer c).

Definition set_prompt (v : option string) (c : cfg_t) : cfg_t :=
  mk_cfg
    (max_devs c) (manual c) (debug c) (nouserok c) (openasuser c)
    (alwaysok c) (interactive c) (cue c) (nodetect c) (userpresence c)
    (userverification c) (pinverification c) (sshformat c) (expand c)
    (auth_file c) (authpending_file c) (origin c) (appid c) v (cue_prompt c)
    (debug_file c) (defaults_buffer c).

Definition set_cue_prompt (v : option string) (c : cfg_t) : cfg_t :=
  mk_cfg
    (max_devs c) (manual c) (debug c) (nouserok c) (openasuser c)
    (alwaysok c) (interactive c) (cue c) (nodetect c) (userpresence c)
    (userverification c) (pinverification c) (sshformat c) (expand c)
    (auth_file c) (authpending_file c) (origin c) (appid c) (prompt c) v
    (debug_file c) (defaults_buffer c).

Definition set_debug_file (v : sink) (c : cfg_t) : cfg_t :=
  mk_cfg
    (max_devs c) (manual c) (debug c) (nouserok c) (openasuser c)
    (alwaysok c) (interactive c) (cue c) (nodetect c) (userpresence c)
    (userverification c) (pinverification c) (sshformat c) (expand c)
    (auth_file c) (authpending_file c) (origin c) (appid c) (prompt c)
    (cue_prompt c) v (defaults_buffer c).

Definition set_defaults_buffer (v : option nat) (c : cfg_t) : cfg_t :=
  mk_cfg
    (max_devs c) (manual c) (debug c) (nouserok c) (openasuser c)
    (alwaysok c) (interactive c) (cue c) (nodetect c) (userpresence c)
    (userverification c) (pinverification c) (sshformat c) (expand c)
    (auth_file c) (authpending_file c) (origin c) (appid c) (prompt c)
    (cue_prompt c) (debug_file c) v.


(** ** The operating system

    The file tree the process sees, its descriptor table, its heap and the
    debug sinks it holds. The tree does not change during a call. *)

Module OS.

Local Open Scope Z_scope.

(** Bits of [st_mode] ([<sys/stat.h>], octal in the comments). *)
Definition S_IFMT : Z := 61440.   (* 0170000 *)
Definition S_IFIFO : Z := 4096.   (* 0010000 *)
Definition S_IFDIR : Z := 16384.  (* 0040000 *)
Definition S_IFREG : Z := 32768.  (* 0100000 *)
Definition S_IFLNK : Z := 40960.  (* 0120000 *)
Definition S_IWGRP : Z := 16.     (* 0000020 *)
Definition S_IWOTH : Z := 2.      (* 0000002 *)

Definition S_ISDIR (m : Z) : bool := Z.land m S_IFMT =? S_IFDIR.
Definition S_ISREG (m : Z) : bool := Z.land m S_IFMT =? S_IFREG.
Definition S_ISLNK (m : Z) : bool := Z.land m S_IFMT =? S_IFLNK.

Record stat : Type := mk_stat {
  st_uid : Z;
  st_mode : Z;
  st_size : Z
}.

(** A file: a directory with its entries, a regular file with the size it
    reports and the bytes it holds, a symbolic link with the file it resolves
    to ([None] when it dangles), or a FIFO. [perm] holds the permission bits. *)
#[warnings="-register-all"]
Inductive node : Type :=
| Dir (uid perm : Z) (entries : list (string * node))
| Reg (uid perm : Z) (size : Z) (data : string)
| Lnk (uid : Z) (target : option node)
| Fifo (uid perm : Z).

Definition node_stat (n : node) : stat :=
  match n with
  | Dir uid perm _ => mk_stat uid (Z.lor S_IFDIR (Z.land perm 4095)) 4096
  | Reg uid perm size _ => mk_stat uid (Z.lor S_IFREG (Z.land perm 4095)) size
  | Lnk uid _ => mk_stat uid (Z.lor S_IFLNK 511) 0
  | Fifo uid perm => mk_stat uid (Z.lor S_IFIFO (Z.land perm 4095)) 0
  end.

Fixpoint lookup (name : string) (entries : list (string * node)) : option node :=
  match entries with
  | [] => None
  | (n, f) :: rest => if String.eqb n name then Some f else lookup name rest
  end.

(** The file a name resolves to when symbolic links are followed. *)
Fixpoint follow (n : node) : option node :=
  match n with
  | Lnk _ None => None
  | Lnk _ (Some t) => follow t
  | _ => Some n
  end.

Inductive errno : Type := ENOENT | ENOTDIR | ELOOP | EBADF | EFAULT.

(** An open file: the file and the read offset. The tables below are read
    at the first entry for a key, which is the latest one. *)
Record ofile : Type := mk_ofile {
  of_node : node;
  of_pos : nat
}.

(** What the next [read] does: fail, or hand over at most [S n] bytes. *)
Inductive read_outcome : Type :=
| ReadFails
| ReadAtMost (n : nat).

Inductive event : Type :=
| EvSinkOpen (path : string) (h : sink)
| EvSinkClose (h : sink)
| EvDebug (h : sink) (flags : Z) (argv : list string) (cfg : cfg_t).

Record world : Type := mk_world {
  w_root : node;                  (* the file tree *)
  w_fds : list (nat * ofile);     (* the open descriptors *)
  w_next_fd : nat;
  w_heap : list (nat * Z);        (* the live heap blocks: address, size *)
  w_next_ptr : nat;
  w_mem : Z;                      (* the bytes malloc can still hand out *)
  w_reads : list read_outcome;    (* what the coming reads do *)
  w_sinks : list nat;             (* the sinks debug_open handed out, still open *)
  w_next_sink : nat;
  w_log : list event;             (* calls to the debug collaborator, latest first *)
  w_fault : bool                  (* a stale descriptor or pointer was released *)
}.

Definition with_fds (fds : list (nat * ofile)) (next : nat) (w : world) : world :=
  mk_world (w_root w) fds next (w_heap w) (w_next_ptr w) (w_mem w)
    (w_reads w) (w_sinks w) (w_next_sink w) (w_log w) (w_fault w).

Definition with_heap (heap : list (nat * Z)) (next : nat) (avail : Z) (w : world) : world :=
  mk_world (w_root w) (w_fds w) (w_next_fd w) heap next avail
    (w_reads w) (w_sinks w) (w_next_sink w) (w_log w) (w_fault w).

Definition with_reads (script : list read_outcome) (w : world) : world :=
  mk_world (w_root w) (w_fds w) (w_next_fd w) (w_heap w) (w_next_ptr w) (w_mem w)
    script (w_sinks w) (w_next_sink w) (w_log w) (w_fault w).

Definition with_sinks (sinks : list nat) (next : nat) (log : list event) (w : world) : world :=
  mk_world (w_root w) (w_fds w) (w_next_fd w) (w_heap w) (w_next_ptr w) (w_mem w)
    (w_reads w) sinks next log (w_fault w).

Definition fault (w : world) : world :=
  mk_world (w_root w) (w_fds w) (w_next_fd w) (w_heap w) (w_next_ptr w) (w_mem w)
    (w_reads w) (w_sinks w) (w_next_sink w) (w_log w) true.

Fixpoint find {A : Type} (k : nat) (l : list (nat * A)) : option A :=
  match l with
  | [] => None
  | (k', a) :: rest => if Nat.eqb k' k then Some a else find k rest
  end.

Fixpoint remove {A : Type} (k : nat) (l : list (nat * A)) : list (nat * A) :=
  match l with
  | [] => []
  | (k', a) :: rest => if Nat.eqb k' k then rest else (k', a) :: remove k rest
  end.

Fixpoint remove_id (k : nat) (l : list nat) : list nat :=
  match l with
  | [] => []
  | k' :: rest => if Nat.eqb k' k then rest else k' :: remove_id k rest
  end.

(** *** Descriptors *)

(** A new descriptor, on top of the table. Descriptors are named by a
    counter and a name is not used again, where the kernel hands out the
    lowest number that is free: the code passes descriptors on and tests
    them against -1, and does nothing else with their numbers, so that a
    descriptor is modelled up to its name. The table has room: no open
    fails for want of a descriptor. *)
Definition install (w : world) (n : node) : world * (errno + nat) :=
  let fd := w_next_fd w in
  (with_fds ((fd, mk_ofile n O) :: w_fds w) (S fd) w, inr fd).

Record oflags : Type := mk_oflags {
  O_DIRECTORY : bool;
  O_NOFOLLOW : bool
}.

(** The file [name] leads to under [flags], or the error of the open. A
    FIFO stands for one whose other end is open for writing, so that an
    open for reading returns; without a writer the open of the last
    component, which has no [O_NONBLOCK], does not return, and such a run
    is not modelled. *)
Definition resolve (n : node) (flags : oflags) : errno + node :=
  match n, O_NOFOLLOW flags with
  | Lnk _ _, true => inl (if O_DIRECTORY flags then ENOTDIR else ELOOP)
  | _, _ =>
      match follow n with
      | None => inl ENOENT
      | Some f =>
          match f, O_DIRECTORY flags with
          | Dir _ _ _, _ => inr f
          | _, true => inl ENOTDIR
          | _, false => inr f
          end
      end
  end.

(** [open("/", O_RDONLY | O_CLOEXEC | flags, 0)]. *)
Definition open_root (w : world) (flags : oflags) : world * (errno + nat) :=
  match resolve (w_root w) flags with
  | inl e => (w, inl e)
  | inr f => install w f
  end.

(** [openat(dirfd, name, O_RDONLY | O_CLOEXEC | flags, 0)]; a NULL [name]
    is [None]. The process may search every directory and read every file
    (the module runs privileged), and names are within the limits of the
    file system: the errors are those of a missing entry, of a link that
    is not followed and of a component that is no directory. *)
Definition openat (w : world) (dirfd : nat) (name : option string) (flags : oflags)
  : world * (errno + nat) :=
  match name with
  | None => (w, inl EFAULT)
  | Some name =>
      match find dirfd (w_fds w) with
      | None => (w, inl EBADF)
      | Some (mk_ofile (Dir _ _ entries) _) =>
          match lookup name entries with
          | None => (w, inl ENOENT)
          | Some n =>
              match resolve n flags with
              | inl e => (w, inl e)
              | inr f => install w f
              end
          end
      | Some _ => (w, inl ENOTDIR)
      end
  end.

(** [fstat(fd, &st)]: [None] when the call fails. *)
Definition fstat (w : world) (fd : nat) : option stat :=
  match find fd (w_fds w) with
  | None => None
  | Some f => Some (node_stat (of_node f))
  end.

Definition close (w : world) (fd : nat) : world :=
  match find fd (w_fds w) with
  | None => fault w
  | Some _ => with_fds (remove fd (w_fds w)) (w_next_fd w) w
  end.

(** [read(fd, buf, count)]: the bytes read, or [None] for a negative
    result. At most [count] bytes and at most what the file still holds. *)
Definition read (w : world) (fd : nat) (count : Z) : world * option string :=
  match find fd (w_fds w) with
  | Some (mk_ofile (Reg uid perm size data) pos) =>
      match w_reads w with
      | ReadFails :: script => (with_reads script w, None)
      | script =>
          let limit :=
            match script with
            | ReadAtMost n :: _ => Nat.min (Z.to_nat count) (S n)
            | _ => Z.to_nat count
            end in
          let bytes := take limit (skip pos data) in
          let f := mk_ofile (Reg uid perm size data) (pos + String.length bytes) in
          (with_reads (tl script)
             (with_fds ((fd, f) :: remove fd (w_fds w)) (w_next_fd w) w),
           Some bytes)
      end
  | _ => (w, None)
  end.

(** *** The heap *)

Definition malloc (w : world) (size : Z) : world * option nat :=
  if size <=? w_mem w then
    let p := w_next_ptr w in
    (with_heap ((p, size) :: w_heap w) (S p) (w_mem w - size) w, Some p)
  else (w, None).

(** [free(p)]; [free(NULL)] does nothing. *)
Definition free (w : world) (p : option nat) : world :=
  match p with
  | None => w
  | Some p =>
      match find p (w_heap w) with
      | None => fault w
      | Some size => with_heap (remove p (w_heap w)) (w_next_ptr w) (w_mem w + size) w
      end
  end.

(** *** Debug sinks *)

(** Modelled from the spec: [debug_open] and [debug_close] are defined in
    [debug.c]; the spec gives them as [open(path) -> handle] and
    [close(handle)] on an opaque handle. Closing the process-wide default
    sink releases nothing. *)
Definition debug_open (w : world) (path : string) : world * sink :=
  let id := w_next_sink w in
  (with_sinks (id :: w_sinks w) (S id)
     (EvSinkOpen path (FileSink id) :: w_log w) w,
   FileSink id).

Definition debug_close (w : world) (h : sink) : world :=
  match h with
  | NullSink | DefaultSink =>
      with_sinks (w_sinks w) (w_next_sink w) (EvSinkClose h :: w_log w) w
  | FileSink id =>
      with_sinks (remove_id id (w_sinks w))
        (w_next_sink w) (EvSinkClose h :: w_log w) w
  end.

(** The block of [debug_dbg] calls at the end of [cfg_init]: what they print
    and the sink they print to. *)
Definition debug_dump (w : world) (cfg : cfg_t) (flags : Z) (argv : list string) : world :=
  with_sinks (w_sinks w) (w_next_sink w)
    (EvDebug (debug_file cfg) flags argv cfg :: w_log w) w.

End OS.

Import OS.

(** ** The specification's notions *)

Module Spec.

(** *** The line normalizer (section 4.3) *)

(** The text before the first [c]. *)
Fixpoint before (c : ascii) (s : string) : string :=
  match s with
  | EmptyString => EmptyString
  | String d s' => if Ascii.eqb d c then EmptyString else String d (before c s')
  end.

(** A split at the first [c], when there is one. *)
Fixpoint split_once (c : ascii) (s : string) : option (string * string) :=
  match s with
  | EmptyString => None
  | String d s' =>
      if Ascii.eqb d c then Some (EmptyString, s')
      else match split_once c s' with
           | Some (k, v) => Some (String d k, v)
           | None => None
           end
  end.

Fixpoint trim_left (s : string) : string :=
  match s with
  | EmptyString => EmptyString
  | String c s' => if isspace c then trim_left s' else s
  end.

Fixpoint trim_right (s : string) : string :=
  match s with
  | EmptyString => EmptyString
  | String c s' =>
      let t := trim_right s' in
      if isspace c && empty t then EmptyString else String c t
  end.

Definition trim (s : string) : string := trim_left (trim_right s).

(** [None] is the signal to skip the line. *)
Definition normalize (raw : string) : option string :=
  let text := trim (before "#" raw) in
  match split_once "=" text with
  | None => if empty text then None else Some text
  | Some (k, v) => Some (trim k ++ "=" ++ trim v)
  end.

(** *** The secure opener (section 4.1) *)

Definition node_uid (n : node) : Z :=
  match n with
  | Dir uid _ _ | Reg uid _ _ _ | Lnk uid _ | Fifo uid _ => uid
  end.

Definition node_perm (n : node) : Z :=
  match n with
  | Dir _ perm _ | Reg _ perm _ _ | Fifo _ perm => perm
  | Lnk _ _ => 511%Z
  end.

Definition is_dir (n : node) : bool :=
  match n with
  | Dir _ _ _ => true
  | _ => false
  end.

Definition is_reg (n : node) : bool :=
  match n with
  | Reg _ _ _ _ => true
  | _ => false
  end.

(** The trust predicate: owned by the trusted principal (any owner will do
    in a test build) and not writable by group or others (mode & 022). *)
Definition owner_trusted (testing : bool) (n : node) : bool :=
  testing || (node_uid n =? 0)%Z.

Definition writable_by_group_or_others (n : node) : bool :=
  negb (Z.land (node_perm n) 18 =? 0)%Z.

Definition trusted (testing : bool) (n : node) : bool :=
  owner_trusted testing n && negb (writable_by_group_or_others n).

Inductive outcome : Type :=
| Absent
| Denied
| Opened (f : node).

(** The walk below [dir]: [p] is the next component, [rest] the ones after
    it. A component before the last is opened following symbolic links and
    has to be a trusted directory; the last is opened without following and
    has to be a trusted regular file. *)
Fixpoint open_trusted_from (testing : bool) (dir : node) (p : string)
    (rest : list string) : outcome :=
  match dir with
  | Dir _ _ entries =>
      match lookup p entries with
      | None => Absent
      | Some n =>
          match rest with
          | c :: rest' =>
              match follow n with
              | None => Absent
              | Some d =>
                  if is_dir d && trusted testing d
                  then open_trusted_from testing d c rest'
                  else Denied
              end
          | [] =>
              if is_reg n && trusted testing n then Opened n else Denied
          end
      end
  | _ => Denied
  end.

(** Absolute, and not ending in a separator. *)
Definition well_formed (path : string) : bool :=
  is_char (String.get 0 path) "/"
  && negb (is_char (String.get (String.length path - 1) path) "/").

Definition open_trusted (testing : bool) (root : node) (path : string) : outcome :=
  if well_formed path then
    match strtok_all path "/", root with
    | p :: rest, Dir _ _ _ => open_trusted_from testing root p rest
    | _, _ => Denied
    end
  else Denied.

(** The file reached from [dir] along [names], symbolic links followed. *)
Fixpoint reach (dir : node) (names : list string) : option node :=
  match names with
  | [] => Some dir
  | n :: names' =>
      match dir with
      | Dir _ _ entries =>
          match lookup n entries with
          | Some f =>
              match follow f with
              | Some d => reach d names'
              | None => None
              end
          | None => None
          end
      | _ => None
      end
  end.

(** The named ancestors of a path with components [names]: what its
    prefixes of 1 to [length names - 1] components reach. The root itself
    is the prefix of no component and is not among them. *)
Definition ancestor (root : node) (names : list string) (k : nat) : option node :=
  if (0 <? k)%nat && (k <? List.length names)%nat then reach root (firstn k names)
  else None.

(** The directory entry a path names: as [reach], but the last component
    is not followed. *)
Fixpoint entry (dir : node) (names : list string) : option node :=
  match names, dir with
  | [], _ => None
  | n :: names', Dir _ _ entries =>
      match lookup n entries with
      | Some f =>
          match names' with
          | [] => Some f
          | _ :: _ =>
              match follow f with
              | Some d => entry d names'
              | None => None
              end
          end
      | None => None
      end
  | _ :: _, _ => None
  end.

(** The path does not exist: a component is not there, or a symbolic link
    on the way dangles. *)
Fixpoint missing (dir : node) (names : list string) : bool :=
  match names with
  | [] => false
  | n :: names' =>
      match dir with
      | Dir _ _ entries =>
          match lookup n entries with
          | None => true
          | Some f =>
              match names' with
              | [] => false
              | _ :: _ =>
                  match follow f with
                  | None => true
                  | Some d => missing d names'
                  end
              end
          end
      | _ => false
      end
  end.

(** *** Error kinds (section 7)

    A failure is of a kind by what caused it: "SecurityError (trust
    predicate violated at any path component, or explicit path missing)",
    "ResourceError (allocation or size-limit exceeded)", "SystemError
    (underlying read/open failure unrelated to trust)". *)
Inductive cause : Type :=
| TrustViolated
| ExplicitPathMissing
| AllocationFailed
| SizeLimitExceeded
| ReadFailed.

Inductive error_kind : Type :=
| SecurityError
| ResourceError
| SystemError.

Definition kind_of (c : cause) : error_kind :=
  match c with
  | TrustViolated | ExplicitPathMissing => SecurityError
  | AllocationFailed | SizeLimitExceeded => ResourceError
  | ReadFailed => SystemError
  end.

(** *** The settings merger (section 4.4) *)

(** The key of a token: the text before its first [=], or all of it. *)
Definition token_key (tok : string) : string := before "=" tok.

(** The value of a token: the text after its first [=]. *)
Definition token_value (tok : string) : string :=
  match split_once "=" tok with
  | Some (_, v) => v
  | None => ""
  end.

Definition recognized_keys : list string :=
  [ "debug"; "debug_file"; "max_devices"; "manual"; "nouserok"; "openasuser";
    "alwaysok"; "interactive"; "cue"; "nodetect"; "expand"; "sshformat";
    "userpresence"; "userverification"; "pinverification"; "authfile";
    "authpending_file"; "origin"; "appid"; "prompt"; "cue_prompt" ].

Definition numeric_keys : list string :=
  [ "max_devices"; "userpresence"; "userverification"; "pinverification" ].

Definition is_in (k : string) (keys : list string) : bool :=
  existsb (String.eqb k) keys.

(** A number opens the text: optional white space, an optional sign, a digit. *)
Definition parses_as_number (v : string) : bool :=
  let v := trim_left v in
  let v := match v with
           | String "-" v' => v'
           | String "+" v' => v'
           | _ => v
           end in
  match v with
  | EmptyString => false
  | String c _ => isdigit c
  end.
End Spec.

(** ** Example worlds

    A build with the usual values of the macros, and file trees to run the
    loader on. Modes are decimal: 0755 is 493, 0644 is 420, 0775 is 509,
    0777 is 511. *)

Module Example.

Definition MAX_FILE_SIZE : Z := 4096.
Definition DEFAULT_PATH : string := "/etc/security/pam_u2f.conf".

Definition NL : string := String "010" "".

(** Two lines, 20 bytes. *)
Definition conf_text : string := "debug" ++ NL ++ "max_devices=5" ++ NL.

Definition conf_file : string * node := ("pam_u2f.conf", Reg 0 420 20 conf_text).

(** A file that reports more than [MAX_FILE_SIZE] bytes. *)
Definition big_file : string * node := ("pam_u2f.conf", Reg 0 420 5000 conf_text).

(** The directory [/etc/security] with the given mode and files, and the
    tree around it; the mode of [/] is left open too. *)
Definition security (perm : Z) (files : list (string * node)) : node :=
  Dir 0 perm files.

Definition tree (root_perm security_perm : Z) (files : list (string * node)) : node :=
  Dir 0 root_perm [("etc", Dir 0 493 [("security", security security_perm files)])].

(** A process with descriptors 0 to 2 taken, an empty heap with 64 KiB to
    give, and reads that hand over all they are asked for. *)
Definition world_of (root : node) : world :=
  mk_world root [] 3 [] 0 65536 [] [] 0 [] false.

(** The configuration file is in place and all is trusted. *)
Definition configured : world := world_of (tree 493 493 [conf_file]).

(** There is no configuration file. *)
Definition bare : world := world_of (tree 493 493 []).

(** The root directory is writable by everybody. *)
Definition open_root : world := world_of (tree 511 493 [conf_file]).

(** [/etc/security] is writable by its group; with and without the file. *)
Definition loose_dir : world := world_of (tree 493 509 [conf_file]).
Definition loose_empty_dir : world := world_of (tree 493 509 []).

(** The configuration file is too big. *)
Definition oversized : world := world_of (tree 493 493 [big_file]).

(** A path that leads nowhere, and argument lists. *)
Definition NO_SUCH_PATH : string := "/etc/security/none.conf".
Definition argv_sink : list string := ["debug_file=/var/log/pam_u2f.log"].
Definition argv_no_such_conf : list string :=
  ["debug_file=/var/log/pam_u2f.log"; "conf=/etc/security/none.conf"].

(** A second configuration file beside the first, of one line and 14
    bytes, and arguments that name the two files in turn. *)
Definition other_text : string := "max_devices=7" ++ NL.

Definition other_file : string * node := ("other.conf", Reg 0 420 14 other_text).

Definition two_files : world := world_of (tree 493 493 [conf_file; other_file]).

Definition OTHER_PATH : string := "/etc/security/other.conf".

Definition argv_two_conf : list string :=
  ["conf=/etc/security/pam_u2f.conf"; "conf=/etc/security/other.conf"].




(** The configuration file is a symbolic link to a trusted regular file. *)
Definition linked : world :=
  world_of (tree 493 493 [("pam_u2f.conf", Lnk 0 (Some (snd conf_file)))]).


(** A process that holds the configuration file open at descriptor 6; its
    first read hands over 7 bytes at most, and the second 3 or, in
    [failing_read], fails. *)
Definition holding (script : list read_outcome) : world :=
  mk_world (tree 493 493 [conf_file]) [(6, mk_ofile (snd conf_file) 0)] 7
    [] 0 65536 script [] 0 [] false.

Definition short_reads : world := holding [ReadAtMost 6; ReadAtMost 2].
Definition failing_read : world := holding [ReadAtMost 6; ReadFails].

(** No configuration file, and 8 bytes of memory to give: too few for a
    copy of the default path. *)
Definition starved : world :=
  mk_world (tree 493 493 []) [] 3 [] 0 8 [] [] 0 [] false.

Definition RELATIVE : string := "etc/security/pam_u2f.conf".

End Example.

(** ** The loader

    [CFG_MAX_FILE_SIZE] and [CFG_DEFAULT_PATH] are macros of [cfg.h];
    [PAM_U2F_TESTING] tells whether the build defines the macro of that name. *)

Section Loader.

Local Open Scope Z_scope.

Variable CFG_MAX_FILE_SIZE : Z.
Variable CFG_DEFAULT_PATH : string.
Variable PAM_U2F_TESTING : bool.

Definition cfg_load_arg_debug (w : world) (cfg : cfg_t) (arg : string) : world * cfg_t :=
  if strcmp_eq arg "debug" then (w, set_debug 1 cfg)
  else if strncmp_eq arg "debug_file=" then
    let w := debug_close w (debug_file cfg) in
    let (w, h) := debug_open w (skip (String.length "debug_file=") arg) in
    (w, set_debug_file h cfg)
  else (w, cfg).

(** What a [sscanf] into a field leaves in it. *)
Definition stored (scanned : option Z) (old : Z) : Z :=
  match scanned with
  | Some v => v
  | None => old
  end.

Definition cfg_load_arg (w : world) (cfg : cfg_t) (arg : string) : world * cfg_t :=
  if strncmp_eq arg "max_devices=" then
    (w, set_max_devs (stored (sscanf_u arg "max_devices=") (max_devs cfg)) cfg)
  else if strcmp_eq arg "manual" then (w, set_manual 1 cfg)
  else if strcmp_eq arg "nouserok" then (w, set_nouserok 1 cfg)
  else if strcmp_eq arg "openasuser" then (w, set_openasuser 1 cfg)
  else if strcmp_eq arg "alwaysok" then (w, set_alwaysok 1 cfg)
  else if strcmp_eq arg "interactive" then (w, set_interactive 1 cfg)
  else if strcmp_eq arg "cue" then (w, set_cue 1 cfg)
  else if strcmp_eq arg "nodetect" then (w, set_nodetect 1 cfg)
  else if strcmp_eq arg "expand" then (w, set_expand 1 cfg)
  else if strncmp_eq arg "userpresence=" then
    (w, set_userpresence
          (stored (sscanf_d arg "userpresence=") (userpresence cfg)) cfg)
  else if strncmp_eq arg "userverification=" then
    (w, set_userverification
          (stored (sscanf_d arg "userverification=") (userverification cfg)) cfg)
  else if strncmp_eq arg "pinverification=" then
    (w, set_pinverification
          (stored (sscanf_d arg "pinverification=") (pinverification cfg)) cfg)
  else if strncmp_eq arg "authfile=" then (w, set_auth_file (Some (skip 9 arg)) cfg)
  else if strcmp_eq arg "sshformat" then (w, set_sshformat 1 cfg)
  else if strncmp_eq arg "authpending_file=" then
    (w, set_authpending_file (Some (skip 17 arg)) cfg)
  else if strncmp_eq arg "origin=" then (w, set_origin (Some (skip 7 arg)) cfg)
  else if strncmp_eq arg "appid=" then (w, set_appid (Some (skip 6 arg)) cfg)
  else if strncmp_eq arg "prompt=" then (w, set_prompt (Some (skip 7 arg)) cfg)
  else if strncmp_eq arg "cue_prompt=" then (w, set_cue_prompt (Some (skip 11 arg)) cfg)
  else cfg_load_arg_debug w cfg arg.

(** *** [slurp] *)

Definition SIZE_MAX : Z := 2 ^ 64 - 1.

(** The [while (to_read)] loop; [w] of the source is the end of [acc]. An
    iteration that goes on has read at least one byte, so [fuel] = [to_read]
    is never used up. *)
Fixpoint slurp_loop (fuel : nat) (w : world) (fd : nat) (to_read : Z) (acc : string)
  : world * option string :=
  if to_read =? 0 then (w, Some acc)
  else
    match fuel with
    | O => (w, Some acc)
    | S fuel' =>
        match read w fd to_read with
        | (w, None) => (w, None)
        | (w, Some bytes) =>
            let r := Z.of_nat (String.length bytes) in
            if r =? 0 then (w, Some acc)
            else slurp_loop fuel' w fd (to_read - r) (acc ++ bytes)
        end
    end.

(** The result, and for [*dst] the address of the buffer with the bytes
    stored in it before the terminating NUL. *)
Definition slurp (w : world) (fd : nat) (to_read : Z)
  : world * pam_status * option (nat * string) :=
  if to_read >? CFG_MAX_FILE_SIZE then (w, PAM_SERVICE_ERR, None)
  else
    match malloc w ((to_read + 1) mod (SIZE_MAX + 1)) with
    | (w, None) => (w, PAM_BUF_ERR, None)
    | (w, Some buffer) =>
        match slurp_loop (Z.to_nat to_read) w fd to_read "" with
        | (w, None) => (free w (Some buffer), PAM_SYSTEM_ERR, None)
        | (w, Some bytes) => (w, PAM_SUCCESS, Some (buffer, bytes))
        end
    end.

(** *** [open_safely] *)

Definition strdup (w : world) (s : string) : world * option nat :=
  malloc w (Z.of_nat (String.length s) + 1).

Definition close_if_open (w : world) (fd : option nat) : world :=
  match fd with
  | Some fd => close w fd
  | None => w
  end.

(** The code at the label [exit]. *)
Definition open_safely_exit (w : world) (parent_fd fd : option nat) (copy : nat) : world :=
  let w := close_if_open w parent_fd in
  let w := close_if_open w fd in
  free w (Some copy).

Definition untrusted_owner (st : stat) : bool :=
  negb PAM_U2F_TESTING && negb (st_uid st =? 0).

Definition group_other_writable (st : stat) : bool :=
  negb (Z.land (st_mode st) (Z.lor S_IWGRP S_IWOTH) =? 0).

(** The [while] loop and the code after it: [p] is the component to open
    next, [rest] the tokens [strtok_r] still returns. The result is the
    return code, [*outfd] ([None] for -1) and [*outsize]. *)
Fixpoint open_safely_walk (w : world) (parent_fd : nat) (p : option string)
    (rest : list string) (copy : nat) : world * pam_status * option nat * Z :=
  match rest with
  | c :: rest' =>
      match openat w parent_fd p (mk_oflags true false) with
      | (w, inl e) =>
          (open_safely_exit w (Some parent_fd) None copy,
           match e with ENOENT => PAM_SUCCESS | _ => PAM_SERVICE_ERR end,
           None, 0)
      | (w, inr fd) =>
          match fstat w fd with
          | None =>
              (open_safely_exit w (Some parent_fd) (Some fd) copy,
               PAM_SERVICE_ERR, None, 0)
          | Some st =>
              if untrusted_owner st then
                (open_safely_exit w (Some parent_fd) (Some fd) copy,
                 PAM_SERVICE_ERR, None, 0)
              else if negb (S_ISDIR (st_mode st) || S_ISLNK (st_mode st))
                      || group_other_writable st then
                (open_safely_exit w (Some parent_fd) (Some fd) copy,
                 PAM_SERVICE_ERR, None, 0)
              else
                let w := close w parent_fd in
                open_safely_walk w fd (Some c) rest' copy
          end
      end
  | [] =>
      match openat w parent_fd p (mk_oflags false true) with
      | (w, inl e) =>
          (open_safely_exit w (Some parent_fd) None copy,
           match e with ENOENT => PAM_SUCCESS | _ => PAM_SERVICE_ERR end,
           None, 0)
      | (w, inr fd) =>
          match fstat w fd with
          | None =>
              (open_safely_exit w (Some parent_fd) (Some fd) copy,
               PAM_SERVICE_ERR, None, 0)
          | Some st =>
              if untrusted_owner st then
                (open_safely_exit w (Some parent_fd) (Some fd) copy,
                 PAM_SERVICE_ERR, None, 0)
              else if negb (S_ISREG (st_mode st)) || group_other_writable st then
                (open_safely_exit w (Some parent_fd) (Some fd) copy,
                 PAM_SERVICE_ERR, None, 0)
              else
                (open_safely_exit w (Some parent_fd) None copy,
                 PAM_SUCCESS, Some fd, st_size st mod (SIZE_MAX + 1))
          end
      end
  end.

(** The result is the world, the return code, [*outfd] ([None] for -1) and
    [*outsize]. On the returns of lines 117, 121 and 126 the code has not
    yet assigned [*outfd] and [*outsize]: the [None] and the 0 given there
    say that no descriptor is handed out, and are not values the code has
    stored. The caller, [cfg_load_defaults], reads neither on a code other
    than [PAM_SUCCESS]. *)
Definition open_safely (w : world) (path : string)
  : world * pam_status * option nat * Z :=
  let len := String.length path in
  if Nat.eqb len 0
     || negb (is_char (String.get 0 path) "/")
     || is_char (String.get (len - 1) path) "/"
  then (w, PAM_SERVICE_ERR, None, 0)
  else
    match strdup w path with
    | (w, None) => (w, PAM_BUF_ERR, None, 0)
    | (w, Some copy) =>
        let tokens := strtok_all path "/" in
        let p := hd_error tokens in
        match open_root w (mk_oflags true true) with
        | (w, inl _) => (open_safely_exit w None None copy, PAM_SERVICE_ERR, None, 0)
        | (w, inr parent_fd) => open_safely_walk w parent_fd p (tl tokens) copy
        end
    end.

(** *** [cfg_load_buffer] *)

(** [arg = pack(buf); if (!arg || !*arg) continue;]: the argument a line
    gives, or [None] when the loop goes on to the next line. [pack] never
    returns NULL. *)
Definition line_token (buf : string) : option string :=
  let arg := pack buf in
  if empty arg then None else Some arg.

Fixpoint cfg_load_lines (w : world) (cfg : cfg_t) (lines : list string) : world * cfg_t :=
  match lines with
  | [] => (w, cfg)
  | buf :: lines' =>
      match line_token buf with
      | None => cfg_load_lines w cfg lines'
      | Some arg =>
          let (w, cfg) := cfg_load_arg w cfg arg in
          cfg_load_lines w cfg lines'
      end
  end.

Definition cfg_load_buffer (w : world) (cfg : cfg_t) (buffer : string) : world * cfg_t :=
  cfg_load_lines w cfg (strtok_all buffer (String "010" "")).

(** *** [cfg_load_defaults] *)

Definition cfg_load_defaults (w : world) (cfg : cfg_t) (config_path : option string)
  : world * pam_status * cfg_t :=
  let path := match config_path with Some p => p | None => CFG_DEFAULT_PATH end in
  let '(w, r, fd, fsize) := open_safely w path in
  if negb (is_success r) then (w, r, cfg)
  else
    match fd with
    | None =>
        (w, match config_path with Some _ => PAM_SERVICE_ERR | None => PAM_SUCCESS end,
         cfg)
    | Some fd =>
        if fsize =? 0 then (close w fd, PAM_SUCCESS, cfg)
        else
          let '(w, r, dst) := slurp w fd fsize in
          match dst with
          | Some (buffer, bytes) =>
              if negb (is_success r) then (close (free w (Some buffer)) fd, r, cfg)
              else
                let (w, cfg) := cfg_load_buffer w cfg (c_str bytes) in
                let cfg := set_defaults_buffer (Some buffer) cfg in
                (close (free w None) fd, PAM_SUCCESS, cfg)
          | None =>
              if negb (is_success r) then (close (free w None) fd, r, cfg)
              else (close (free (fault w) None) fd, PAM_SUCCESS,
                    set_defaults_buffer None cfg)
          end
    end.

(** *** [cfg_reset], [cfg_free], [cfg_init] *)

(** [memset(cfg, 0, sizeof(cfg_t))]. *)
Definition cfg_zero : cfg_t :=
  mk_cfg 0 0 0 0 0 0 0 0 0 0 0 0 0 0 None None None None None None NullSink None.

Definition cfg_reset (cfg : cfg_t) : cfg_t :=
  let cfg := cfg_zero in
  let cfg := set_debug_file DEFAULT_DEBUG_FILE cfg in
  let cfg := set_userpresence (-1) cfg in
  let cfg := set_userverification (-1) cfg in
  set_pinverification (-1) cfg.

Definition cfg_free (w : world) (cfg : cfg_t) : world * cfg_t :=
  let w := debug_close w (debug_file cfg) in
  let w := free w (defaults_buffer cfg) in
  (w, cfg_reset cfg).

(** The first [for] loop of [cfg_init]. *)
Fixpoint early_scan (w : world) (cfg : cfg_t) (config_path : option string)
    (argv : list string) : world * cfg_t * option string :=
  match argv with
  | [] => (w, cfg, config_path)
  | arg :: argv' =>
      if strncmp_eq arg "conf=" then
        early_scan w cfg (Some (skip (String.length "conf=") arg)) argv'
      else
        let (w, cfg) := cfg_load_arg_debug w cfg arg in
        early_scan w cfg config_path argv'
  end.

(** The second [for] loop of [cfg_init]. *)
Fixpoint full_scan (w : world) (cfg : cfg_t) (argv : list string) : world * cfg_t :=
  match argv with
  | [] => (w, cfg)
  | arg :: argv' =>
      if strncmp_eq arg "conf=" then full_scan w cfg argv'
      else
        let (w, cfg) := cfg_load_arg w cfg arg in
        full_scan w cfg argv'
  end.

Definition cfg_init (w : world) (cfg : cfg_t) (flags : Z) (argv : list string)
  : world * pam_status * cfg_t :=
  let cfg := cfg_reset cfg in
  let '(w, cfg, config_path) := early_scan w cfg None argv in
  let '(w, r, cfg) := cfg_load_defaults w cfg config_path in
  let (w, cfg) := if is_success r then full_scan w cfg argv else (w, cfg) in
  let w := if negb (debug cfg =? 0) then debug_dump w cfg flags argv else w in
  if negb (is_success r) then
    let (w, cfg) := cfg_free w cfg in (w, r, cfg)
  else (w, r, cfg).

Local Close Scope Z_scope.

(** ** Notions for the statements *)

(** What makes [slurp] fail, when it does: the test of the size (line 70),
    the [malloc] (line 73) or a [read] (line 81). *)
Definition slurp_failure (w : world) (fd : nat) (to_read : Z) : option Spec.cause :=
  if (to_read >? CFG_MAX_FILE_SIZE)%Z then Some Spec.SizeLimitExceeded
  else
    match malloc w ((to_read + 1) mod (SIZE_MAX + 1))%Z with
    | (_, None) => Some Spec.AllocationFailed
    | (w, Some _) =>
        match slurp_loop (Z.to_nat to_read) w fd to_read "" with
        | (_, None) => Some Spec.ReadFailed
        | (_, Some _) => None
        end
    end.

(** No white space opens the string. *)
Definition no_lead (s : string) : Prop :=
  match s with
  | EmptyString => True
  | String c _ => isspace c = false
  end.

(** What [open_safely_walk] returns, given the outcome the specification
    prescribes: the descriptor table is [F], with the descriptor of the file
    on top when it is opened, and the copy of the path is freed. *)
Definition walk_result (w : world) (F : list (nat * ofile)) (copy : nat)
    (o : Spec.outcome) (res : world * pam_status * option nat * Z) : Prop :=
  exists n', w_next_fd w <= n' /\
    match o with
    | Spec.Absent =>
        res = (free (with_fds F n' w) (Some copy), PAM_SUCCESS, None, 0%Z)
    | Spec.Denied =>
        res = (free (with_fds F n' w) (Some copy), PAM_SERVICE_ERR, None, 0%Z)
    | Spec.Opened f =>
        exists fd, w_next_fd w <= fd < n' /\
          res = (free (with_fds ((fd, mk_ofile f 0) :: F) n' w) (Some copy),
                 PAM_SUCCESS, Some fd,
                 (st_size (node_stat f) mod (SIZE_MAX + 1))%Z)
    end.

(** The world after a call that has released what it took: the descriptor
    table is [fds], the heap is as it was. *)
Definition settled (w : world) (fds : list (nat * ofile)) (next_fd : nat) : world :=
  with_heap (w_heap w) (S (w_next_ptr w)) (w_mem w) (with_fds fds next_fd w).

Definition strdup_fits (w : world) (path : string) : bool :=
  (Z.of_nat (String.length path) + 1 <=? w_mem w)%Z.

(** [frame w w']: [w'] holds what [w] holds, but for its descriptors: the
    tree, the heap, the sinks, the log and the fault flag are those of [w]. *)
Definition frame (w w' : world) : Prop :=
  w_root w' = w_root w /\ w_heap w' = w_heap w /\ w_mem w' = w_mem w
  /\ w_sinks w' = w_sinks w /\ w_next_sink w' = w_next_sink w
  /\ w_log w' = w_log w /\ w_fault w' = w_fault w.

(** A world that differs from [w] in the entry of [fd], which is on top of
    the table, and in the reads to come. *)
Definition reading (w : world) (fd : nat) (f : ofile) (F : list (nat * ofile))
    (script : list read_outcome) : world :=
  with_reads script (with_fds ((fd, f) :: F) (w_next_fd w) w).

Definition sink_state (w : world) : list nat * nat * list event :=
  (w_sinks w, w_next_sink w, w_log w).

(** The text [cfg_load_defaults] hands to [cfg_load_buffer]; empty when it
    does not get that far. *)
Definition config_text (w : world) (config_path : option string) : string :=
  let path := match config_path with Some p => p | None => CFG_DEFAULT_PATH end in
  let '(w1, r, fd, fsize) := open_safely w path in
  match fd with
  | Some fd =>
      if is_success r && negb (fsize =? 0)%Z then
        match slurp w1 fd fsize with
        | (_, _, Some (_, bytes)) => c_str bytes
        | (_, _, None) => ""
        end
      else ""
  | None => ""
  end.

(** [sink_frame w w']: [w'] is [w] but for the sinks held and the log. *)
Definition sink_frame (w w' : world) : Prop :=
  w' = with_sinks (w_sinks w') (w_next_sink w') (w_log w') w.

(** The sink a record holds, when [debug_open] handed it out. *)
Definition held (h : sink) : list nat :=
  match h with
  | FileSink id => [id]
  | _ => []
  end.

(** A symbolic link, itself and not what it leads to. *)
Definition is_lnk (n : node) : bool :=
  match n with
  | Lnk _ _ => true
  | _ => false
  end.

Definition is_debug_file (arg : string) : bool := strncmp_eq arg "debug_file=".

(** The sinks opened, by the log. *)
Fixpoint sink_opens (log : list event) : nat :=
  match log with
  | [] => 0
  | EvSinkOpen _ _ :: log' => S (sink_opens log')
  | _ :: log' => sink_opens log'
  end.


Definition count_debug_file (args : list string) : nat :=
  List.length (List.filter is_debug_file args).

(** The tokens the lines of a buffer give. *)
Fixpoint line_tokens (lines : list string) : list string :=
  match lines with
  | [] => []
  | buf :: lines' =>
      match line_token buf with
      | Some arg => arg :: line_tokens lines'
      | None => line_tokens lines'
      end
  end.

(** [v] is what [sscanf] stored for one of the tokens, read with the key. *)
Definition assigned_by (toks : list string) (lit : string) (v : Z) : Prop :=
  exists tok, In tok toks /\ sscanf_d tok lit = Some v.

(** Every tri-state field holds the sentinel or a value assigned by one of
    the tokens. *)
Definition tristate_ok (toks : list string) (cfg : cfg_t) : Prop :=
  (userpresence cfg = (-1)%Z \/ assigned_by toks "userpresence=" (userpresence cfg))
  /\ (userverification cfg = (-1)%Z
      \/ assigned_by toks "userverification=" (userverification cfg))
  /\ (pinverification cfg = (-1)%Z
      \/ assigned_by toks "pinverification=" (pinverification cfg)).

Definition tristate (cfg : cfg_t) : Z * Z * Z :=
  (userpresence cfg, userverification cfg, pinverification cfg).

(** The settings of the record, the debug sink apart. *)
Inductive setting : Type :=
| s_max_devices | s_manual | s_debug | s_nouserok | s_openasuser | s_alwaysok
| s_interactive | s_cue | s_nodetect | s_userpresence | s_userverification
| s_pinverification | s_sshformat | s_expand | s_authfile | s_authpending_file
| s_origin | s_appid | s_prompt | s_cue_prompt.

Inductive value : Type :=
| VInt (z : Z)
| VStr (s : option string).

Definition get (s : setting) (cfg : cfg_t) : value :=
  match s with
  | s_max_devices => VInt (max_devs cfg)
  | s_manual => VInt (manual cfg)
  | s_debug => VInt (debug cfg)
  | s_nouserok => VInt (nouserok cfg)
  | s_openasuser => VInt (openasuser cfg)
  | s_alwaysok => VInt (alwaysok cfg)
  | s_interactive => VInt (interactive cfg)
  | s_cue => VInt (cue cfg)
  | s_nodetect => VInt (nodetect cfg)
  | s_userpresence => VInt (userpresence cfg)
  | s_userverification => VInt (userverification cfg)
  | s_pinverification => VInt (pinverification cfg)
  | s_sshformat => VInt (sshformat cfg)
  | s_expand => VInt (expand cfg)
  | s_authfile => VStr (auth_file cfg)
  | s_authpending_file => VStr (authpending_file cfg)
  | s_origin => VStr (origin cfg)
  | s_appid => VStr (appid cfg)
  | s_prompt => VStr (prompt cfg)
  | s_cue_prompt => VStr (cue_prompt cfg)
  end.


(** The argument leaves the setting as it is. *)
Definition arg_keeps (arg : string) (s : setting) : Prop :=
  forall w cfg, get s (snd (cfg_load_arg w cfg arg)) = get s cfg.

Definition is_conf (arg : string) : bool := strncmp_eq arg "conf=".

(** The path of the last [conf=] entry. *)
Fixpoint last_conf (argv : list string) : option string :=
  match argv with
  | [] => None
  | arg :: argv' =>
      match last_conf argv' with
      | Some p => Some p
      | None => if is_conf arg then Some (skip 5 arg) else None
      end
  end.

(** The arguments without the [conf=] entries that a later one follows. *)
Fixpoint drop_earlier_conf (argv : list string) : list string :=
  match argv with
  | [] => []
  | arg :: argv' =>
      match is_conf arg, last_conf argv' with
      | true, Some _ => drop_earlier_conf argv'
      | _, _ => arg :: drop_earlier_conf argv'
      end
  end.

(** The tokens [cfg_load_buffer] applies. *)
Definition buffer_tokens (buffer : string) : list string :=
  line_tokens (strtok_all buffer (String "010" "")).

(** Every character of the string is white space. *)
Fixpoint all_space (s : string) : bool :=
  match s with
  | EmptyString => true
  | String c s' => isspace c && all_space s'
  end.

(** The last character of a string. *)
Fixpoint last_char (s : string) : option ascii :=
  match s with
  | EmptyString => None
  | String c EmptyString => Some c
  | String _ s' => last_char s'
  end.

(** No white space closes the string. *)
Definition no_trail (s : string) : Prop :=
  match last_char s with
  | Some c => isspace c = false
  | None => True
  end.

(** The character [c] occurs in [s]. *)
Fixpoint occurs (c : ascii) (s : string) : bool :=
  match s with
  | EmptyString => false
  | String d s' => Ascii.eqb d c || occurs c s'
  end.

(** Neither [ltrim] nor [rtrim] changes the string. *)
Definition trimmed (s : string) : Prop := ltrim s = s /\ rtrim s = s.

(** The keys of the settings that take no value. *)
Definition flag_keys : list string :=
  [ "debug"; "manual"; "nouserok"; "openasuser"; "alwaysok"; "interactive";
    "cue"; "nodetect"; "expand"; "sshformat" ].

(** None of the coming reads fails. *)
Fixpoint reads_succeed (script : list read_outcome) : bool :=
  match script with
  | [] => true
  | ReadFails :: _ => false
  | ReadAtMost _ :: script' => reads_succeed script'
  end.

(** The dumps of the record in the log. *)
Fixpoint debug_dumps (log : list event) : nat :=
  match log with
  | [] => 0
  | EvDebug _ _ _ _ :: log' => S (debug_dumps log')
  | _ :: log' => debug_dumps log'
  end.

(** The token [debug] is among the tokens. *)
Definition asks_debug (toks : list string) : bool :=
  existsb (fun tok => strcmp_eq tok "debug") toks.

(** What the record owns: the sink [debug_open] gave it and the buffer
    [slurp] gave it. *)
Definition owned_sinks (cfg : cfg_t) : list nat := held (debug_file cfg).

Definition owns_buffer (cfg : cfg_t) (heap heap' : list (nat * Z)) (mem mem' : Z) : Prop :=
  match defaults_buffer cfg with
  | Some p => exists size, heap' = (p, size) :: heap /\ mem' = (mem - size)%Z
  | None => heap' = heap /\ mem' = mem
  end.

(** ** Properties of the C library model *)

Section StringFacts.

Lemma skip_nil (n : nat) : skip n "" = "".
Proof. destruct n; reflexivity. Qed.

Lemma take_nil (n : nat) : take n "" = "".
Proof. destruct n; reflexivity. Qed.

Lemma take_length (s : string) : take (String.length s) s = s.
Proof. induction s as [|c s IH]; simpl; [reflexivity | now rewrite IH]. Qed.

Lemma take_skip (n : nat) (s : string) : take n s ++ skip n s = s.
Proof.
  revert s; induction n as [|n IH]; intros [|c s]; simpl; try reflexivity.
  now rewrite IH.
Qed.

Lemma string_length_app (s t : string) :
  String.length (s ++ t) = String.length s + String.length t.
Proof. induction s as [|c s IH]; simpl; [reflexivity | now rewrite IH]. Qed.

Lemma take_app_le (n : nat) (s t : string) :
  n <= String.length s -> take n (s ++ t) = take n s.
Proof.
  revert s; induction n as [|n IH]; intros [|c s] H; simpl in *; try reflexivity.
  - lia.
  - rewrite IH; [reflexivity | lia].
Qed.

Lemma get_app_lt (n : nat) (s t : string) :
  n < String.length s -> String.get n (s ++ t) = String.get n s.
Proof.
  revert s; induction n as [|n IH]; intros [|c s] H; simpl in *; try lia.
  - reflexivity.
  - apply IH; lia.
Qed.

Lemma get_app_length (s t : string) (c : ascii) :
  String.get (String.length s) (s ++ String c t) = Some c.
Proof. induction s as [|d s IH]; simpl; [reflexivity | exact IH]. Qed.

Lemma empty_true (s : string) : empty s = true -> s = "".
Proof. destruct s; [reflexivity | discriminate]. Qed.

Lemma empty_snoc (s : string) (c : ascii) : empty (s ++ String c "") = false.
Proof. destruct s; reflexivity. Qed.

(** Every string is empty or ends with a character. *)
Lemma string_unsnoc (s : string) :
  s = "" \/ exists s' c, s = s' ++ String c "".
Proof.
  induction s as [|d s IH]; [now left | right].
  destruct IH as [-> | (s' & c & ->)].
  - exists "", d; reflexivity.
  - exists (String d s'), c; reflexivity.
Qed.

Lemma string_snoc_ind (P : string -> Prop) :
  P "" -> (forall s c, P s -> P (s ++ String c "")) -> forall s, P s.
Proof.
  intros H0 Hs s.
  remember (String.length s) as n eqn:Hn.
  revert s Hn; induction n as [|n IH]; intros s Hn.
  - destruct s; [exact H0 | discriminate].
  - destruct (string_unsnoc s) as [-> | (s' & c & ->)]; [exact H0 |].
    apply Hs, IH.
    rewrite string_length_app in Hn; simpl in Hn; lia.
Qed.

Lemma starts_with_split (lit s : string) :
  starts_with lit s = true -> s = lit ++ skip (String.length lit) s.
Proof.
  revert s; induction lit as [|c lit IH]; intros s H; simpl in *.
  - reflexivity.
  - destruct s as [|d s]; [discriminate |].
    apply andb_true_iff in H as [Hc H].
    apply Ascii.eqb_eq in Hc; subst d.
    simpl; f_equal; apply IH, H.
Qed.

Lemma starts_with_app (lit rest : string) : starts_with lit (lit ++ rest) = true.
Proof.
  induction lit as [|c lit IH]; simpl; [reflexivity |].
  now rewrite Ascii.eqb_refl, IH.
Qed.

End StringFacts.

(** ** The line normalizer: [pack] against the specification *)

Section Normalizer.

Import Spec.

Lemma take_strcspn_before (c : ascii) (s : string) :
  take (strcspn s (String c "")) s = before c s.
Proof.
  induction s as [|d s IH]; simpl; [reflexivity |].
  rewrite orb_false_r.
  destruct (Ascii.eqb d c); simpl; [reflexivity | now rewrite IH].
Qed.

Lemma strchr_split_once (c : ascii) (s : string) :
  match strchr s c with
  | None => split_once c s = None
  | Some i => split_once c s = Some (take i s, skip (S i) s)
  end.
Proof.
  induction s as [|d s IH]; simpl; [reflexivity |].
  destruct (Ascii.eqb d c); [reflexivity |].
  destruct (strchr s c) as [i|]; rewrite IH; reflexivity.
Qed.

Lemma ltrim_trim_left (s : string) : ltrim s = trim_left s.
Proof. induction s as [|c s IH]; simpl; [reflexivity | now rewrite IH]. Qed.

Lemma rtrim_loop_le (s : string) (l : nat) : rtrim_loop s l <= l.
Proof.
  induction l as [|l IH]; simpl; [lia |].
  destruct (String.get l s) as [c|]; [| lia].
  destruct (isspace c); lia.
Qed.

Lemma rtrim_loop_app (s t : string) (l : nat) :
  l <= String.length s -> rtrim_loop (s ++ t) l = rtrim_loop s l.
Proof.
  induction l as [|l IH]; intros H; simpl; [reflexivity |].
  rewrite get_app_lt by lia.
  destruct (String.get l s) as [c|]; [| reflexivity].
  destruct (isspace c); [apply IH; lia | reflexivity].
Qed.

Lemma rtrim_snoc (s : string) (c : ascii) :
  rtrim (s ++ String c "") =
  if isspace c then rtrim s else s ++ String c "".
Proof.
  unfold rtrim.
  rewrite string_length_app; simpl String.length.
  replace (String.length s + 1) with (S (String.length s)) by lia.
  simpl rtrim_loop.
  rewrite get_app_length.
  destruct (isspace c).
  - rewrite rtrim_loop_app by lia.
    apply take_app_le, rtrim_loop_le.
  - rewrite <- (take_length (s ++ String c "")) at 2.
    rewrite string_length_app; simpl.
    now replace (String.length s + 1) with (S (String.length s)) by lia.
Qed.

Lemma trim_right_snoc (s : string) (c : ascii) :
  trim_right (s ++ String c "") =
  if isspace c then trim_right s else s ++ String c "".
Proof.
  induction s as [|d s IH]; simpl.
  - destruct (isspace c); reflexivity.
  - rewrite IH.
    destruct (isspace c); [reflexivity |].
    now rewrite empty_snoc, andb_false_r.
Qed.

Lemma rtrim_trim_right (s : string) : rtrim s = trim_right s.
Proof.
  induction s as [|s c IH] using string_snoc_ind; [reflexivity |].
  now rewrite rtrim_snoc, trim_right_snoc, IH.
Qed.

Lemma trim_right_idem (s : string) : trim_right (trim_right s) = trim_right s.
Proof.
  induction s as [|c s IH]; simpl; [reflexivity |].
  destruct (isspace c && empty (trim_right s)) eqn:E; [reflexivity |].
  simpl; now rewrite IH, E.
Qed.

Lemma trim_right_left (s : string) :
  trim_right (trim_left s) = trim_left (trim_right s).
Proof.
  induction s as [|c s IH]; simpl; [reflexivity |].
  destruct (isspace c) eqn:Ec; simpl.
  - destruct (empty (trim_right s)) eqn:Ee; simpl.
    + rewrite IH. apply empty_true in Ee. now rewrite Ee.
    + now rewrite Ec.
  - now rewrite Ec.
Qed.

Lemma split_once_trim_right (s : string) :
  split_once "=" (trim_right s) =
  match split_once "=" s with
  | Some (k, v) => Some (k, trim_right v)
  | None => None
  end.
Proof.
  induction s as [|d s IH]; simpl; [reflexivity |].
  destruct (Ascii.eqb d "=") eqn:Ed.
  - apply Ascii.eqb_eq in Ed; subst d; reflexivity.
  - destruct (split_once "=" s) as [[k v]|].
    + assert (empty (trim_right s) = false) as ->
        by (destruct (trim_right s); [discriminate | reflexivity]).
      rewrite andb_false_r; simpl; now rewrite Ed, IH.
    + destruct (isspace d && empty (trim_right s)); simpl; [reflexivity |].
      now rewrite Ed, IH.
Qed.

Lemma trim_left_no_lead (s : string) : no_lead (trim_left s).
Proof.
  induction s as [|c s IH]; simpl; [exact I |].
  destruct (isspace c) eqn:E; [exact IH | exact E].
Qed.

Lemma no_lead_trim_left (s : string) : no_lead s -> trim_left s = s.
Proof.
  destruct s as [|c s]; simpl; [reflexivity |].
  intros H; now rewrite H.
Qed.

Lemma no_lead_trim_right (s : string) : no_lead s -> no_lead (trim_right s).
Proof.
  destruct s as [|c s]; simpl; [exact id |].
  intros H; rewrite H; exact H.
Qed.

Lemma split_once_no_lead (s k v : string) :
  no_lead s -> split_once "=" s = Some (k, v) -> no_lead k.
Proof.
  destruct s as [|c s]; simpl; [discriminate |]. intros Hc.
  destruct (Ascii.eqb c "="); [intros [= <- _]; exact I |].
  destruct (split_once "=" s) as [[k' v']|]; [| discriminate].
  intros [= <- _]; exact Hc.
Qed.

Lemma line_token_normalize (raw : string) : line_token raw = normalize raw.
Proof.
  unfold line_token, pack, normalize, trim.
  rewrite take_strcspn_before, ltrim_trim_left.
  rewrite <- trim_right_left, split_once_trim_right.
  set (s := trim_left (before "#" raw)).
  pose proof (strchr_split_once "=" s) as Hs.
  pose proof (trim_left_no_lead (before "#" raw)) as Hl. fold s in Hl.
  destruct (strchr s "=") as [i|]; rewrite Hs.
  - rewrite !rtrim_trim_right, ltrim_trim_left, trim_right_idem.
    rewrite (no_lead_trim_left (trim_right (take i s))).
    + destruct (trim_right (take i s)); reflexivity.
    + apply no_lead_trim_right, (split_once_no_lead s _ _ Hl Hs).
  - now rewrite rtrim_trim_right.
Qed.

End Normalizer.

(** ** The settings merger: tokens that change nothing *)

Section Merger.

Import Spec.

Lemma starts_with_ex (lit s : string) :
  starts_with lit s = true -> exists rest, s = lit ++ rest.
Proof. intros H; eexists; apply starts_with_split, H. Qed.

Lemma skip_length_app (lit rest : string) : skip (String.length lit) (lit ++ rest) = rest.
Proof. induction lit as [|c lit IH]; simpl; [reflexivity | exact IH]. Qed.

Lemma skip_space_trim_left (s : string) : skip_space s = Spec.trim_left s.
Proof. induction s as [|c s IH]; simpl; [reflexivity | now rewrite IH]. Qed.

Lemma scan_number_none (v : string) :
  parses_as_number v = false -> scan_number v = None.
Proof.
  unfold parses_as_number, scan_number.
  change (skip_space v) with (Spec.trim_left v).
  destruct (Spec.trim_left v) as [|c t]; [reflexivity |].
  destruct (Ascii.eqb c "-") eqn:Em.
  { apply Ascii.eqb_eq in Em; subst c.
    destruct t as [|d t]; [reflexivity | now intros ->]. }
  destruct (Ascii.eqb c "+") eqn:Ep.
  { apply Ascii.eqb_eq in Ep; subst c.
    destruct t as [|d t]; [reflexivity | now intros ->]. }
  assert (Hc : forall (A : Type) (x y z : A),
             match c with "-"%char => x | "+"%char => y | _ => z end = z).
  { intros A x y z.
    apply Ascii.eqb_neq in Em, Ep.
    destruct c as [[] [] [] [] [] [] [] []]; try reflexivity; congruence. }
  rewrite Hc. rewrite (Hc (bool * string)%type). now intros ->.
Qed.

Lemma conv_d_none (v : string) : parses_as_number v = false -> conv_d v = None.
Proof. intros H; unfold conv_d; now rewrite scan_number_none. Qed.

Lemma conv_u_none (v : string) : parses_as_number v = false -> conv_u v = None.
Proof. intros H; unfold conv_u; now rewrite scan_number_none. Qed.

Lemma sscanf_d_app (lit rest : string) : sscanf_d (lit ++ rest) lit = conv_d rest.
Proof. unfold sscanf_d; now rewrite starts_with_app, skip_length_app. Qed.

Lemma sscanf_u_app (lit rest : string) : sscanf_u (lit ++ rest) lit = conv_u rest.
Proof. unfold sscanf_u; now rewrite starts_with_app, skip_length_app. Qed.

Lemma set_get_max_devs (c : cfg_t) : set_max_devs (max_devs c) c = c.
Proof. destruct c; reflexivity. Qed.

Lemma set_get_userpresence (c : cfg_t) : set_userpresence (userpresence c) c = c.
Proof. destruct c; reflexivity. Qed.

Lemma set_get_userverification (c : cfg_t) :
  set_userverification (userverification c) c = c.
Proof. destruct c; reflexivity. Qed.

Lemma set_get_pinverification (c : cfg_t) :
  set_pinverification (pinverification c) c = c.
Proof. destruct c; reflexivity. Qed.

(** Splits on the next test of [cfg_load_arg]; where it holds, [arg] is
    replaced by what the test says it is. *)
Ltac next_test :=
  match goal with
  | |- context [if String.eqb ?a ?l then _ else _] =>
      let E := fresh "E" in
      destruct (String.eqb a l) eqn:E;
      [apply String.eqb_eq in E; subst a |]
  | |- context [if starts_with ?l ?a then _ else _] =>
      let E := fresh "E" in
      destruct (starts_with l a) eqn:E;
      [apply starts_with_ex in E as [? ->] |]
  end.

Lemma cfg_load_arg_unrecognized (w : world) (cfg : cfg_t) (arg : string) :
  is_in (token_key arg) recognized_keys = false ->
  cfg_load_arg w cfg arg = (w, cfg).
Proof.
  intros H.
  unfold cfg_load_arg, cfg_load_arg_debug, strcmp_eq, strncmp_eq.
  repeat (next_test; [vm_compute in H; discriminate H |]).
  reflexivity.
Qed.

Lemma cfg_load_arg_not_a_number (w : world) (cfg : cfg_t) (arg : string) :
  is_in (token_key arg) numeric_keys = true ->
  parses_as_number (token_value arg) = false ->
  cfg_load_arg w cfg arg = (w, cfg).
Proof.
  intros Hk Hv.
  unfold cfg_load_arg, cfg_load_arg_debug, strcmp_eq, strncmp_eq.
  repeat (next_test;
          [first [ vm_compute in Hk; discriminate Hk
                 | change (parses_as_number x = false) in Hv;
                   rewrite ?sscanf_u_app, ?sscanf_d_app,
                     ?(conv_u_none _ Hv), ?(conv_d_none _ Hv); simpl stored;
                   now rewrite ?set_get_max_devs, ?set_get_userpresence,
                     ?set_get_userverification, ?set_get_pinverification ] |]).
  reflexivity.
Qed.

End Merger.

(** ** Descriptor and heap tables *)

Section Tables.

Context {A : Type}.

Lemma find_head (k : nat) (a : A) (l : list (nat * A)) : find k ((k, a) :: l) = Some a.
Proof. simpl; now rewrite Nat.eqb_refl. Qed.

Lemma find_skip (k k' : nat) (a : A) (l : list (nat * A)) :
  k' <> k -> find k ((k', a) :: l) = find k l.
Proof. intros H; simpl; now apply Nat.eqb_neq in H as ->. Qed.

Lemma remove_head (k : nat) (a : A) (l : list (nat * A)) : remove k ((k, a) :: l) = l.
Proof. simpl; now rewrite Nat.eqb_refl. Qed.

Lemma remove_skip (k k' : nat) (a : A) (l : list (nat * A)) :
  k' <> k -> remove k ((k', a) :: l) = (k', a) :: remove k l.
Proof. intros H; simpl; now apply Nat.eqb_neq in H as ->. Qed.

End Tables.

(** ** Mode bits *)

Section ModeBits.

Local Open Scope Z_scope.

Lemma land_type_perm (t perm mask : Z) :
  Z.land 4095 mask = 0 ->
  Z.land (Z.lor t (Z.land perm 4095)) mask = Z.land t mask.
Proof.
  intros H.
  rewrite Z.land_lor_distr_l, <- Z.land_assoc, H, Z.land_0_r, Z.lor_0_r.
  reflexivity.
Qed.

Lemma land_perm_bits (t perm mask : Z) :
  Z.land t mask = 0 -> Z.land 4095 mask = mask ->
  Z.land (Z.lor t (Z.land perm 4095)) mask = Z.land perm mask.
Proof.
  intros Ht Hm.
  rewrite Z.land_lor_distr_l, Ht, Z.lor_0_l, <- Z.land_assoc, Hm.
  reflexivity.
Qed.

Lemma writable_stat (n : node) :
  Spec.is_dir n || Spec.is_reg n = true ->
  group_other_writable (node_stat n) = Spec.writable_by_group_or_others n.
Proof.
  unfold group_other_writable, Spec.writable_by_group_or_others.
  destruct n; try discriminate; intros _;
    cbn [node_stat st_mode Spec.node_perm];
    now rewrite land_perm_bits.
Qed.

Lemma untrusted_owner_stat (n : node) :
  untrusted_owner (node_stat n) = negb (Spec.owner_trusted PAM_U2F_TESTING n).
Proof.
  unfold untrusted_owner, Spec.owner_trusted.
  destruct n; cbn [node_stat st_uid Spec.node_uid]; now rewrite negb_orb.
Qed.

Lemma S_ISDIR_stat (n : node) :
  Spec.is_dir n = true ->
  S_ISDIR (st_mode (node_stat n)) = true.
Proof.
  destruct n; try discriminate; intros _.
  unfold S_ISDIR; cbn [node_stat st_mode]; now rewrite land_type_perm.
Qed.

Lemma S_ISREG_stat (n : node) :
  match n with Lnk _ _ => True | _ => S_ISREG (st_mode (node_stat n)) = Spec.is_reg n end.
Proof.
  destruct n; trivial; unfold S_ISREG; cbn [node_stat st_mode Spec.is_reg];
    now rewrite land_type_perm.
Qed.

End ModeBits.

(** ** [open_safely] against the specification walk *)

Section Walk.

Lemma with_fds_eta (w : world) : with_fds (w_fds w) (w_next_fd w) w = w.
Proof. destruct w; reflexivity. Qed.

Lemma close_first (w : world) (fd : nat) (x : ofile) (F : list (nat * ofile)) (n : nat) :
  close (with_fds ((fd, x) :: F) n w) fd = with_fds F n w.
Proof.
  unfold close; cbn [w_fds with_fds w_next_fd].
  now rewrite find_head, remove_head.
Qed.

Lemma close_second (w : world) (fd pfd : nat) (x y : ofile) (F : list (nat * ofile))
    (n : nat) :
  fd <> pfd ->
  close (with_fds ((fd, x) :: (pfd, y) :: F) n w) pfd = with_fds ((fd, x) :: F) n w.
Proof.
  intros H. unfold close; cbn [w_fds with_fds w_next_fd].
  now rewrite find_skip, find_head, remove_skip, remove_head.
Qed.

Lemma fstat_first (w : world) (fd : nat) (x : ofile) (F : list (nat * ofile)) (n : nat) :
  fstat (with_fds ((fd, x) :: F) n w) fd = Some (node_stat (of_node x)).
Proof. unfold fstat; cbn [w_fds with_fds]; now rewrite find_head. Qed.

Lemma exit_parent (w : world) (pfd : nat) (x : ofile) (F : list (nat * ofile))
    (n copy : nat) :
  open_safely_exit (with_fds ((pfd, x) :: F) n w) (Some pfd) None copy =
  free (with_fds F n w) (Some copy).
Proof. unfold open_safely_exit, close_if_open; now rewrite close_first. Qed.

Lemma exit_both (w : world) (fd pfd : nat) (x y : ofile) (F : list (nat * ofile))
    (n copy : nat) :
  fd <> pfd ->
  open_safely_exit (with_fds ((fd, y) :: (pfd, x) :: F) n w) (Some pfd) (Some fd) copy =
  free (with_fds F n w) (Some copy).
Proof.
  intros H; unfold open_safely_exit, close_if_open.
  now rewrite close_second, close_first.
Qed.

Lemma exit_keep (w : world) (fd pfd : nat) (x y : ofile) (F : list (nat * ofile))
    (n copy : nat) :
  fd <> pfd ->
  open_safely_exit (with_fds ((fd, y) :: (pfd, x) :: F) n w) (Some pfd) None copy =
  free (with_fds ((fd, y) :: F) n w) (Some copy).
Proof.
  intros H; unfold open_safely_exit, close_if_open.
  now rewrite close_second.
Qed.

Lemma openat_at (w : world) (pfd : nat) (dir : node) (pos : nat)
    (F : list (nat * ofile)) (name : string) (flags : oflags) :
  w_fds w = (pfd, mk_ofile dir pos) :: F ->
  openat w pfd (Some name) flags =
  match dir with
  | Dir _ _ entries =>
      match lookup name entries with
      | None => (w, inl ENOENT)
      | Some n =>
          match resolve n flags with
          | inl e => (w, inl e)
          | inr f =>
              (with_fds ((w_next_fd w, mk_ofile f 0) :: (pfd, mk_ofile dir pos) :: F)
                 (S (w_next_fd w)) w,
               inr (w_next_fd w))
          end
      end
  | _ => (w, inl ENOTDIR)
  end.
Proof.
  intros H; unfold openat, install; rewrite H, find_head.
  destruct dir; reflexivity.
Qed.

Lemma exit_parent_at (w : world) (pfd : nat) (x : ofile) (F : list (nat * ofile))
    (copy : nat) :
  w_fds w = (pfd, x) :: F ->
  open_safely_exit w (Some pfd) None copy =
  free (with_fds F (w_next_fd w) w) (Some copy).
Proof.
  intros H. rewrite <- (exit_parent w pfd x F (w_next_fd w) copy).
  now rewrite <- H, with_fds_eta.
Qed.

Lemma resolve_directory (n : node) :
  resolve n (mk_oflags true false) =
  match follow n with
  | None => inl ENOENT
  | Some f => if Spec.is_dir f then inr f else inl ENOTDIR
  end.
Proof.
  unfold resolve; cbn [O_NOFOLLOW O_DIRECTORY].
  destruct n; destruct (follow _) as [[] |]; reflexivity.
Qed.

Lemma resolve_nofollow (n : node) :
  resolve n (mk_oflags false true) =
  match n with
  | Lnk _ _ => inl ELOOP
  | _ => inr n
  end.
Proof. destruct n; reflexivity. Qed.

Lemma open_safely_walk_refines (rest : list string) :
  forall (w : world) (pfd : nat) (dir : node) (pos : nat) (F : list (nat * ofile))
         (p : string) (copy : nat),
    w_fds w = (pfd, mk_ofile dir pos) :: F -> pfd < w_next_fd w ->
    walk_result w F copy (Spec.open_trusted_from PAM_U2F_TESTING dir p rest)
      (open_safely_walk w pfd (Some p) rest copy).
Proof.
  induction rest as [|c rest IH]; intros w pfd dir pos F p copy Hfds Hlt;
    cbn [open_safely_walk Spec.open_trusted_from];
    rewrite (openat_at w pfd dir pos F p _ Hfds);
    pose proof (exit_parent_at w pfd _ F copy Hfds) as Hw.
  - (* the last component *)
    destruct dir as [uid perm entries | | |];
      try (exists (w_next_fd w); split; [lia |]; now rewrite Hw).
    destruct (lookup p entries) as [n|];
      [| exists (w_next_fd w); split; [lia |]; now rewrite Hw].
    rewrite resolve_nofollow.
    destruct n as [u m e | u m size data | u t | u m];
      try (exists (w_next_fd w); split; [lia |]; now rewrite Hw).
    + rewrite fstat_first; cbn [of_node].
      pose proof (S_ISREG_stat (Dir u m e)) as Hreg; cbn beta iota in Hreg.
      rewrite Hreg; cbn [Spec.is_reg negb orb andb].
      exists (S (w_next_fd w)); split; [lia |].
      destruct (untrusted_owner _); now rewrite exit_both by lia.
    + rewrite fstat_first; cbn [of_node].
      pose proof (S_ISREG_stat (Reg u m size data)) as Hreg; cbn beta iota in Hreg.
      rewrite Hreg, untrusted_owner_stat, writable_stat by reflexivity.
      unfold Spec.trusted; cbn [Spec.is_reg negb orb andb].
      destruct (Spec.owner_trusted PAM_U2F_TESTING _); cbn [negb andb].
      * destruct (Spec.writable_by_group_or_others _); cbn [negb].
        -- exists (S (w_next_fd w)); split; [lia |].
           now rewrite exit_both by lia.
        -- exists (S (w_next_fd w)); split; [lia |].
           exists (w_next_fd w); split; [lia |].
           now rewrite exit_keep by lia.
      * exists (S (w_next_fd w)); split; [lia |].
        now rewrite exit_both by lia.
    + rewrite fstat_first; cbn [of_node].
      pose proof (S_ISREG_stat (Fifo u m)) as Hreg; cbn beta iota in Hreg.
      rewrite Hreg; cbn [Spec.is_reg negb orb andb].
      exists (S (w_next_fd w)); split; [lia |].
      destruct (untrusted_owner _); now rewrite exit_both by lia.
  - (* a component before the last *)
    destruct dir as [uid perm entries | | |];
      try (exists (w_next_fd w); split; [lia |]; now rewrite Hw).
    destruct (lookup p entries) as [n|];
      [| exists (w_next_fd w); split; [lia |]; now rewrite Hw].
    rewrite resolve_directory.
    destruct (follow n) as [d|];
      [| exists (w_next_fd w); split; [lia |]; now rewrite Hw].
    destruct (Spec.is_dir d) eqn:Hd; cbn [andb];
      [| exists (w_next_fd w); split; [lia |]; now rewrite Hw].
    rewrite fstat_first; cbn [of_node].
    rewrite untrusted_owner_stat, (S_ISDIR_stat d Hd), writable_stat
      by (now rewrite Hd).
    unfold Spec.trusted; cbn [negb orb].
    destruct (Spec.owner_trusted PAM_U2F_TESTING d); cbn [negb andb];
      [| exists (S (w_next_fd w)); split; [lia |]; now rewrite exit_both by lia].
    destruct (Spec.writable_by_group_or_others d); cbn [negb];
      [exists (S (w_next_fd w)); split; [lia |]; now rewrite exit_both by lia |].
    rewrite close_second by lia.
    specialize (IH (with_fds ((w_next_fd w, mk_ofile d 0) :: F) (S (w_next_fd w)) w)
                  (w_next_fd w) d 0 F c copy eq_refl).
    specialize (IH (Nat.lt_succ_diag_r _)).
    destruct IH as (n' & Hn' & IH). cbn [w_next_fd with_fds] in Hn'.
    exists n'; split; [lia |].
    destruct (Spec.open_trusted_from PAM_U2F_TESTING d c rest) as [| | f]; [exact IH ..|].
    destruct IH as (fd & Hfd & IH). cbn [w_next_fd with_fds] in Hfd.
    exists fd; split; [lia | exact IH].
Qed.

Lemma free_settles (w : world) (fds : list (nat * ofile)) (n : nat) (size : Z) :
  free (with_fds fds n
          (with_heap ((w_next_ptr w, size) :: w_heap w) (S (w_next_ptr w))
             (w_mem w - size) w))
       (Some (w_next_ptr w)) =
  settled w fds n.
Proof.
  unfold free, settled; cbn [w_heap with_fds with_heap].
  rewrite find_head, remove_head.
  unfold with_heap, with_fds; cbn. f_equal. lia.
Qed.

Lemma precondition_well_formed (path : string) :
  Nat.eqb (String.length path) 0
  || negb (is_char (String.get 0 path) "/")
  || is_char (String.get (String.length path - 1) path) "/"
  = negb (Spec.well_formed path).
Proof.
  unfold Spec.well_formed.
  destruct path as [|c s]; [reflexivity |].
  cbn [String.length Nat.eqb orb].
  now rewrite negb_andb, negb_involutive.
Qed.

Theorem open_safely_refines (w : world) (path : string) :
  Spec.well_formed path = true -> strdup_fits w path = true ->
  exists n', w_next_fd w <= n' /\
    match Spec.open_trusted PAM_U2F_TESTING (w_root w) path with
    | Spec.Absent =>
        open_safely w path = (settled w (w_fds w) n', PAM_SUCCESS, None, 0%Z)
    | Spec.Denied =>
        open_safely w path = (settled w (w_fds w) n', PAM_SERVICE_ERR, None, 0%Z)
    | Spec.Opened f =>
        exists fd, w_next_fd w <= fd < n' /\
          open_safely w path =
          (settled w ((fd, mk_ofile f 0) :: w_fds w) n', PAM_SUCCESS, Some fd,
           (st_size (node_stat f) mod (SIZE_MAX + 1))%Z)
    end.
Proof.
  intros Hwf Hfit. unfold open_safely, Spec.open_trusted.
  rewrite precondition_well_formed, Hwf; cbn [negb].
  unfold strdup, malloc. unfold strdup_fits in Hfit. rewrite Hfit.
  set (size := (Z.of_nat (String.length path) + 1)%Z).
  assert (Hfree : forall fds n,
            free (with_fds fds n
                    (with_heap ((w_next_ptr w, size) :: w_heap w) (S (w_next_ptr w))
                       (w_mem w - size) w))
              (Some (w_next_ptr w)) = settled w fds n)
    by (intros; apply free_settles).
  set (w1 := with_heap _ _ _ w) in *.
  assert (Hroot : forall e, w_root w = e ->
            Spec.is_dir e = false ->
            open_root w1 (mk_oflags true true) = (w1, inl ENOTDIR)).
  { intros e He Hd. unfold open_root. cbn [w_root w1 with_heap]. rewrite He.
    destruct e as [? ? ? | ? ? ? ? | ? t | ? ?]; try discriminate; try reflexivity.
  }
  assert (Heta : with_fds (w_fds w) (w_next_fd w) w1 = w1) by exact (with_fds_eta w1).
  destruct (Spec.is_dir (w_root w)) eqn:Hdir.
  - (* the root is opened *)
    assert (Hopen : open_root w1 (mk_oflags true true) =
                    (with_fds ((w_next_fd w, mk_ofile (w_root w) 0) :: w_fds w)
                       (S (w_next_fd w)) w1, inr (w_next_fd w))).
    { unfold open_root. cbn [w_root w1 with_heap].
      destruct (w_root w); try discriminate; reflexivity. }
    rewrite Hopen.
    destruct (strtok_all path "/") as [|p rest]; cbn [hd_error tl].
    + exists (S (w_next_fd w)); split; [lia |].
      cbn [open_safely_walk openat]. rewrite exit_parent, Hfree.
      destruct (w_root w); reflexivity.
    + destruct (open_safely_walk_refines rest
                  (with_fds ((w_next_fd w, mk_ofile (w_root w) 0) :: w_fds w)
                     (S (w_next_fd w)) w1)
                  (w_next_fd w) (w_root w) 0 (w_fds w) p (w_next_ptr w) eq_refl
                  (Nat.lt_succ_diag_r _)) as (n' & Hn' & H).
      cbn [w_next_fd with_fds] in Hn'.
      exists n'; split; [lia |].
      replace (match w_root w with
               | Dir _ _ _ => Spec.open_trusted_from PAM_U2F_TESTING (w_root w) p rest
               | _ => Spec.Denied
               end)
        with (Spec.open_trusted_from PAM_U2F_TESTING (w_root w) p rest)
        by (destruct (w_root w); try discriminate; reflexivity).
      destruct (Spec.open_trusted_from PAM_U2F_TESTING (w_root w) p rest) as [| | f].
      * rewrite H. f_equal. f_equal. f_equal. apply Hfree.
      * rewrite H. f_equal. f_equal. f_equal. apply Hfree.
      * destruct H as (fd & Hfd & H). cbn [w_next_fd with_fds] in Hfd.
        exists fd; split; [lia |].
        rewrite H. f_equal. f_equal. f_equal. apply Hfree.
  - (* the root cannot be opened as a directory *)
    rewrite (Hroot _ eq_refl Hdir).
    exists (w_next_fd w); split; [lia |].
    unfold open_safely_exit, close_if_open.
    rewrite <- Heta, Hfree.
    destruct (strtok_all path "/"); [reflexivity |].
    destruct (w_root w); try discriminate; reflexivity.
Qed.

End Walk.

(** ** The specification walk on the file tree *)

Section TrustWalk.

Import Spec.

Lemma ancestor_first (dir : node) (p c : string) (rest : list string) :
  ancestor dir (p :: c :: rest) 1 = reach dir [p].
Proof. reflexivity. Qed.

Lemma ancestor_next (u m : Z) (entries : list (string * node)) (f d : node)
    (p : string) (rest : list string) (k : nat) :
  lookup p entries = Some f -> follow f = Some d -> 0 < k ->
  ancestor (Dir u m entries) (p :: rest) (S k) = ancestor d rest k.
Proof.
  intros Hl Hf Hk. unfold ancestor.
  cbn [firstn reach List.length]. rewrite Hl, Hf.
  replace (0 <? S k)%nat with true by (symmetry; apply Nat.ltb_lt; lia).
  replace (0 <? k)%nat with true by (symmetry; apply Nat.ltb_lt; lia).
  reflexivity.
Qed.

Lemma opened_ancestors (rest : list string) :
  forall (dir : node) (p : string) (f : node),
    open_trusted_from PAM_U2F_TESTING dir p rest = Opened f ->
    forall k, 0 < k < List.length (p :: rest) ->
      exists d, ancestor dir (p :: rest) k = Some d
                /\ is_dir d = true /\ trusted PAM_U2F_TESTING d = true.
Proof.
  induction rest as [|c rest IH]; intros dir p f H k Hk; [simpl in Hk; lia |].
  cbn [open_trusted_from] in H.
  destruct dir as [u m entries | | |]; try discriminate.
  destruct (lookup p entries) as [n|] eqn:Hl; [| discriminate].
  destruct (follow n) as [d|] eqn:Hf; [| discriminate].
  destruct (is_dir d && trusted PAM_U2F_TESTING d) eqn:Ht; [| discriminate].
  apply andb_true_iff in Ht as [Hd Ht].
  destruct k as [|[|k]]; [lia | |].
  - exists d. rewrite ancestor_first. cbn [reach]. now rewrite Hl, Hf.
  - rewrite (ancestor_next u m entries n d p (c :: rest) (S k) Hl Hf) by lia.
    apply (IH d c f H). cbn [List.length] in *. lia.
Qed.

Lemma opened_entry (rest : list string) :
  forall (dir : node) (p : string) (f : node),
    open_trusted_from PAM_U2F_TESTING dir p rest = Opened f ->
    entry dir (p :: rest) = Some f /\ is_reg f = true /\ trusted PAM_U2F_TESTING f = true.
Proof.
  induction rest as [|c rest IH]; intros dir p f H;
    cbn [open_trusted_from] in H;
    destruct dir as [u m entries | | |]; try discriminate;
    cbn [entry];
    destruct (lookup p entries) as [n|] eqn:Hl; try discriminate.
  - destruct (is_reg n && trusted PAM_U2F_TESTING n) eqn:Ht; [| discriminate].
    injection H as <-. now apply andb_true_iff in Ht.
  - destruct (follow n) as [d|] eqn:Hf; [| discriminate].
    destruct (is_dir d && trusted PAM_U2F_TESTING d); [| discriminate].
    now apply IH.
Qed.

Lemma writable_ancestor_denied (rest : list string) :
  forall (dir : node) (p : string) (k : nat) (d : node),
    ancestor dir (p :: rest) k = Some d ->
    writable_by_group_or_others d = true ->
    open_trusted_from PAM_U2F_TESTING dir p rest = Denied.
Proof.
  induction rest as [|c rest IH]; intros dir p k d Ha Hw.
  - unfold ancestor in Ha. cbn [List.length] in Ha.
    destruct k as [|k]; [discriminate |].
    replace (S k <? 1)%nat with false in Ha by (symmetry; apply Nat.ltb_ge; lia).
    now rewrite andb_false_r in Ha.
  - assert (Hk : 0 < k < List.length (p :: c :: rest)).
    { unfold ancestor in Ha.
      destruct ((0 <? k)%nat && (k <? List.length (p :: c :: rest))%nat) eqn:E;
        [| discriminate].
      apply andb_true_iff in E as [E1 E2].
      apply Nat.ltb_lt in E1, E2. lia. }
    cbn [open_trusted_from].
    destruct dir as [u m entries | | |]; try reflexivity.
    destruct k as [|[|k]]; [lia | |].
    + rewrite ancestor_first in Ha. cbn [reach] in Ha.
      destruct (lookup p entries) as [n|]; [| discriminate].
      destruct (follow n) as [d'|]; [| discriminate].
      injection Ha as ->.
      unfold trusted. rewrite Hw. now rewrite !andb_false_r.
    + destruct (lookup p entries) as [n|] eqn:Hl.
      2:{ unfold ancestor in Ha. cbn [firstn reach] in Ha. rewrite Hl in Ha.
          now destruct (_ && _). }
      destruct (follow n) as [d'|] eqn:Hf.
      2:{ unfold ancestor in Ha. cbn [firstn reach] in Ha. rewrite Hl, Hf in Ha.
          now destruct (_ && _). }
      rewrite (ancestor_next u m entries n d' p (c :: rest) (S k) Hl Hf) in Ha by lia.
      destruct (is_dir d' && trusted PAM_U2F_TESTING d'); [| reflexivity].
      exact (IH d' c (S k) d Ha Hw).
Qed.

(** An ancestor that is there and is not a trusted directory stops the
    walk, whatever comes after it. *)
Lemma untrusted_ancestor_denied (rest : list string) :
  forall (dir : node) (p : string) (k : nat) (d : node),
    ancestor dir (p :: rest) k = Some d ->
    is_dir d && trusted PAM_U2F_TESTING d = false ->
    open_trusted_from PAM_U2F_TESTING dir p rest = Denied.
Proof.
  induction rest as [|c rest IH]; intros dir p k d Ha Hw.
  - unfold ancestor in Ha. cbn [List.length] in Ha.
    destruct k as [|k]; [discriminate |].
    replace (S k <? 1)%nat with false in Ha by (symmetry; apply Nat.ltb_ge; lia).
    now rewrite andb_false_r in Ha.
  - assert (Hk : 0 < k < List.length (p :: c :: rest)).
    { unfold ancestor in Ha.
      destruct ((0 <? k)%nat && (k <? List.length (p :: c :: rest))%nat) eqn:E;
        [| discriminate].
      apply andb_true_iff in E as [E1 E2].
      apply Nat.ltb_lt in E1, E2. lia. }
    cbn [open_trusted_from].
    destruct dir as [u m entries | | |]; try reflexivity.
    destruct k as [|[|k]]; [lia | |].
    + rewrite ancestor_first in Ha. cbn [reach] in Ha.
      destruct (lookup p entries) as [n|]; [| discriminate].
      destruct (follow n) as [d'|]; [| discriminate].
      injection Ha as ->. now rewrite Hw.
    + destruct (lookup p entries) as [n|] eqn:Hl.
      2:{ unfold ancestor in Ha. cbn [firstn reach] in Ha. rewrite Hl in Ha.
          now destruct (_ && _). }
      destruct (follow n) as [d'|] eqn:Hf.
      2:{ unfold ancestor in Ha. cbn [firstn reach] in Ha. rewrite Hl, Hf in Ha.
          now destruct (_ && _). }
      rewrite (ancestor_next u m entries n d' p (c :: rest) (S k) Hl Hf) in Ha by lia.
      destruct (is_dir d' && trusted PAM_U2F_TESTING d'); [| reflexivity].
      exact (IH d' c (S k) d Ha Hw).
Qed.

Lemma missing_not_opened (rest : list string) :
  forall (dir : node) (p : string),
    missing dir (p :: rest) = true ->
    match open_trusted_from PAM_U2F_TESTING dir p rest with
    | Opened _ => False
    | _ => True
    end.
Proof.
  induction rest as [|c rest IH]; intros dir p H;
    cbn [open_trusted_from missing] in *;
    destruct dir as [u m entries | | |]; try exact I;
    destruct (lookup p entries) as [n|]; try exact I; try discriminate.
  destruct (follow n) as [d|]; [| exact I].
  destruct (is_dir d && trusted PAM_U2F_TESTING d); [| exact I].
  now apply IH.
Qed.

Lemma missing_absent (rest : list string) :
  forall (dir : node) (p : string),
    missing dir (p :: rest) = true ->
    (forall k d, ancestor dir (p :: rest) k = Some d ->
                 is_dir d = true /\ trusted PAM_U2F_TESTING d = true) ->
    open_trusted_from PAM_U2F_TESTING dir p rest = Absent.
Proof.
  induction rest as [|c rest IH]; intros dir p H Ha;
    cbn [open_trusted_from missing] in *;
    destruct dir as [u m entries | | |]; try discriminate;
    destruct (lookup p entries) as [n|] eqn:Hl; try reflexivity; try discriminate.
  destruct (follow n) as [d|] eqn:Hf; [| reflexivity].
  destruct (Ha 1 d) as [Hd Ht].
  { rewrite ancestor_first. cbn [reach]. now rewrite Hl, Hf. }
  rewrite Hd, Ht. cbn [andb].
  apply IH; [exact H |].
  intros k d' Hk.
  apply (Ha (S k)).
  destruct k as [|k]; [discriminate |].
  now rewrite (ancestor_next u m entries n d p (c :: rest) (S k) Hl Hf) by lia.
Qed.

End TrustWalk.

(** ** Resources: what the calls leave behind *)

Section Resources.

Lemma frame_refl (w : world) : frame w w.
Proof. repeat split. Qed.

Lemma frame_trans (w1 w2 w3 : world) : frame w1 w2 -> frame w2 w3 -> frame w1 w3.
Proof.
  unfold frame. intros (a1 & a2 & a3 & a4 & a5 & a6 & a7) (b1 & b2 & b3 & b4 & b5 & b6 & b7).
  repeat split; congruence.
Qed.

Lemma frame_settled (w : world) (fds : list (nat * ofile)) (n : nat) :
  frame w (settled w fds n).
Proof. repeat split. Qed.

Lemma open_safely_ill_formed (w : world) (path : string) :
  Spec.well_formed path = false ->
  open_safely w path = (w, PAM_SERVICE_ERR, None, 0%Z).
Proof.
  intros H. unfold open_safely. now rewrite precondition_well_formed, H.
Qed.

Lemma open_safely_no_memory (w : world) (path : string) :
  Spec.well_formed path = true -> strdup_fits w path = false ->
  open_safely w path = (w, PAM_BUF_ERR, None, 0%Z).
Proof.
  intros H Hm. unfold open_safely. rewrite precondition_well_formed, H.
  cbn [negb]. unfold strdup, malloc. unfold strdup_fits in Hm. now rewrite Hm.
Qed.

(** What [open_safely] leaves behind: nothing but the descriptor it hands
    out, which is on top of the table. *)
Lemma open_safely_world (w : world) (path : string) :
  forall w' r outfd size,
    open_safely w path = (w', r, outfd, size) ->
    frame w w' /\
    match outfd with
    | Some fd => r = PAM_SUCCESS /\ exists f, w_fds w' = (fd, mk_ofile f 0) :: w_fds w
    | None => w_fds w' = w_fds w
    end.
Proof.
  intros w' r outfd size H.
  destruct (Spec.well_formed path) eqn:Hwf.
  2:{ rewrite open_safely_ill_formed in H by exact Hwf.
      injection H as <- <- <- <-. split; [apply frame_refl | reflexivity]. }
  destruct (strdup_fits w path) eqn:Hfit.
  2:{ rewrite open_safely_no_memory in H by assumption.
      injection H as <- <- <- <-. split; [apply frame_refl | reflexivity]. }
  destruct (open_safely_refines w path Hwf Hfit) as (n' & _ & Hr).
  destruct (Spec.open_trusted PAM_U2F_TESTING (w_root w) path) as [| | f].
  - rewrite Hr in H. injection H as <- <- <- <-.
    split; [apply frame_settled | reflexivity].
  - rewrite Hr in H. injection H as <- <- <- <-.
    split; [apply frame_settled | reflexivity].
  - destruct Hr as (fd & _ & Hr). rewrite Hr in H. injection H as <- <- <- <-.
    split; [apply frame_settled |]. split; [reflexivity |]. now exists f.
Qed.

(** *** [slurp] *)

Lemma reading_eta (w : world) (fd : nat) (f : ofile) (F : list (nat * ofile)) :
  w_fds w = (fd, f) :: F -> w = reading w fd f F (w_reads w).
Proof. intros H. unfold reading. rewrite <- H. now destruct w. Qed.

Lemma read_reading (w : world) (fd : nat) (f : ofile) (F : list (nat * ofile))
    (script : list read_outcome) (count : Z) :
  exists f' script',
    fst (read (reading w fd f F script) fd count) = reading w fd f' F script'.
Proof.
  unfold read. cbn [w_fds reading with_reads with_fds w_reads].
  rewrite find_head.
  destruct f as [[u m e | u m size data | u t | u m] pos];
    try (exists (mk_ofile (Dir u m e) pos), script; reflexivity);
    try (exists (mk_ofile (Lnk u t) pos), script; reflexivity);
    try (exists (mk_ofile (Fifo u m) pos), script; reflexivity).
  destruct script as [|[|k] script]; cbn [fst]; rewrite ?remove_head;
    eexists; eexists; reflexivity.
Qed.

Lemma take_length_le (n : nat) (s : string) : String.length (take n s) <= n.
Proof.
  revert s; induction n as [|n IH]; intros [|c s]; simpl; try lia.
  specialize (IH s); lia.
Qed.

Lemma read_length (w : world) (fd : nat) (count : Z) (w' : world) (bytes : string) :
  read w fd count = (w', Some bytes) -> String.length bytes <= Z.to_nat count.
Proof.
  unfold read.
  destruct (find fd (w_fds w)) as [[[u m e | u m size data | u t | u m] pos]|];
    try discriminate.
  destruct (w_reads w) as [|[|k] script]; try discriminate;
    intros [= _ <-].
  - apply take_length_le.
  - etransitivity; [apply take_length_le | apply Nat.le_min_l].
Qed.

(** The fuel of [slurp_loop] is never used up: any amount from [to_read]
    on gives the same result. *)
Lemma slurp_loop_fuel (fuel1 : nat) :
  forall (fuel2 : nat) (w : world) (fd : nat) (to_read : Z) (acc : string),
    (0 <= to_read)%Z -> Z.to_nat to_read <= fuel1 -> Z.to_nat to_read <= fuel2 ->
    slurp_loop fuel1 w fd to_read acc = slurp_loop fuel2 w fd to_read acc.
Proof.
  induction fuel1 as [|fuel1 IH]; intros fuel2 w fd to_read acc H0 H1 H2.
  - assert (to_read = 0%Z) as -> by lia. now destruct fuel2.
  - destruct fuel2 as [|fuel2].
    + assert (to_read = 0%Z) as -> by lia. reflexivity.
    + cbn [slurp_loop].
      destruct (to_read =? 0)%Z eqn:E; [reflexivity |].
      apply Z.eqb_neq in E.
      destruct (read w fd to_read) as [w' [bytes|]] eqn:Hr; [| reflexivity].
      apply read_length in Hr.
      destruct (Z.of_nat (String.length bytes) =? 0)%Z eqn:Eb; [reflexivity |].
      apply Z.eqb_neq in Eb.
      apply IH; lia.
Qed.

Lemma slurp_loop_reading (fuel : nat) :
  forall (w : world) (fd : nat) (f : ofile) (F : list (nat * ofile))
         (script : list read_outcome) (to_read : Z) (acc : string),
  exists f' script',
    fst (slurp_loop fuel (reading w fd f F script) fd to_read acc)
    = reading w fd f' F script'.
Proof.
  induction fuel as [|fuel IH]; intros w fd f F script to_read acc;
    cbn [slurp_loop]; destruct (to_read =? 0)%Z;
    try (exists f, script; reflexivity).
  destruct (read_reading w fd f F script to_read) as (f1 & s1 & Hr).
  destruct (read (reading w fd f F script) fd to_read) as [w1 [bytes|]];
    cbn [fst] in Hr; subst w1; [| now exists f1, s1].
  destruct (Z.of_nat (String.length bytes) =? 0)%Z; [now exists f1, s1 |].
  apply IH.
Qed.

(** What [slurp] leaves behind: on failure the heap is as it was; on
    success it holds the buffer, which is the block allocated last. *)
Lemma slurp_world (w : world) (fd : nat) (f : ofile) (F : list (nat * ofile))
    (to_read : Z) :
  w_fds w = (fd, f) :: F ->
  forall w' r dst,
    slurp w fd to_read = (w', r, dst) ->
    exists f' script' np,
      match dst with
      | None =>
          r <> PAM_SUCCESS /\
          w' = reading (with_heap (w_heap w) np (w_mem w) w) fd f' F script'
      | Some (buffer, bytes) =>
          r = PAM_SUCCESS /\ buffer = w_next_ptr w /\
          exists size,
            w' = reading (with_heap ((buffer, size) :: w_heap w) np (w_mem w - size) w)
                   fd f' F script'
      end.
Proof.
  intros Hfds w' r dst. unfold slurp.
  assert (Hw : w = reading (with_heap (w_heap w) (w_next_ptr w) (w_mem w) w)
                     fd f F (w_reads w)).
  { rewrite (reading_eta w fd f F Hfds) at 1. now destruct w. }
  destruct (to_read >? CFG_MAX_FILE_SIZE)%Z.
  { intros [= <- <- <-]. exists f, (w_reads w), (w_next_ptr w).
    split; [discriminate | exact Hw]. }
  unfold malloc.
  set (size := ((to_read + 1) mod (SIZE_MAX + 1))%Z).
  destruct (size <=? w_mem w)%Z.
  2:{ intros [= <- <- <-]. exists f, (w_reads w), (w_next_ptr w).
      split; [discriminate | exact Hw]. }
  set (w1 := with_heap _ _ _ w).
  assert (Hw1 : w1 = reading w1 fd f F (w_reads w))
    by exact (reading_eta w1 fd f F Hfds).
  rewrite Hw1.
  destruct (slurp_loop_reading (Z.to_nat to_read) w1 fd f F (w_reads w) to_read "")
    as (f' & script' & Hl).
  destruct (slurp_loop _ _ fd to_read "") as [w2 [bytes|]]; cbn [fst] in Hl; subst w2.
  - intros [= <- <- <-]. exists f', script', (S (w_next_ptr w)).
    split; [reflexivity |]. split; [reflexivity |]. now exists size.
  - intros [= <- <- <-]. exists f', script', (S (w_next_ptr w)).
    split; [discriminate |].
    subst w1. unfold free, reading. cbn [w_heap with_heap with_fds with_reads].
    rewrite !Nat.eqb_refl.
    unfold with_heap, with_fds, with_reads; cbn. f_equal. lia.
Qed.

(** *** [cfg_load_defaults] *)

Lemma frame_sink_state (w w' : world) : frame w w' -> sink_state w' = sink_state w.
Proof.
  intros (_ & _ & _ & H1 & H2 & H3 & _). unfold sink_state. now rewrite H1, H2, H3.
Qed.

Lemma set_get_defaults_buffer (c : cfg_t) : set_defaults_buffer (defaults_buffer c) c = c.
Proof. destruct c; reflexivity. Qed.

Lemma close_reading (w : world) (fd : nat) (f : ofile) (F : list (nat * ofile))
    (script : list read_outcome) :
  close (reading w fd f F script) fd = with_reads script (with_fds F (w_next_fd w) w).
Proof.
  unfold close, reading. cbn [w_fds with_reads with_fds w_next_fd].
  now rewrite find_head, remove_head.
Qed.

Lemma cfg_load_defaults_failed (w : world) (cfg : cfg_t) (config_path : option string) :
  forall w' r cfg',
    cfg_load_defaults w cfg config_path
    = (w', r, cfg') ->
    r <> PAM_SUCCESS ->
    cfg' = cfg /\ frame w w' /\ w_fds w' = w_fds w.
Proof.
  intros w' r cfg'. unfold cfg_load_defaults.
  set (path := match config_path with Some p => p | None => CFG_DEFAULT_PATH end).
  destruct (open_safely w path) as [[[w1 r1] fd] fsize] eqn:Ho.
  apply open_safely_world in Ho as [Hf Hfd].
  destruct (is_success r1) eqn:Hr1; cbn [negb].
  2:{ intros [= <- <- <-] _. destruct fd as [fd|].
      - destruct Hfd as [-> _]; discriminate.
      - auto. }
  destruct fd as [fd|].
  2:{ intros [= <- <- <-] _. auto. }
  destruct Hfd as (_ & f & Hfd).
  destruct (fsize =? 0)%Z; [intros [= <- <- <-] Hr; now elim Hr |].
  destruct (slurp w1 fd fsize) as [[w2 r2] dst] eqn:Hs.
  destruct (slurp_world w1 fd _ _ fsize Hfd _ _ _ Hs) as (f' & script' & np & H).
  destruct dst as [[buffer bytes]|].
  - destruct H as (-> & _). cbn [is_success negb].
    destruct (cfg_load_buffer _ _ _); intros [= <- <- <-] Hr; now elim Hr.
  - destruct H as (Hr2 & ->).
    replace (negb (is_success r2)) with true by (now destruct r2).
    intros [= <- <- <-] _. cbn [free]. rewrite close_reading.
    split; [reflexivity |].
    split; [| reflexivity].
    eapply frame_trans; [exact Hf |]. repeat split.
Qed.

End Resources.

(** Splits on the next test of [cfg_load_arg]. *)
Ltac split_test :=
  match goal with
  | |- context [if strcmp_eq ?a ?l then _ else _] => destruct (strcmp_eq a l) eqn:?
  | |- context [if strncmp_eq ?a ?l then _ else _] => destruct (strncmp_eq a l) eqn:?
  end.

(** Runs [tac] on each branch of [cfg_load_arg] and [cfg_load_arg_debug],
    in the order of the tests, also where the tests stand under binders. *)
Ltac on_branches arg tac :=
  destruct (strncmp_eq arg "max_devices=") eqn:?; [tac |];
  destruct (strcmp_eq arg "manual") eqn:?; [tac |];
  destruct (strcmp_eq arg "nouserok") eqn:?; [tac |];
  destruct (strcmp_eq arg "openasuser") eqn:?; [tac |];
  destruct (strcmp_eq arg "alwaysok") eqn:?; [tac |];
  destruct (strcmp_eq arg "interactive") eqn:?; [tac |];
  destruct (strcmp_eq arg "cue") eqn:?; [tac |];
  destruct (strcmp_eq arg "nodetect") eqn:?; [tac |];
  destruct (strcmp_eq arg "expand") eqn:?; [tac |];
  destruct (strncmp_eq arg "userpresence=") eqn:?; [tac |];
  destruct (strncmp_eq arg "userverification=") eqn:?; [tac |];
  destruct (strncmp_eq arg "pinverification=") eqn:?; [tac |];
  destruct (strncmp_eq arg "authfile=") eqn:?; [tac |];
  destruct (strcmp_eq arg "sshformat") eqn:?; [tac |];
  destruct (strncmp_eq arg "authpending_file=") eqn:?; [tac |];
  destruct (strncmp_eq arg "origin=") eqn:?; [tac |];
  destruct (strncmp_eq arg "appid=") eqn:?; [tac |];
  destruct (strncmp_eq arg "prompt=") eqn:?; [tac |];
  destruct (strncmp_eq arg "cue_prompt=") eqn:?; [tac |];
  destruct (strcmp_eq arg "debug") eqn:?; [tac |];
  destruct (strncmp_eq arg "debug_file=") eqn:?; [tac | tac].

(** ** The debug sink *)

Section Sinks.

Lemma sink_frame_refl (w : world) : sink_frame w w.
Proof. unfold sink_frame. now destruct w. Qed.

Lemma sink_frame_trans (w1 w2 w3 : world) :
  sink_frame w1 w2 -> sink_frame w2 w3 -> sink_frame w1 w3.
Proof. unfold sink_frame. intros H12 H23. rewrite H23 at 1. now rewrite H12. Qed.

Lemma sink_frame_debug_close (w : world) (h : sink) : sink_frame w (debug_close w h).
Proof. destruct h; reflexivity. Qed.

Lemma sink_frame_debug_open (w : world) (path : string) :
  sink_frame w (fst (debug_open w path)).
Proof. reflexivity. Qed.

Lemma sink_frame_debug_dump (w : world) (cfg : cfg_t) (flags : Z) (argv : list string) :
  sink_frame w (debug_dump w cfg flags argv).
Proof. reflexivity. Qed.

Lemma sink_frame_frame (w w' : world) :
  sink_frame w w' ->
  w_root w' = w_root w /\ w_fds w' = w_fds w /\ w_heap w' = w_heap w
  /\ w_mem w' = w_mem w /\ w_fault w' = w_fault w.
Proof. intros ->. repeat split. Qed.

Lemma cfg_load_arg_debug_frame (w : world) (cfg : cfg_t) (arg : string) :
  sink_frame w (fst (cfg_load_arg_debug w cfg arg)).
Proof.
  unfold cfg_load_arg_debug.
  repeat split_test; cbn [fst]; try apply sink_frame_refl.
  eapply sink_frame_trans; [apply sink_frame_debug_close | reflexivity].
Qed.

Lemma cfg_load_arg_frame (w : world) (cfg : cfg_t) (arg : string) :
  sink_frame w (fst (cfg_load_arg w cfg arg)).
Proof.
  unfold cfg_load_arg.
  repeat split_test; cbn [fst]; try apply sink_frame_refl.
  apply cfg_load_arg_debug_frame.
Qed.

Lemma cfg_load_lines_frame (lines : list string) :
  forall (w : world) (cfg : cfg_t), sink_frame w (fst (cfg_load_lines w cfg lines)).
Proof.
  induction lines as [|buf lines IH]; intros w cfg; cbn [cfg_load_lines].
  - apply sink_frame_refl.
  - destruct (line_token buf) as [arg|]; [| apply IH].
    pose proof (cfg_load_arg_frame w cfg arg) as H.
    destruct (cfg_load_arg w cfg arg) as [w1 cfg1].
    eapply sink_frame_trans; [exact H | apply IH].
Qed.

Lemma early_scan_frame (argv : list string) :
  forall (w : world) (cfg : cfg_t) (config_path : option string),
    sink_frame w (fst (fst (early_scan w cfg config_path argv))).
Proof.
  induction argv as [|arg argv IH]; intros w cfg cp; cbn [early_scan].
  - apply sink_frame_refl.
  - destruct (strncmp_eq arg "conf="); [apply IH |].
    pose proof (cfg_load_arg_debug_frame w cfg arg) as H.
    destruct (cfg_load_arg_debug w cfg arg) as [w1 cfg1].
    eapply sink_frame_trans; [exact H | apply IH].
Qed.

Lemma full_scan_frame (argv : list string) :
  forall (w : world) (cfg : cfg_t), sink_frame w (fst (full_scan w cfg argv)).
Proof.
  induction argv as [|arg argv IH]; intros w cfg; cbn [full_scan].
  - apply sink_frame_refl.
  - destruct (strncmp_eq arg "conf="); [apply IH |].
    pose proof (cfg_load_arg_frame w cfg arg) as H.
    destruct (cfg_load_arg w cfg arg) as [w1 cfg1].
    eapply sink_frame_trans; [exact H | apply IH].
Qed.

Lemma debug_close_held (w : world) (h : sink) (S0 : list nat) :
  w_sinks w = (held h ++ S0)%list -> w_sinks (debug_close w h) = S0.
Proof.
  destruct h as [| | id]; cbn [held app debug_close w_sinks with_sinks]; intros ->;
    try reflexivity.
  cbn [remove_id]. now rewrite Nat.eqb_refl.
Qed.

(** One application of the debug subset to a [debug_file=] token: the sink
    held is closed, then the new one is opened and stored. *)
Lemma cfg_load_arg_debug_replaces (w : world) (cfg : cfg_t) (arg : string) :
  is_debug_file arg = true ->
  cfg_load_arg_debug w cfg arg =
  (fst (debug_open (debug_close w (debug_file cfg))
          (skip (String.length "debug_file=") arg)),
   set_debug_file (FileSink (w_next_sink w)) cfg).
Proof.
  intros H. unfold cfg_load_arg_debug.
  unfold is_debug_file in H. rewrite H.
  destruct (strcmp_eq arg "debug") eqn:E.
  { apply String.eqb_eq in E; subst arg; discriminate H. }
  destruct (debug_file cfg); reflexivity.
Qed.

Lemma cfg_load_arg_debug_keeps (w : world) (cfg : cfg_t) (arg : string) :
  is_debug_file arg = false ->
  fst (cfg_load_arg_debug w cfg arg) = w
  /\ debug_file (snd (cfg_load_arg_debug w cfg arg)) = debug_file cfg.
Proof.
  intros H. unfold cfg_load_arg_debug.
  unfold is_debug_file in H. rewrite H.
  destruct (strcmp_eq arg "debug"); split; reflexivity.
Qed.

Lemma cfg_load_arg_replaces (w : world) (cfg : cfg_t) (arg : string) :
  is_debug_file arg = true ->
  cfg_load_arg w cfg arg = cfg_load_arg_debug w cfg arg.
Proof.
  intros H. unfold is_debug_file, strncmp_eq in H.
  apply starts_with_ex in H as [rest ->].
  reflexivity.
Qed.

Lemma cfg_load_arg_keeps (w : world) (cfg : cfg_t) (arg : string) :
  is_debug_file arg = false ->
  fst (cfg_load_arg w cfg arg) = w
  /\ debug_file (snd (cfg_load_arg w cfg arg)) = debug_file cfg.
Proof.
  intros H. unfold cfg_load_arg.
  repeat split_test; try (split; reflexivity).
  now apply cfg_load_arg_debug_keeps.
Qed.

(** The effect of one token on the sinks held, on the number of sinks
    opened, and on the retained buffer. *)
Lemma cfg_load_arg_debug_sinks (w : world) (cfg : cfg_t) (arg : string) (S0 : list nat) :
  w_sinks w = (held (debug_file cfg) ++ S0)%list ->
  let (w', cfg') := cfg_load_arg_debug w cfg arg in
  w_sinks w' = (held (debug_file cfg') ++ S0)%list
  /\ sink_opens (w_log w') =
     sink_opens (w_log w) + (if is_debug_file arg then 1 else 0)
  /\ defaults_buffer cfg' = defaults_buffer cfg.
Proof.
  intros Hs.
  destruct (is_debug_file arg) eqn:E.
  - rewrite (cfg_load_arg_debug_replaces w cfg arg E).
    cbn [debug_open fst w_sinks w_log with_sinks debug_file set_debug_file held app].
    rewrite (debug_close_held w _ S0 Hs).
    split; [| split]; [| | reflexivity].
    + now destruct (debug_file cfg).
    + cbn [sink_opens]. destruct (debug_file cfg); cbn; lia.
  - destruct (cfg_load_arg_debug_keeps w cfg arg E) as [Hw Hc].
    destruct (cfg_load_arg_debug w cfg arg) as [w' cfg'] eqn:Hr.
    cbn [fst snd] in *. subst w'. rewrite Hc.
    split; [exact Hs | split; [lia |]].
    unfold cfg_load_arg_debug in Hr.
    destruct (strcmp_eq arg "debug"); [now injection Hr as <- |].
    unfold is_debug_file in E. rewrite E in Hr. now injection Hr as <-.
Qed.

Lemma cfg_load_arg_sinks (w : world) (cfg : cfg_t) (arg : string) (S0 : list nat) :
  w_sinks w = (held (debug_file cfg) ++ S0)%list ->
  let (w', cfg') := cfg_load_arg w cfg arg in
  w_sinks w' = (held (debug_file cfg') ++ S0)%list
  /\ sink_opens (w_log w') =
     sink_opens (w_log w) + (if is_debug_file arg then 1 else 0)
  /\ defaults_buffer cfg' = defaults_buffer cfg.
Proof.
  intros Hs.
  destruct (is_debug_file arg) eqn:E.
  - rewrite (cfg_load_arg_replaces w cfg arg E).
    pose proof (cfg_load_arg_debug_sinks w cfg arg S0 Hs) as H.
    now rewrite E in H.
  - destruct (cfg_load_arg_keeps w cfg arg E) as [Hw Hc].
    destruct (cfg_load_arg w cfg arg) as [w' cfg'] eqn:Hr.
    cbn [fst snd] in *. subst w'. rewrite Hc.
    split; [exact Hs | split; [lia |]].
    unfold cfg_load_arg in Hr.
    repeat (match type of Hr with
            | (if ?c then _ else _) = _ => destruct c
            end; [now injection Hr as <- |]).
    pose proof (cfg_load_arg_debug_sinks w cfg arg S0 Hs) as H.
    rewrite Hr in H. apply H.
Qed.

Lemma early_scan_sinks (argv : list string) :
  forall (w : world) (cfg : cfg_t) (config_path : option string) (S0 : list nat),
    w_sinks w = (held (debug_file cfg) ++ S0)%list ->
    let '(w', cfg', _) := early_scan w cfg config_path argv in
    w_sinks w' = (held (debug_file cfg') ++ S0)%list
    /\ sink_opens (w_log w') = sink_opens (w_log w) + count_debug_file argv
    /\ defaults_buffer cfg' = defaults_buffer cfg.
Proof.
  induction argv as [|arg argv IH]; intros w cfg cp S0 Hs; cbn [early_scan].
  - split; [exact Hs | split; [cbn; lia | reflexivity]].
  - unfold count_debug_file. cbn [List.filter].
    destruct (strncmp_eq arg "conf=") eqn:Ec.
    + assert (is_debug_file arg = false) as ->.
      { unfold strncmp_eq in Ec. apply starts_with_ex in Ec as [rest ->].
        reflexivity. }
      apply (IH w cfg _ S0 Hs).
    + pose proof (cfg_load_arg_debug_sinks w cfg arg S0 Hs) as H.
      destruct (cfg_load_arg_debug w cfg arg) as [w1 cfg1].
      destruct H as (H1 & H2 & H3).
      specialize (IH w1 cfg1 cp S0 H1).
      destruct (early_scan w1 cfg1 cp argv) as [[w2 cfg2] cp2].
      destruct IH as (I1 & I2 & I3).
      split; [exact I1 | split; [| congruence]].
      rewrite I2, H2. unfold count_debug_file.
      destruct (is_debug_file arg); cbn [List.length]; lia.
Qed.

Lemma full_scan_sinks (argv : list string) :
  forall (w : world) (cfg : cfg_t) (S0 : list nat),
    w_sinks w = (held (debug_file cfg) ++ S0)%list ->
    let (w', cfg') := full_scan w cfg argv in
    w_sinks w' = (held (debug_file cfg') ++ S0)%list
    /\ sink_opens (w_log w') = sink_opens (w_log w) + count_debug_file argv
    /\ defaults_buffer cfg' = defaults_buffer cfg.
Proof.
  induction argv as [|arg argv IH]; intros w cfg S0 Hs; cbn [full_scan].
  - split; [exact Hs | split; [cbn; lia | reflexivity]].
  - unfold count_debug_file. cbn [List.filter].
    destruct (strncmp_eq arg "conf=") eqn:Ec.
    + assert (is_debug_file arg = false) as ->.
      { unfold strncmp_eq in Ec. apply starts_with_ex in Ec as [rest ->].
        reflexivity. }
      apply (IH w cfg S0 Hs).
    + pose proof (cfg_load_arg_sinks w cfg arg S0 Hs) as H.
      destruct (cfg_load_arg w cfg arg) as [w1 cfg1].
      destruct H as (H1 & H2 & H3).
      specialize (IH w1 cfg1 S0 H1).
      destruct (full_scan w1 cfg1 argv) as [w2 cfg2].
      destruct IH as (I1 & I2 & I3).
      split; [exact I1 | split; [| congruence]].
      rewrite I2, H2. unfold count_debug_file.
      destruct (is_debug_file arg); cbn [List.length]; lia.
Qed.

Lemma cfg_load_lines_sinks (lines : list string) :
  forall (w : world) (cfg : cfg_t) (S0 : list nat),
    w_sinks w = (held (debug_file cfg) ++ S0)%list ->
    let (w', cfg') := cfg_load_lines w cfg lines in
    w_sinks w' = (held (debug_file cfg') ++ S0)%list
    /\ sink_opens (w_log w') =
       sink_opens (w_log w) + count_debug_file (line_tokens lines)
    /\ defaults_buffer cfg' = defaults_buffer cfg.
Proof.
  induction lines as [|buf lines IH]; intros w cfg S0 Hs;
    cbn [cfg_load_lines line_tokens].
  - split; [exact Hs | split; [cbn; lia | reflexivity]].
  - destruct (line_token buf) as [arg|]; [| apply (IH w cfg S0 Hs)].
    pose proof (cfg_load_arg_sinks w cfg arg S0 Hs) as H.
    destruct (cfg_load_arg w cfg arg) as [w1 cfg1].
    destruct H as (H1 & H2 & H3).
    specialize (IH w1 cfg1 S0 H1).
    destruct (cfg_load_lines w1 cfg1 lines) as [w2 cfg2].
    destruct IH as (I1 & I2 & I3).
    split; [exact I1 | split; [| congruence]].
    rewrite I2, H2. unfold count_debug_file. cbn [List.filter].
    destruct (is_debug_file arg); cbn [List.length]; lia.
Qed.

End Sinks.

(** ** The tri-state fields *)

Section TriState.

Local Open Scope Z_scope.

Lemma assigned_by_incl (toks toks' : list string) (lit : string) (v : Z) :
  incl toks toks' -> assigned_by toks lit v -> assigned_by toks' lit v.
Proof. intros Hi (tok & Hin & Hs). exists tok; split; [apply Hi, Hin | exact Hs]. Qed.

Lemma tristate_ok_incl (toks toks' : list string) (cfg : cfg_t) :
  incl toks toks' -> tristate_ok toks cfg -> tristate_ok toks' cfg.
Proof.
  intros Hi (H1 & H2 & H3).
  repeat split;
    match goal with
    | H : _ \/ _ |- _ = -1 \/ assigned_by _ ?l _ =>
        match type of H with
        | context [l] =>
            destruct H as [H | H]; [left; exact H | right; exact (assigned_by_incl _ _ _ _ Hi H)]
        end
    end.
Qed.

Lemma tristate_ok_same (toks : list string) (cfg cfg' : cfg_t) :
  tristate cfg' = tristate cfg -> tristate_ok toks cfg -> tristate_ok toks cfg'.
Proof.
  unfold tristate, tristate_ok. intros [= H1 H2 H3]. now rewrite H1, H2, H3.
Qed.

Lemma tristate_ok_reset (cfg : cfg_t) : tristate_ok [] (cfg_reset cfg).
Proof. repeat split; now left. Qed.

Lemma cfg_load_arg_debug_tristate (w : world) (cfg : cfg_t) (arg : string) :
  tristate (snd (cfg_load_arg_debug w cfg arg)) = tristate cfg.
Proof. unfold cfg_load_arg_debug. repeat split_test; reflexivity. Qed.

Lemma stored_assigned (toks : list string) (arg lit : string) (old : Z) :
  old = -1 \/ assigned_by toks lit old ->
  stored (sscanf_d arg lit) old = -1
  \/ assigned_by (arg :: toks) lit (stored (sscanf_d arg lit) old).
Proof.
  intros H. destruct (sscanf_d arg lit) as [v|] eqn:E; cbn [stored].
  - right. exists arg. split; [now left | exact E].
  - destruct H as [H | H]; [now left | right].
    apply (assigned_by_incl toks); [apply incl_tl, incl_refl | exact H].
Qed.

Lemma cfg_load_arg_tristate (w : world) (cfg : cfg_t) (arg : string) (toks : list string) :
  tristate_ok toks cfg -> tristate_ok (arg :: toks) (snd (cfg_load_arg w cfg arg)).
Proof.
  intros H.
  assert (Hm : tristate_ok (arg :: toks) cfg)
    by (apply (tristate_ok_incl toks); [apply incl_tl, incl_refl | exact H]).
  destruct H as (H1 & H2 & H3), Hm as (M1 & M2 & M3).
  unfold cfg_load_arg.
  repeat split_test; cbn [snd];
    first
      [ now (apply (tristate_ok_same _ cfg); [reflexivity | repeat split])
      | now (apply (tristate_ok_same _ cfg);
             [apply cfg_load_arg_debug_tristate | repeat split])
      | split; [apply stored_assigned, H1 | split; [exact M2 | exact M3]]
      | split; [exact M1 | split; [apply stored_assigned, H2 | exact M3]]
      | split; [exact M1 | split; [exact M2 | apply stored_assigned, H3]] ].
Qed.

Lemma cfg_load_lines_tristate (lines : list string) :
  forall (w : world) (cfg : cfg_t) (toks : list string),
    tristate_ok toks cfg ->
    tristate_ok (line_tokens lines ++ toks)%list (snd (cfg_load_lines w cfg lines)).
Proof.
  induction lines as [|buf lines IH]; intros w cfg toks H;
    cbn [cfg_load_lines line_tokens]; [exact H |].
  destruct (line_token buf) as [arg|]; [| now apply IH].
  pose proof (cfg_load_arg_tristate w cfg arg toks H) as H1.
  destruct (cfg_load_arg w cfg arg) as [w1 cfg1]. cbn [snd] in H1.
  apply (tristate_ok_incl (line_tokens lines ++ arg :: toks)%list).
  - intros x Hx. apply in_app_or in Hx as [Hx | [<- | Hx]].
    + right. apply in_or_app. now left.
    + now left.
    + right. apply in_or_app. now right.
  - now apply IH.
Qed.

Lemma early_scan_tristate (argv : list string) :
  forall (w : world) (cfg : cfg_t) (config_path : option string),
    tristate (snd (fst (early_scan w cfg config_path argv))) = tristate cfg.
Proof.
  induction argv as [|arg argv IH]; intros w cfg cp; cbn [early_scan];
    [reflexivity |].
  destruct (strncmp_eq arg "conf="); [apply IH |].
  pose proof (cfg_load_arg_debug_tristate w cfg arg) as H.
  destruct (cfg_load_arg_debug w cfg arg) as [w1 cfg1]. cbn [snd] in H.
  now rewrite IH.
Qed.

Lemma full_scan_tristate (argv : list string) :
  forall (w : world) (cfg : cfg_t) (toks : list string),
    tristate_ok toks cfg ->
    tristate_ok (argv ++ toks)%list (snd (full_scan w cfg argv)).
Proof.
  induction argv as [|arg argv IH]; intros w cfg toks H; cbn [full_scan];
    [exact H |].
  destruct (strncmp_eq arg "conf=").
  - apply (tristate_ok_incl (argv ++ toks)%list); [| now apply IH].
    apply incl_tl, incl_refl.
  - pose proof (cfg_load_arg_tristate w cfg arg toks H) as H1.
    destruct (cfg_load_arg w cfg arg) as [w1 cfg1]. cbn [snd] in H1.
    apply (tristate_ok_incl (argv ++ arg :: toks)%list); [| now apply IH].
    intros x Hx. apply in_app_or in Hx as [Hx | [<- | Hx]].
    + right. apply in_or_app. now left.
    + now left.
    + right. apply in_or_app. now right.
Qed.

End TriState.

(** ** Precedence: arguments over the file *)

Section Precedence.





Lemma full_scan_app (pre post : list string) :
  forall w cfg,
    full_scan w cfg (pre ++ post)%list =
    let (w1, c1) := full_scan w cfg pre in full_scan w1 c1 post.
Proof.
  induction pre as [|a pre IH]; intros w cfg; cbn [full_scan app]; [reflexivity |].
  destruct (strncmp_eq a "conf="); [apply IH |].
  destruct (cfg_load_arg w cfg a). apply IH.
Qed.


(** *** The path of the configuration file *)

Lemma early_scan_path (argv : list string) :
  forall w cfg config_path,
    snd (early_scan w cfg config_path argv) =
    match last_conf argv with
    | Some p => Some p
    | None => config_path
    end.
Proof.
  induction argv as [|arg argv IH]; intros w cfg cp; cbn [early_scan last_conf];
    [reflexivity |].
  unfold is_conf. destruct (strncmp_eq arg "conf=").
  - rewrite IH. now destruct (last_conf argv).
  - destruct (cfg_load_arg_debug w cfg arg) as [w1 c1].
    rewrite IH. now destruct (last_conf argv).
Qed.

Lemma early_scan_path_irrelevant (argv : list string) :
  forall w cfg cp cp',
    fst (early_scan w cfg cp argv) = fst (early_scan w cfg cp' argv).
Proof.
  induction argv as [|arg argv IH]; intros w cfg cp cp'; cbn [early_scan];
    [reflexivity |].
  destruct (strncmp_eq arg "conf="); [apply IH |].
  destruct (cfg_load_arg_debug w cfg arg). apply IH.
Qed.

Lemma last_conf_drop (argv : list string) :
  last_conf (drop_earlier_conf argv) = last_conf argv.
Proof.
  induction argv as [|arg argv IH]; cbn [drop_earlier_conf last_conf];
    [reflexivity |].
  destruct (is_conf arg) eqn:Ec, (last_conf argv) as [p|] eqn:El;
    cbn [last_conf]; rewrite IH, ?Ec; reflexivity.
Qed.

Lemma early_scan_drop (argv : list string) :
  forall w cfg cp,
    early_scan w cfg cp (drop_earlier_conf argv) = early_scan w cfg cp argv.
Proof.
  induction argv as [|arg argv IH]; intros w cfg cp;
    cbn [drop_earlier_conf]; [reflexivity |].
  destruct (is_conf arg) eqn:Ec, (last_conf argv) as [p|] eqn:El;
    cbn [early_scan]; unfold is_conf in Ec; rewrite ?Ec; try apply IH.
  - rewrite IH.
    rewrite (surjective_pairing (early_scan w cfg cp argv)).
    rewrite (surjective_pairing (early_scan w cfg (Some _) argv)).
    rewrite !early_scan_path, El.
    now rewrite (early_scan_path_irrelevant argv w cfg cp (Some (skip 5 arg))).
  - destruct (cfg_load_arg_debug w cfg arg). apply IH.
  - destruct (cfg_load_arg_debug w cfg arg). apply IH.
Qed.

Lemma full_scan_drop (argv : list string) :
  forall w cfg, full_scan w cfg (drop_earlier_conf argv) = full_scan w cfg argv.
Proof.
  induction argv as [|arg argv IH]; intros w cfg;
    cbn [drop_earlier_conf]; [reflexivity |].
  destruct (is_conf arg) eqn:Ec, (last_conf argv) as [p|] eqn:El;
    cbn [full_scan]; unfold is_conf in Ec; rewrite ?Ec; try apply IH.
  - destruct (cfg_load_arg w cfg arg). apply IH.
  - destruct (cfg_load_arg w cfg arg). apply IH.
Qed.

End Precedence.

(** ** Loading: [cfg_load_defaults] and [cfg_init] *)

Section Loading.

Lemma sink_state_close (w : world) (fd : nat) : sink_state (close w fd) = sink_state w.
Proof. unfold close. now destruct (find fd (w_fds w)). Qed.

(** A load that succeeds has applied the tokens of [config_text], and
    nothing else, to the record. *)
Lemma cfg_load_defaults_loaded (w : world) (cfg : cfg_t) (config_path : option string) :
  forall w' cfg',
    cfg_load_defaults w cfg config_path = (w', PAM_SUCCESS, cfg') ->
    exists wx b,
      sink_state wx = sink_state w
      /\ cfg' = set_defaults_buffer b
                  (snd (cfg_load_buffer wx cfg (config_text w config_path)))
      /\ sink_state w' =
         sink_state (fst (cfg_load_buffer wx cfg (config_text w config_path))).
Proof.
  intros w' cfg'. unfold cfg_load_defaults, config_text.
  set (path := match config_path with Some p => p | None => CFG_DEFAULT_PATH end).
  destruct (open_safely w path) as [[[w1 r1] fd] fsize] eqn:Ho.
  apply open_safely_world in Ho as [Hf Hfd].
  apply frame_sink_state in Hf.
  assert (Hnone : forall wa, sink_state wa = sink_state w1 ->
            exists wx b,
              sink_state wx = sink_state w
              /\ cfg = set_defaults_buffer b (snd (cfg_load_buffer wx cfg ""))
              /\ sink_state wa = sink_state (fst (cfg_load_buffer wx cfg ""))).
  { intros wa Hwa. exists w1, (defaults_buffer cfg).
    split; [exact Hf |]. split; [symmetry; apply set_get_defaults_buffer | exact Hwa]. }
  destruct (is_success r1) eqn:Hr1; cbn [negb andb].
  2:{ intros [= <- -> <-]. discriminate Hr1. }
  destruct fd as [fd|].
  2:{ destruct config_path; intros [= <- <-]. now apply Hnone. }
  destruct Hfd as (_ & f & Hfd).
  destruct (fsize =? 0)%Z; cbn [negb].
  { intros [= <- <-]. apply Hnone, sink_state_close. }
  destruct (slurp w1 fd fsize) as [[w2 r2] dst] eqn:Hs.
  destruct (slurp_world w1 fd _ _ fsize Hfd _ _ _ Hs)
    as (f' & script' & np & H).
  destruct dst as [[buffer bytes]|].
  - destruct H as (-> & _ & size & ->). cbn [is_success negb].
    set (w2 := reading _ _ _ _ _).
    destruct (cfg_load_buffer w2 cfg (c_str bytes)) as [w3 cfg3] eqn:Hl.
    intros [= <- <-]. exists w2, (Some buffer).
    rewrite Hl. cbn [fst snd free].
    split; [exact Hf |]. split; [reflexivity | apply sink_state_close].
  - destruct H as (Hr2 & _).
    replace (negb (is_success r2)) with true by (now destruct r2).
    intros [= <- -> <-]. now elim Hr2.
Qed.

Lemma cfg_load_buffer_empty (w : world) (cfg : cfg_t) : cfg_load_buffer w cfg "" = (w, cfg).
Proof. reflexivity. Qed.

(** *** [cfg_init] *)

(** The phases of [cfg_init], one after the other. *)
Lemma cfg_init_phases (w : world) (cfg : cfg_t) (flags : Z) (argv : list string) :
  forall w1 cfg1 cp w2 r cfg2,
    early_scan w (cfg_reset cfg) None argv = (w1, cfg1, cp) ->
    cfg_load_defaults w1 cfg1 cp = (w2, r, cfg2) ->
    cfg_init w cfg flags argv =
    if is_success r then
      let (w3, cfg3) := full_scan w2 cfg2 argv in
      (if negb (debug cfg3 =? 0)%Z then debug_dump w3 cfg3 flags argv else w3,
       r, cfg3)
    else
      let w3 := if negb (debug cfg2 =? 0)%Z then debug_dump w2 cfg2 flags argv
                else w2 in
      let (w4, cfg4) := cfg_free w3 cfg2 in (w4, r, cfg4).
Proof.
  intros w1 cfg1 cp w2 r cfg2 H1 H2. unfold cfg_init.
  rewrite H1, H2.
  destruct (is_success r); cbn [negb]; [| reflexivity].
  now destruct (full_scan w2 cfg2 argv).
Qed.

Lemma cfg_reset_constant (cfg cfg' : cfg_t) : cfg_reset cfg = cfg_reset cfg'.
Proof. reflexivity. Qed.

(** A load that fails leaves the record reset and holds nothing it took:
    descriptors, heap and sinks are those of the start. *)
Lemma cfg_init_failed (w : world) (cfg : cfg_t) (flags : Z) (argv : list string) :
  forall w' r cfg',
    cfg_init w cfg flags argv = (w', r, cfg') ->
    r <> PAM_SUCCESS ->
    cfg' = cfg_reset cfg
    /\ w_fds w' = w_fds w /\ w_heap w' = w_heap w /\ w_mem w' = w_mem w
    /\ w_sinks w' = w_sinks w /\ w_fault w' = w_fault w.
Proof.
  intros w' r cfg' H Hr.
  destruct (early_scan w (cfg_reset cfg) None argv) as [[w1 cfg1] cp] eqn:H1.
  destruct (cfg_load_defaults w1 cfg1 cp) as [[w2 r2] cfg2] eqn:H2.
  rewrite (cfg_init_phases w cfg flags argv _ _ _ _ _ _ H1 H2) in H.
  destruct (is_success r2) eqn:Hs.
  { destruct (full_scan w2 cfg2 argv). injection H as _ <- _.
    now destruct r2. }
  assert (Hr2 : r2 <> PAM_SUCCESS) by (now destruct r2).
  pose proof (early_scan_sinks argv w (cfg_reset cfg) None (w_sinks w) eq_refl) as He.
  rewrite H1 in He. destruct He as (He1 & _ & He3).
  pose proof (early_scan_frame argv w (cfg_reset cfg) None) as Hf1.
  rewrite H1 in Hf1. cbn [fst] in Hf1.
  apply sink_frame_frame in Hf1 as (_ & F1 & F2 & F3 & F4).
  destruct (cfg_load_defaults_failed w1 cfg1 cp _ _ _ H2 Hr2)
    as (-> & (_ & G2 & G3 & G4 & _ & _ & G7) & G1).
  set (w3 := if negb (debug cfg1 =? 0)%Z then debug_dump w2 cfg1 flags argv else w2)
    in H.
  assert (Hw3 : sink_frame w2 w3 /\ w_sinks w3 = w_sinks w2).
  { subst w3. destruct (negb _); split;
      try apply sink_frame_refl; reflexivity. }
  destruct Hw3 as [Hf3 Hs3].
  apply sink_frame_frame in Hf3 as (_ & K1 & K2 & K3 & K4).
  unfold cfg_free in H. injection H as <- _ <-.
  rewrite He3. cbn [cfg_reset defaults_buffer set_pinverification
                      set_userverification set_userpresence set_debug_file
                      cfg_zero free].
  split; [reflexivity |].
  pose proof (sink_frame_debug_close w3 (debug_file cfg1)) as Hc.
  apply sink_frame_frame in Hc as (_ & C1 & C2 & C3 & C4).
  repeat split; try congruence.
  apply debug_close_held. congruence.
Qed.

(** [cfg_free]: the sink of the record is closed, its buffer is freed, the
    record is reset. *)
Lemma cfg_free_releases (w : world) (cfg : cfg_t) :
  cfg_free w cfg =
  (free (debug_close w (debug_file cfg)) (defaults_buffer cfg), cfg_reset cfg).
Proof. reflexivity. Qed.

(** Releasing a record that is reset closes the default sink again and
    changes nothing else. *)
Lemma cfg_free_reset (w : world) (cfg : cfg_t) :
  cfg_free w (cfg_reset cfg) =
  (with_sinks (w_sinks w) (w_next_sink w)
     (EvSinkClose DEFAULT_DEBUG_FILE :: w_log w) w,
   cfg_reset cfg).
Proof. reflexivity. Qed.

Lemma sink_opens_debug_dump (w : world) (cfg : cfg_t) (flags : Z) (argv : list string) :
  sink_opens (w_log (debug_dump w cfg flags argv)) = sink_opens (w_log w).
Proof. reflexivity. Qed.

Lemma debug_file_set_defaults_buffer (b : option nat) (cfg : cfg_t) :
  debug_file (set_defaults_buffer b cfg) = debug_file cfg.
Proof. reflexivity. Qed.

(** The sinks a load opens: one for each [debug_file=] argument in the early
    scan, one for each such line of the file, and, when the file phase has
    succeeded, one more for each such argument in the full scan. *)
Lemma cfg_init_sink_opens (w : world) (cfg : cfg_t) (flags : Z) (argv : list string) :
  forall w1 cfg1 cp w' r cfg',
    early_scan w (cfg_reset cfg) None argv = (w1, cfg1, cp) ->
    cfg_init w cfg flags argv = (w', r, cfg') ->
    sink_opens (w_log w') =
    if is_success r then
      sink_opens (w_log w) + 2 * count_debug_file argv
      + count_debug_file (buffer_tokens (config_text w1 cp))
    else sink_opens (w_log w) + count_debug_file argv.
Proof.
  intros w1 cfg1 cp w' r cfg' H1 H.
  destruct (cfg_load_defaults w1 cfg1 cp) as [[w2 r2] cfg2] eqn:H2.
  rewrite (cfg_init_phases w cfg flags argv _ _ _ _ _ _ H1 H2) in H.
  pose proof (early_scan_sinks argv w (cfg_reset cfg) None (w_sinks w) eq_refl) as He.
  rewrite H1 in He. destruct He as (He1 & He2 & _).
  destruct (is_success r2) eqn:Hs.
  - assert (r2 = PAM_SUCCESS) as -> by (now destruct r2).
    destruct (cfg_load_defaults_loaded w1 cfg1 cp _ _ H2)
      as (wx & b & Hx & Hc & Hw2).
    unfold sink_state in Hx, Hw2. injection Hx as Hx1 Hx2 Hx3.
    injection Hw2 as Hy1 Hy2 Hy3.
    assert (Hxs : w_sinks wx = (held (debug_file cfg1) ++ w_sinks w)%list)
      by congruence.
    pose proof (cfg_load_lines_sinks
                  (strtok_all (config_text w1 cp) (String "010" ""))
                  wx cfg1 (w_sinks w) Hxs) as Hl.
    fold (cfg_load_buffer wx cfg1 (config_text w1 cp)) in Hl.
    destruct (cfg_load_buffer wx cfg1 (config_text w1 cp)) as [wl cfgl].
    cbn [fst snd] in *. destruct Hl as (L1 & L2 & _).
    assert (Hs2 : w_sinks w2 = (held (debug_file cfg2) ++ w_sinks w)%list).
    { rewrite Hc, debug_file_set_defaults_buffer. congruence. }
    pose proof (full_scan_sinks argv w2 cfg2 (w_sinks w) Hs2) as Hf.
    destruct (full_scan w2 cfg2 argv) as [w3 cfg3]. destruct Hf as (_ & Hf & _).
    injection H as <- <- _. cbn [is_success].
    assert (Ho : sink_opens (w_log w3) =
                 sink_opens (w_log w) + 2 * count_debug_file argv
                 + count_debug_file (buffer_tokens (config_text w1 cp))).
    { rewrite Hf, Hy3, L2, Hx3, He2. unfold buffer_tokens. lia. }
    now destruct (negb (debug cfg3 =? 0)%Z).
  - assert (Hr2 : r2 <> PAM_SUCCESS) by (now destruct r2).
    destruct (cfg_load_defaults_failed w1 cfg1 cp _ _ _ H2 Hr2)
      as (-> & (_ & _ & _ & _ & _ & G6 & _) & _).
    unfold cfg_free in H. injection H as <- <- _. rewrite Hs.
    assert (Hd : forall wa, sink_opens
                   (w_log (free (debug_close wa (debug_file cfg1))
                             (defaults_buffer cfg1))) = sink_opens (w_log wa)).
    { intros wa. destruct (defaults_buffer cfg1) as [p|]; cbn [free].
      - destruct (find p (w_heap (debug_close wa (debug_file cfg1))));
          now destruct (debug_file cfg1).
      - now destruct (debug_file cfg1). }
    rewrite Hd.
    destruct (negb (debug cfg1 =? 0)%Z);
      rewrite ?sink_opens_debug_dump; congruence.
Qed.

(** After [cfg_init], every tri-state field holds the sentinel or a value
    assigned by an argument or by a line of the file. *)
Lemma cfg_init_tristate (w : world) (cfg : cfg_t) (flags : Z) (argv : list string) :
  forall w1 cfg1 cp w' r cfg',
    early_scan w (cfg_reset cfg) None argv = (w1, cfg1, cp) ->
    cfg_init w cfg flags argv = (w', r, cfg') ->
    tristate_ok (argv ++ buffer_tokens (config_text w1 cp))%list cfg'.
Proof.
  intros w1 cfg1 cp w' r cfg' H1 H.
  destruct (cfg_load_defaults w1 cfg1 cp) as [[w2 r2] cfg2] eqn:H2.
  rewrite (cfg_init_phases w cfg flags argv _ _ _ _ _ _ H1 H2) in H.
  pose proof (early_scan_tristate argv w (cfg_reset cfg) None) as He.
  rewrite H1 in He. cbn [fst snd] in He.
  assert (H0 : tristate_ok [] cfg1)
    by (apply (tristate_ok_same _ (cfg_reset cfg)); [exact He | apply tristate_ok_reset]).
  destruct (is_success r2) eqn:Hs.
  - assert (r2 = PAM_SUCCESS) as -> by (now destruct r2).
    destruct (cfg_load_defaults_loaded w1 cfg1 cp _ _ H2)
      as (wx & b & _ & Hc & _).
    pose proof (cfg_load_lines_tristate
                  (strtok_all (config_text w1 cp) (String "010" ""))
                  wx cfg1 [] H0) as Hl.
    fold (cfg_load_buffer wx cfg1 (config_text w1 cp)) in Hl.
    rewrite app_nil_r in Hl. fold (buffer_tokens (config_text w1 cp)) in Hl.
    assert (H2' : tristate_ok (buffer_tokens (config_text w1 cp)) cfg2).
    { rewrite Hc. eapply tristate_ok_same; [| exact Hl]. reflexivity. }
    pose proof (full_scan_tristate argv w2 cfg2 _ H2') as Hf.
    destruct (full_scan w2 cfg2 argv) as [w3 cfg3].
    injection H as _ _ <-. exact Hf.
  - unfold cfg_free in H. injection H as _ _ <-.
    apply (tristate_ok_incl []); [intros x [] | apply tristate_ok_reset].
Qed.

(** Earlier [conf=] entries change neither the result nor the record. *)
Lemma cfg_init_drop_earlier_conf (w : world) (cfg : cfg_t) (flags : Z)
    (argv : list string) :
  snd (fst (cfg_init w cfg flags (drop_earlier_conf argv)))
  = snd (fst (cfg_init w cfg flags argv))
  /\ snd (cfg_init w cfg flags (drop_earlier_conf argv))
     = snd (cfg_init w cfg flags argv).
Proof.
  unfold cfg_init. rewrite early_scan_drop.
  destruct (early_scan w (cfg_reset cfg) None argv) as [[w1 cfg1] cp].
  destruct (cfg_load_defaults w1 cfg1 cp) as [[w2 r] cfg2].
  destruct (is_success r); cbn [negb].
  - rewrite full_scan_drop. destruct (full_scan w2 cfg2 argv) as [w3 cfg3].
    split; reflexivity.
  - split; reflexivity.
Qed.

End Loading.

(** ** The properties of the loader *)

(** C6. The line normalizer strips the comment at the first [#], trims
    white space and, for a line with [=], splits once at the first one,
    trims both sides and joins them again as [key=value]: the token
    [cfg_load_buffer] gets from a line is the one the specification's
    [normalize] gives, and a line that gives none is skipped. In particular
    ["  foo  =  bar  # note"] gives ["foo=bar"], ["baz"] gives ["baz"] and
    ["# only a comment"] is skipped. *)
Theorem C6_line_normalizer :
  (forall raw, line_token raw = Spec.normalize raw)
  /\ pack "  foo  =  bar  # note" = "foo=bar"
  /\ line_token "  foo  =  bar  # note" = Some "foo=bar"
  /\ line_token "baz" = Some "baz"
  /\ line_token "# only a comment" = None.
Proof.
  split; [exact line_token_normalize |].
  repeat split; reflexivity.
Qed.

(** C7. A token whose key is not recognized, and a token with one of the
    numeric keys ([max_devices], [userpresence], [userverification],
    [pinverification]) whose value does not parse as a number, changes
    nothing: [cfg_load_arg], which reports no error, returns the world and
    the record it was given. *)
Theorem C7_ignored_tokens (w : world) (cfg : cfg_t) (tok : string) :
  Spec.is_in (Spec.token_key tok) Spec.recognized_keys = false
  \/ (Spec.is_in (Spec.token_key tok) Spec.numeric_keys = true
      /\ Spec.parses_as_number (Spec.token_value tok) = false) ->
  cfg_load_arg w cfg tok = (w, cfg).
Proof.
  intros [H | [Hk Hv]].
  - now apply cfg_load_arg_unrecognized.
  - now apply cfg_load_arg_not_a_number.
Qed.

(** C5. For a size above [CFG_MAX_FILE_SIZE], [slurp] fails, and what
    makes it fail is the size limit, a failure of the kind [ResourceError]:
    the test comes before the [malloc], so that the world is returned as
    it was, with no buffer allocated and nothing read. (The code returned
    is [PAM_SERVICE_ERR].) [slurp_failure] names the failing statement of
    [slurp]: it names none exactly when [slurp] returns [PAM_SUCCESS], and
    the codes of the three causes are [PAM_SERVICE_ERR], [PAM_BUF_ERR] and
    [PAM_SYSTEM_ERR]. *)
Theorem C5_oversize_rejected (w : world) (fd : nat) (to_read : Z) :
  (snd (fst (slurp w fd to_read)) =
   match slurp_failure w fd to_read with
   | None => PAM_SUCCESS
   | Some Spec.SizeLimitExceeded => PAM_SERVICE_ERR
   | Some Spec.AllocationFailed => PAM_BUF_ERR
   | Some _ => PAM_SYSTEM_ERR
   end)
  /\ ((to_read > CFG_MAX_FILE_SIZE)%Z ->
      slurp w fd to_read = (w, PAM_SERVICE_ERR, None)
      /\ slurp_failure w fd to_read = Some Spec.SizeLimitExceeded
      /\ Spec.kind_of Spec.SizeLimitExceeded = Spec.ResourceError).
Proof.
  unfold slurp, slurp_failure. split.
  - destruct (to_read >? CFG_MAX_FILE_SIZE)%Z; [reflexivity |].
    destruct (malloc w ((to_read + 1) mod (SIZE_MAX + 1))%Z) as [w1 [buffer|]];
      [| reflexivity].
    now destruct (slurp_loop (Z.to_nat to_read) w1 fd to_read "") as [w2 [bytes|]].
  - intros H.
    replace (to_read >? CFG_MAX_FILE_SIZE)%Z with true
      by (symmetry; apply Z.gtb_lt; lia).
    repeat split.
Qed.

(** C10. With several [conf=PATH] entries among the arguments, the path
    of the last one is the one the file phase loads. The early scan ends
    with that path; [cfg_init] is its file phase, [cfg_load_defaults], run
    on that path, followed by the full scan and the release on failure;
    the file that is opened is the one at that path: a failure of
    [open_safely] on it is the result of [cfg_init], if it is absent the
    result is [PAM_SERVICE_ERR], and a load that succeeds has applied the
    tokens of that file, and then the arguments, to the record of the
    early scan. The entries before the last have no effect on the result
    and the record: [cfg_init] returns the same code and the same record
    when they are left out. *)
Theorem C10_last_conf_wins (w : world) (cfg : cfg_t) (flags : Z) (argv : list string) :
  snd (early_scan w (cfg_reset cfg) None argv) = last_conf argv
  /\ (forall w1 cfg1 cp w2 r cfg2,
        early_scan w (cfg_reset cfg) None argv = (w1, cfg1, cp) ->
        cfg_load_defaults w1 cfg1 (last_conf argv) = (w2, r, cfg2) ->
        cfg_init w cfg flags argv =
        if is_success r then
          let (w3, cfg3) := full_scan w2 cfg2 argv in
          (if negb (debug cfg3 =? 0)%Z then debug_dump w3 cfg3 flags argv else w3,
           r, cfg3)
        else
          let w3 := if negb (debug cfg2 =? 0)%Z then debug_dump w2 cfg2 flags argv
                    else w2 in
          let (w4, cfg4) := cfg_free w3 cfg2 in (w4, r, cfg4))
  /\ (forall path w1 cfg1 cp wo r outfd size,
        last_conf argv = Some path ->
        early_scan w (cfg_reset cfg) None argv = (w1, cfg1, cp) ->
        open_safely w1 path = (wo, r, outfd, size) ->
        (r <> PAM_SUCCESS -> snd (fst (cfg_init w cfg flags argv)) = r)
        /\ (r = PAM_SUCCESS -> outfd = None ->
            snd (fst (cfg_init w cfg flags argv)) = PAM_SERVICE_ERR)
        /\ (snd (fst (cfg_init w cfg flags argv)) = PAM_SUCCESS ->
            exists wx b w2,
              snd (cfg_init w cfg flags argv)
              = snd (full_scan w2
                       (set_defaults_buffer b
                          (snd (cfg_load_buffer wx cfg1
                                  (config_text w1 (Some path)))))
                       argv)))
  /\ snd (fst (cfg_init w cfg flags (drop_earlier_conf argv)))
     = snd (fst (cfg_init w cfg flags argv))
  /\ snd (cfg_init w cfg flags (drop_earlier_conf argv))
     = snd (cfg_init w cfg flags argv).
Proof.
  assert (Hp : snd (early_scan w (cfg_reset cfg) None argv) = last_conf argv).
  { rewrite early_scan_path. now destruct (last_conf argv). }
  split; [exact Hp |].
  split; [| split; [| apply cfg_init_drop_earlier_conf]].
  - intros w1 cfg1 cp w2 r cfg2 H1 H2.
    rewrite H1 in Hp. cbn [snd] in Hp. subst cp.
    exact (cfg_init_phases w cfg flags argv _ _ _ _ _ _ H1 H2).
  - intros path w1 cfg1 cp wo r outfd size Hl H1 Ho.
    rewrite H1, Hl in Hp. cbn [snd] in Hp. subst cp.
    destruct (cfg_load_defaults w1 cfg1 (Some path)) as [[w2 r2] cfg2] eqn:H2.
    rewrite (cfg_init_phases w cfg flags argv _ _ _ _ _ _ H1 H2).
    split; [| split].
    + intros Hr. unfold cfg_load_defaults in H2. rewrite Ho in H2.
      replace (negb (is_success r)) with true in H2 by (now destruct r).
      injection H2 as <- <- <-.
      replace (is_success r) with false by (now destruct r).
      reflexivity.
    + intros -> ->. unfold cfg_load_defaults in H2. rewrite Ho in H2.
      cbn [is_success negb] in H2. injection H2 as <- <- <-. reflexivity.
    + destruct (is_success r2) eqn:Hr2.
      * destruct r2; try discriminate Hr2.
        destruct (cfg_load_defaults_loaded w1 cfg1 (Some path) _ _ H2)
          as (wx & b & _ & Hc & _).
        destruct (full_scan w2 cfg2 argv) as [w3 cfg3] eqn:Hs.
        intros _. exists wx, b, w2. cbn [snd]. now rewrite <- Hc, Hs.
      * cbv zeta. unfold cfg_free. cbn [fst snd]. intros ->. discriminate Hr2.
Qed.

(** C1, as amended. [open_safely] hands out a descriptor only if every
    named component of the path meets the trust predicate: each named
    ancestor, as the walk reaches it, is a directory owned by the trusted
    principal and not writable by group or others, and the last component
    is a regular file, not a symbolic link, that is trusted in the same
    way. In particular, when some named ancestor directory is writable by
    group or others, no descriptor is handed out and the call fails with
    [PAM_SERVICE_ERR] (with [PAM_BUF_ERR] if the copy of the path cannot
    be allocated), whatever the permissions of the target. The root
    directory is opened, but its owner and mode are not looked at: it is
    not among the ancestors here. *)
Theorem C1_trusted_walk (w : world) (path : string) :
  forall w' r outfd size,
    open_safely w path = (w', r, outfd, size) ->
    (forall fd, outfd = Some fd ->
       r = PAM_SUCCESS
       /\ (forall k, 0 < k < List.length (strtok_all path "/") ->
             exists d, Spec.ancestor (w_root w) (strtok_all path "/") k = Some d
                       /\ Spec.is_dir d = true
                       /\ Spec.trusted PAM_U2F_TESTING d = true)
       /\ exists f, Spec.entry (w_root w) (strtok_all path "/") = Some f
                    /\ Spec.is_reg f = true
                    /\ Spec.trusted PAM_U2F_TESTING f = true
                    /\ find fd (w_fds w') = Some (mk_ofile f 0)
                    /\ size = (st_size (node_stat f) mod (SIZE_MAX + 1))%Z)
    /\ (forall k d,
          Spec.ancestor (w_root w) (strtok_all path "/") k = Some d ->
          Spec.writable_by_group_or_others d = true ->
          outfd = None
          /\ (r = PAM_SERVICE_ERR
              \/ (r = PAM_BUF_ERR /\ strdup_fits w path = false))).
Proof.
  intros w' r outfd size H.
  destruct (Spec.well_formed path) eqn:Hwf.
  2:{ rewrite open_safely_ill_formed in H by exact Hwf.
      injection H as <- <- <- <-.
      split; [discriminate | intros; split; [reflexivity | now left]]. }
  destruct (strdup_fits w path) eqn:Hfit.
  2:{ rewrite open_safely_no_memory in H by assumption.
      injection H as <- <- <- <-.
      split; [discriminate | intros; split; [reflexivity | now right]]. }
  destruct (open_safely_refines w path Hwf Hfit) as (n' & _ & Hr).
  unfold Spec.open_trusted in Hr. rewrite Hwf in Hr.
  assert (Hdenied : open_safely w path
                    = (settled w (w_fds w) n', PAM_SERVICE_ERR, None, 0%Z) ->
                    (forall fd, outfd = Some fd -> False)
                    /\ outfd = None /\ r = PAM_SERVICE_ERR).
  { intros E. rewrite E in H. injection H as <- <- <- <-.
    split; [discriminate | split; reflexivity]. }
  destruct (strtok_all path "/") as [|p rest] eqn:Hn.
  { destruct (Hdenied Hr) as (D1 & D2 & D3).
    split; [intros fd Hfd; elim (D1 fd Hfd) | intros; split; [exact D2 | now left]]. }
  destruct (w_root w) as [u m e | | |] eqn:Hroot;
    try (destruct (Hdenied Hr) as (D1 & D2 & D3);
         split; [intros fd Hfd; elim (D1 fd Hfd)
                | intros; split; [exact D2 | now left]]).
  destruct (Spec.open_trusted_from PAM_U2F_TESTING (Dir u m e) p rest)
    as [| | f] eqn:Ho.
  - rewrite Hr in H. injection H as <- <- <- <-.
    split; [discriminate |]. intros k d Ha Hw.
    rewrite (writable_ancestor_denied rest _ p k d Ha Hw) in Ho. discriminate Ho.
  - destruct (Hdenied Hr) as (D1 & D2 & D3).
    split; [intros fd Hfd; elim (D1 fd Hfd) | intros; split; [exact D2 | now left]].
  - destruct Hr as (fd & _ & Hr). rewrite Hr in H. injection H as <- <- <- <-.
    split.
    + intros fd' [= <-]. split; [reflexivity |].
      split; [exact (opened_ancestors rest _ p f Ho) |].
      destruct (opened_entry rest _ p f Ho) as (E1 & E2 & E3).
      exists f. repeat split; try assumption.
      cbn [w_fds settled with_heap with_fds]. apply find_head.
    + intros k d Ha Hw.
      rewrite (writable_ancestor_denied rest _ p k d Ha Hw) in Ho. discriminate Ho.
Qed.

(** An explicit path that does not exist: the load fails. *)
Lemma cfg_load_defaults_missing_explicit (w : world) (cfg : cfg_t) (path : string) :
  Spec.missing (w_root w) (strtok_all path "/") = true ->
  exists w',
    frame w w' /\ w_fds w' = w_fds w
    /\ (cfg_load_defaults w cfg (Some path) = (w', PAM_SERVICE_ERR, cfg)
        \/ (strdup_fits w path = false
            /\ cfg_load_defaults w cfg (Some path) = (w', PAM_BUF_ERR, cfg))).
Proof.
  intros Hm. unfold cfg_load_defaults.
  destruct (Spec.well_formed path) eqn:Hwf.
  2:{ rewrite open_safely_ill_formed by exact Hwf. exists w.
      split; [apply frame_refl | split; [reflexivity | now left]]. }
  destruct (strdup_fits w path) eqn:Hfit.
  2:{ rewrite open_safely_no_memory by assumption. exists w.
      split; [apply frame_refl | split; [reflexivity | now right]]. }
  destruct (open_safely_refines w path Hwf Hfit) as (n' & _ & Hr).
  unfold Spec.open_trusted in Hr. rewrite Hwf in Hr.
  destruct (strtok_all path "/") as [|p rest]; [discriminate Hm |].
  destruct (w_root w) as [u m e | | |]; try discriminate Hm.
  pose proof (missing_not_opened rest (Dir u m e) p Hm) as Hno.
  exists (settled w (w_fds w) n').
  split; [apply frame_settled | split; [reflexivity | left]].
  destruct (Spec.open_trusted_from PAM_U2F_TESTING (Dir u m e) p rest);
    [| | contradiction]; now rewrite Hr.
Qed.

(** The default path does not exist, and what exists of it is trusted: the
    load succeeds and the record is as it was. *)
Lemma cfg_load_defaults_missing_default (w : world) (cfg : cfg_t) :
  Spec.missing (w_root w) (strtok_all CFG_DEFAULT_PATH "/") = true ->
  Spec.well_formed CFG_DEFAULT_PATH = true ->
  strdup_fits w CFG_DEFAULT_PATH = true ->
  (forall k d,
     Spec.ancestor (w_root w) (strtok_all CFG_DEFAULT_PATH "/") k = Some d ->
     Spec.is_dir d = true /\ Spec.trusted PAM_U2F_TESTING d = true) ->
  exists w',
    frame w w' /\ w_fds w' = w_fds w
    /\ cfg_load_defaults w cfg None = (w', PAM_SUCCESS, cfg).
Proof.
  intros Hm Hwf Hfit Ha. unfold cfg_load_defaults.
  destruct (open_safely_refines w CFG_DEFAULT_PATH Hwf Hfit) as (n' & _ & Hr).
  unfold Spec.open_trusted in Hr. rewrite Hwf in Hr.
  destruct (strtok_all CFG_DEFAULT_PATH "/") as [|p rest]; [discriminate Hm |].
  destruct (w_root w) as [u m e | | |]; try discriminate Hm.
  rewrite (missing_absent rest (Dir u m e) p Hm Ha) in Hr.
  exists (settled w (w_fds w) n').
  split; [apply frame_settled | split; [reflexivity |]].
  now rewrite Hr.
Qed.

(** The default path with an ancestor that is there and is not a trusted
    directory: the load fails, the path missing or not. *)
Lemma cfg_load_defaults_default_denied (w : world) (cfg : cfg_t) (k : nat) (d : node) :
  Spec.well_formed CFG_DEFAULT_PATH = true ->
  strdup_fits w CFG_DEFAULT_PATH = true ->
  Spec.ancestor (w_root w) (strtok_all CFG_DEFAULT_PATH "/") k = Some d ->
  Spec.is_dir d && Spec.trusted PAM_U2F_TESTING d = false ->
  exists w', cfg_load_defaults w cfg None = (w', PAM_SERVICE_ERR, cfg).
Proof.
  intros Hwf Hfit Ha Hd. unfold cfg_load_defaults.
  destruct (open_safely_refines w CFG_DEFAULT_PATH Hwf Hfit) as (n' & _ & Hr).
  unfold Spec.open_trusted in Hr. rewrite Hwf in Hr.
  destruct (strtok_all CFG_DEFAULT_PATH "/") as [|p rest].
  { unfold Spec.ancestor in Ha. cbn [List.length] in Ha.
    now rewrite andb_comm in Ha. }
  destruct (w_root w) as [u m e | | |];
    try (rewrite Hr; eexists; reflexivity).
  rewrite (untrusted_ancestor_denied rest (Dir u m e) p k d Ha Hd) in Hr.
  rewrite Hr. eexists; reflexivity.
Qed.

(** A file phase that fails on the default path, whatever the early scan
    has done, makes [cfg_init] fail with its code and a record reset. *)
Lemma cfg_init_default_fails (w : world) (cfg : cfg_t) (flags : Z) (argv : list string)
    (r : pam_status) :
  r <> PAM_SUCCESS ->
  (forall w1 cfg1,
     w_root w1 = w_root w -> w_mem w1 = w_mem w ->
     exists w2, cfg_load_defaults w1 cfg1 None = (w2, r, cfg1)) ->
  last_conf argv = None ->
  exists w', cfg_init w cfg flags argv = (w', r, cfg_reset cfg).
Proof.
  intros Hr H Hl.
  destruct (early_scan w (cfg_reset cfg) None argv) as [[w1 cfg1] cp] eqn:H1.
  pose proof (early_scan_path argv w (cfg_reset cfg) None) as Hp.
  rewrite H1, Hl in Hp. cbn [snd] in Hp. subst cp.
  pose proof (early_scan_frame argv w (cfg_reset cfg) None) as Hf.
  rewrite H1 in Hf. cbn [fst] in Hf.
  apply sink_frame_frame in Hf as (F0 & _ & _ & F3 & _).
  destruct (H w1 cfg1 F0 F3) as (w2 & H2).
  rewrite (cfg_init_phases w cfg flags argv _ _ _ _ _ _ H1 H2).
  replace (is_success r) with false by (now destruct r).
  cbv zeta. unfold cfg_free. eexists; reflexivity.
Qed.

(** C3, as amended. When the configuration path does not exist: a path
    given with [conf=] makes the load fail with [PAM_SERVICE_ERR] (with
    [PAM_BUF_ERR] if the copy of the path cannot be allocated), and the
    record is left reset. The default path makes the load succeed with no
    setting from a file, the record being the one the arguments alone
    give, provided the default path is absolute and does not end with a
    separator, its copy can be allocated, and every ancestor of it that
    exists is a trusted directory. Otherwise the load of the default path
    fails: with [PAM_SERVICE_ERR] when an ancestor that exists is not a
    trusted directory (the path well formed and its copy allocated), with
    [PAM_BUF_ERR] when the copy cannot be allocated, and with
    [PAM_SERVICE_ERR] when the path is not well formed. All is stated for
    [cfg_load_defaults] and for [cfg_init]. *)
Theorem C3_missing_path (w : world) (cfg : cfg_t) :
  (forall path,
     Spec.missing (w_root w) (strtok_all path "/") = true ->
     (exists w' r,
        cfg_load_defaults w cfg (Some path) = (w', r, cfg)
        /\ (r = PAM_SERVICE_ERR
            \/ (r = PAM_BUF_ERR /\ strdup_fits w path = false)))
     /\ forall flags argv,
          last_conf argv = Some path ->
          exists w' r,
            cfg_init w cfg flags argv = (w', r, cfg_reset cfg)
            /\ (r = PAM_SERVICE_ERR
                \/ (r = PAM_BUF_ERR /\ strdup_fits w path = false)))
  /\ (Spec.missing (w_root w) (strtok_all CFG_DEFAULT_PATH "/") = true ->
      Spec.well_formed CFG_DEFAULT_PATH = true ->
      strdup_fits w CFG_DEFAULT_PATH = true ->
      (forall k d,
         Spec.ancestor (w_root w) (strtok_all CFG_DEFAULT_PATH "/") k = Some d ->
         Spec.is_dir d = true /\ Spec.trusted PAM_U2F_TESTING d = true) ->
      (exists w', cfg_load_defaults w cfg None = (w', PAM_SUCCESS, cfg))
      /\ forall flags argv,
           last_conf argv = None ->
           exists w' w2,
             cfg_init w cfg flags argv
             = (w', PAM_SUCCESS,
                snd (full_scan w2
                       (snd (fst (early_scan w (cfg_reset cfg) None argv))) argv)))
  /\ (Spec.well_formed CFG_DEFAULT_PATH = true ->
      strdup_fits w CFG_DEFAULT_PATH = true ->
      forall k d,
        Spec.ancestor (w_root w) (strtok_all CFG_DEFAULT_PATH "/") k = Some d ->
        Spec.is_dir d && Spec.trusted PAM_U2F_TESTING d = false ->
        (exists w', cfg_load_defaults w cfg None = (w', PAM_SERVICE_ERR, cfg))
        /\ forall flags argv,
             last_conf argv = None ->
             exists w', cfg_init w cfg flags argv = (w', PAM_SERVICE_ERR, cfg_reset cfg))
  /\ (Spec.well_formed CFG_DEFAULT_PATH = true ->
      strdup_fits w CFG_DEFAULT_PATH = false ->
      cfg_load_defaults w cfg None = (w, PAM_BUF_ERR, cfg)
      /\ forall flags argv,
           last_conf argv = None ->
           exists w', cfg_init w cfg flags argv = (w', PAM_BUF_ERR, cfg_reset cfg))
  /\ (Spec.well_formed CFG_DEFAULT_PATH = false ->
      cfg_load_defaults w cfg None = (w, PAM_SERVICE_ERR, cfg)
      /\ forall flags argv,
           last_conf argv = None ->
           exists w', cfg_init w cfg flags argv = (w', PAM_SERVICE_ERR, cfg_reset cfg)).
Proof.
  split; [| split; [| split; [| split]]].
  - intros path Hm. split.
    + destruct (cfg_load_defaults_missing_explicit w cfg path Hm)
        as (w' & _ & _ & [H | [Hf H]]).
      * exists w', PAM_SERVICE_ERR. split; [exact H | now left].
      * exists w', PAM_BUF_ERR. split; [exact H | now right].
    + intros flags argv Hl.
      destruct (early_scan w (cfg_reset cfg) None argv) as [[w1 cfg1] cp] eqn:H1.
      pose proof (early_scan_path argv w (cfg_reset cfg) None) as Hp.
      rewrite H1, Hl in Hp. cbn [snd] in Hp. subst cp.
      pose proof (early_scan_frame argv w (cfg_reset cfg) None) as Hf.
      rewrite H1 in Hf. cbn [fst] in Hf.
      apply sink_frame_frame in Hf as (F0 & _ & _ & F3 & _).
      assert (Hfit : strdup_fits w1 path = strdup_fits w path)
        by (unfold strdup_fits; now rewrite F3).
      rewrite <- F0 in Hm.
      destruct (cfg_load_defaults_missing_explicit w1 cfg1 path Hm)
        as (w2 & _ & _ & [H | [Hn H]]);
        rewrite (cfg_init_phases w cfg flags argv _ _ _ _ _ _ H1 H);
        cbn [is_success cfg_free]; eexists; eexists;
        (split; [reflexivity |]).
      * now left.
      * right. split; [reflexivity | congruence].
  - intros Hm Hwf Hfit Ha. split.
    + destruct (cfg_load_defaults_missing_default w cfg Hm Hwf Hfit Ha)
        as (w' & _ & _ & H).
      now exists w'.
    + intros flags argv Hl.
      destruct (early_scan w (cfg_reset cfg) None argv) as [[w1 cfg1] cp] eqn:H1.
      pose proof (early_scan_path argv w (cfg_reset cfg) None) as Hp.
      rewrite H1, Hl in Hp. cbn [snd] in Hp. subst cp.
      pose proof (early_scan_frame argv w (cfg_reset cfg) None) as Hf.
      rewrite H1 in Hf. cbn [fst] in Hf.
      apply sink_frame_frame in Hf as (F0 & _ & _ & F3 & _).
      assert (Hfit1 : strdup_fits w1 CFG_DEFAULT_PATH = true)
        by (unfold strdup_fits in *; now rewrite F3).
      rewrite <- F0 in Hm, Ha.
      destruct (cfg_load_defaults_missing_default w1 cfg1 Hm Hwf Hfit1 Ha)
        as (w2 & _ & _ & H).
      rewrite (cfg_init_phases w cfg flags argv _ _ _ _ _ _ H1 H).
      cbn [is_success fst snd].
      destruct (full_scan w2 cfg1 argv) as [w3 cfg3] eqn:Hs.
      eexists; exists w2. now rewrite Hs.
  - intros Hwf Hfit k d Ha Hd. split.
    + exact (cfg_load_defaults_default_denied w cfg k d Hwf Hfit Ha Hd).
    + intros flags argv. apply cfg_init_default_fails; [discriminate |].
      intros w1 cfg1 F0 F3.
      apply (cfg_load_defaults_default_denied w1 cfg1 k d Hwf).
      * unfold strdup_fits in *. now rewrite F3.
      * now rewrite F0.
      * exact Hd.
  - intros Hwf Hfit. split.
    + unfold cfg_load_defaults. now rewrite open_safely_no_memory.
    + intros flags argv. apply cfg_init_default_fails; [discriminate |].
      intros w1 cfg1 F0 F3. exists w1.
      unfold cfg_load_defaults. rewrite open_safely_no_memory; [reflexivity | exact Hwf |].
      unfold strdup_fits in *. now rewrite F3.
  - intros Hwf. split.
    + unfold cfg_load_defaults. now rewrite open_safely_ill_formed.
    + intros flags argv. apply cfg_init_default_fails; [discriminate |].
      intros w1 cfg1 _ _. exists w1.
      unfold cfg_load_defaults. now rewrite open_safely_ill_formed.
Qed.

(** When [config_text] is not empty, the file phase has succeeded. *)
Lemma cfg_load_defaults_text (w : world) (cfg : cfg_t) (config_path : option string) :
  config_text w config_path <> "" ->
  exists w' cfg', cfg_load_defaults w cfg config_path = (w', PAM_SUCCESS, cfg').
Proof.
  unfold cfg_load_defaults, config_text.
  set (path := match config_path with Some p => p | None => CFG_DEFAULT_PATH end).
  destruct (open_safely w path) as [[[w1 r1] fd] fsize] eqn:Ho.
  apply open_safely_world in Ho as [_ Hfd].
  destruct fd as [fd|]; [| intros H; now elim H].
  destruct Hfd as (-> & f & Hfd). cbn [is_success negb andb].
  destruct (fsize =? 0)%Z; cbn [negb]; [intros H; now elim H |].
  destruct (slurp w1 fd fsize) as [[w2 r2] dst] eqn:Hs.
  destruct (slurp_world w1 fd _ _ fsize Hfd _ _ _ Hs) as (f' & script' & np & H).
  destruct dst as [[buffer bytes]|]; [| intros Hn; now elim Hn].
  destruct H as (-> & _). cbn [is_success negb]. intros _.
  destruct (cfg_load_buffer w2 cfg (c_str bytes)). eexists; eexists; reflexivity.
Qed.







(** C8, as amended. After a reset the record holds the process-wide default
    sink. Each application of a [debug_file=] token, by [cfg_load_arg_debug]
    or by [cfg_load_arg], replaces the sink once: the sink held is closed
    and then the new one is opened and stored; any other token leaves the
    sink and the log alone. An argument is applied in the early scan and,
    when the file phase has succeeded, again in the full scan, a line of
    the file once: a load that succeeds opens two sinks for each
    [debug_file=] argument and one for each such line, a load that fails
    one for each such argument. *)
Theorem C8_sink_replacement :
  (forall cfg, debug_file (cfg_reset cfg) = DEFAULT_DEBUG_FILE)
  /\ (forall w cfg tok,
        is_debug_file tok = true ->
        cfg_load_arg w cfg tok = cfg_load_arg_debug w cfg tok
        /\ w_log (fst (cfg_load_arg_debug w cfg tok))
           = EvSinkOpen (skip 11 tok) (FileSink (w_next_sink w))
               :: EvSinkClose (debug_file cfg) :: w_log w
        /\ debug_file (snd (cfg_load_arg_debug w cfg tok)) = FileSink (w_next_sink w))
  /\ (forall w cfg tok,
        is_debug_file tok = false ->
        fst (cfg_load_arg w cfg tok) = w
        /\ debug_file (snd (cfg_load_arg w cfg tok)) = debug_file cfg
        /\ fst (cfg_load_arg_debug w cfg tok) = w
        /\ debug_file (snd (cfg_load_arg_debug w cfg tok)) = debug_file cfg)
  /\ (forall w cfg flags argv w1 cfg1 cp w' r cfg',
        early_scan w (cfg_reset cfg) None argv = (w1, cfg1, cp) ->
        cfg_init w cfg flags argv = (w', r, cfg') ->
        sink_opens (w_log w') =
        if is_success r then
          sink_opens (w_log w) + 2 * count_debug_file argv
          + count_debug_file (buffer_tokens (config_text w1 cp))
        else sink_opens (w_log w) + count_debug_file argv).
Proof.
  split; [reflexivity |]. split; [| split].
  - intros w cfg tok H.
    split; [now apply cfg_load_arg_replaces |].
    rewrite (cfg_load_arg_debug_replaces w cfg tok H).
    split; [| reflexivity].
    now destruct (debug_file cfg).
  - intros w cfg tok H.
    destruct (cfg_load_arg_keeps w cfg tok H) as [A1 A2].
    destruct (cfg_load_arg_debug_keeps w cfg tok H) as [B1 B2].
    repeat split; assumption.
  - exact cfg_init_sink_opens.
Qed.

(** C9. The tri-state fields [userpresence], [userverification] and
    [pinverification] hold the sentinel -1 or an integer that a token with
    their key has assigned, after every operation on the record: after
    [cfg_reset] and [cfg_free] all three are -1; [cfg_load_arg_debug] keeps
    them; [cfg_load_arg] and [cfg_load_buffer] keep them or store what
    [sscanf] read from a token they apply; and after [cfg_init] each holds
    -1 or a value assigned by an argument or by a line of the file. *)
Theorem C9_tristate_fields :
  (forall cfg, tristate (cfg_reset cfg) = ((-1)%Z, (-1)%Z, (-1)%Z))
  /\ (forall w cfg, tristate (snd (cfg_free w cfg)) = ((-1)%Z, (-1)%Z, (-1)%Z))
  /\ (forall w cfg tok, tristate (snd (cfg_load_arg_debug w cfg tok)) = tristate cfg)
  /\ (forall w cfg tok toks,
        tristate_ok toks cfg ->
        tristate_ok (tok :: toks) (snd (cfg_load_arg w cfg tok)))
  /\ (forall w cfg buffer toks,
        tristate_ok toks cfg ->
        tristate_ok (buffer_tokens buffer ++ toks)%list
          (snd (cfg_load_buffer w cfg buffer)))
  /\ (forall w cfg flags argv,
        tristate_ok
          (argv ++ buffer_tokens
                     (config_text (fst (fst (early_scan w (cfg_reset cfg) None argv)))
                        (snd (early_scan w (cfg_reset cfg) None argv))))%list
          (snd (cfg_init w cfg flags argv))).
Proof.
  split; [reflexivity |]. split; [reflexivity |].
  split; [exact cfg_load_arg_debug_tristate |].
  split; [exact cfg_load_arg_tristate |].
  split.
  - intros w cfg buffer toks H. now apply cfg_load_lines_tristate.
  - intros w cfg flags argv.
    destruct (early_scan w (cfg_reset cfg) None argv) as [[w1 cfg1] cp] eqn:H1.
    destruct (cfg_init w cfg flags argv) as [[w' r] cfg'] eqn:H.
    exact (cfg_init_tristate w cfg flags argv _ _ _ _ _ _ H1 H).
Qed.



(** ** Further properties of the loader *)

(** *** [ltrim] and [rtrim] *)

Section Trimming.

Import Spec.

Lemma string_app_nil_r (s : string) : s ++ "" = s.
Proof. induction s as [|c s IH]; simpl; [reflexivity | now rewrite IH]. Qed.

Lemma string_app_assoc (a b c : string) : (a ++ b) ++ c = a ++ b ++ c.
Proof. induction a as [|x a IH]; simpl; [reflexivity | now rewrite IH]. Qed.

Lemma trim_left_split (s : string) :
  exists pre, s = pre ++ trim_left s /\ all_space pre = true.
Proof.
  induction s as [|c s (pre & IH & Hp)]; simpl.
  - now exists "".
  - destruct (isspace c) eqn:E.
    + exists (String c pre). simpl. rewrite E, Hp. split; [now f_equal | reflexivity].
    + now exists "".
Qed.

Lemma trim_right_split (s : string) :
  exists suf, s = trim_right s ++ suf /\ all_space suf = true.
Proof.
  induction s as [|c s (suf & IH & Hs)]; simpl.
  - now exists "".
  - destruct (isspace c && empty (trim_right s)) eqn:E.
    + apply andb_true_iff in E as [Ec Ee]. apply empty_true in Ee.
      rewrite Ee in IH. simpl in IH. subst suf.
      exists (String c s). simpl. now rewrite Ec, Hs.
    + exists suf. simpl. split; [now f_equal | exact Hs].
Qed.

Lemma last_char_cons (c : ascii) (s : string) :
  last_char (String c s) = match last_char s with Some d => Some d | None => Some c end.
Proof.
  destruct s as [|d s]; [reflexivity |].
  change (last_char (String c (String d s))) with (last_char (String d s)).
  destruct (last_char (String d s)) eqn:E; [reflexivity |].
  exfalso. clear c. revert d E. induction s as [|e s IH]; intros d E; [discriminate |].
  exact (IH e E).
Qed.

Lemma last_char_none (s : string) : last_char s = None -> s = "".
Proof.
  destruct s as [|c s]; [reflexivity |].
  rewrite last_char_cons. now destruct (last_char s).
Qed.

Lemma trim_right_no_trail (s : string) : no_trail (trim_right s).
Proof.
  unfold no_trail. induction s as [|c s IH]; simpl; [exact I |].
  destruct (isspace c && empty (trim_right s)) eqn:E; [exact I |].
  rewrite last_char_cons.
  destruct (last_char (trim_right s)) as [d|] eqn:El; [exact IH |].
  apply last_char_none in El. rewrite El in E. simpl in E.
  now rewrite andb_true_r in E.
Qed.

End Trimming.

(** X1. [ltrim] returns the string without the white space that opens it: what
    it skips is white space only, and what it returns starts with none. *)
Theorem ltrim_strips_leading_space (s : string) :
  exists pre, s = pre ++ ltrim s /\ all_space pre = true /\ no_lead (ltrim s).
Proof.
  rewrite ltrim_trim_left.
  destruct (trim_left_split s) as (pre & H & Hp).
  exists pre. repeat split; [exact H | exact Hp | apply trim_left_no_lead].
Qed.

(** X2. [rtrim] returns the string without the white space that closes it:
    what it cuts off is white space only, and what it returns ends with
    none. *)
Theorem rtrim_strips_trailing_space (s : string) :
  exists suf, s = rtrim s ++ suf /\ all_space suf = true /\ no_trail (rtrim s).
Proof.
  rewrite rtrim_trim_right.
  destruct (trim_right_split s) as (suf & H & Hs).
  exists suf. repeat split; [exact H | exact Hs | apply trim_right_no_trail].
Qed.

(** *** [pack] *)

Section Packing.

Import Spec.

Lemma pack_form (raw : string) :
  pack raw =
  match split_once "=" (trim_left (before "#" raw)) with
  | Some (k, v) => trim_right k ++ "=" ++ trim v
  | None => trim_right (trim_left (before "#" raw))
  end.
Proof.
  unfold pack, trim. rewrite take_strcspn_before, ltrim_trim_left.
  pose proof (strchr_split_once "=" (trim_left (before "#" raw))) as Hs.
  destruct (strchr (trim_left (before "#" raw)) "=") as [i|]; rewrite Hs.
  - rewrite !rtrim_trim_right. reflexivity.
  - apply rtrim_trim_right.
Qed.

Lemma pack_normalize (raw : string) :
  pack raw = match normalize raw with Some t => t | None => "" end.
Proof.
  rewrite <- line_token_normalize. unfold line_token.
  destruct (empty (pack raw)) eqn:E; [now apply empty_true | reflexivity].
Qed.

Lemma occurs_app (c : ascii) (a b : string) :
  occurs c (a ++ b) = occurs c a || occurs c b.
Proof.
  induction a as [|x a IH]; simpl; [reflexivity |].
  now rewrite IH, orb_assoc.
Qed.

Lemma occurs_before (c : ascii) (s : string) : occurs c (before c s) = false.
Proof.
  induction s as [|d s IH]; simpl; [reflexivity |].
  destruct (Ascii.eqb d c) eqn:E; simpl; [reflexivity | now rewrite E].
Qed.

Lemma before_absent (c : ascii) (s : string) : occurs c s = false -> before c s = s.
Proof.
  induction s as [|d s IH]; simpl; [reflexivity |].
  intros H. apply orb_false_iff in H as [-> H]. now rewrite IH.
Qed.

Lemma before_app (c : ascii) (a b : string) :
  before c (a ++ b) = if occurs c a then before c a else a ++ before c b.
Proof.
  induction a as [|x a IH]; simpl; [reflexivity |].
  destruct (Ascii.eqb x c); simpl; [reflexivity |].
  rewrite IH. now destruct (occurs c a).
Qed.

Lemma split_once_none (c : ascii) (s : string) :
  split_once c s = None -> occurs c s = false.
Proof.
  induction s as [|d s IH]; simpl; [reflexivity |].
  destruct (Ascii.eqb d c); [discriminate |].
  destruct (split_once c s) as [[k v]|]; [discriminate |].
  intros _. now apply IH.
Qed.

Lemma split_once_some (c : ascii) (s k v : string) :
  split_once c s = Some (k, v) -> s = k ++ String c v /\ occurs c k = false.
Proof.
  revert k; induction s as [|d s IH]; intros k; simpl; [discriminate |].
  destruct (Ascii.eqb d c) eqn:E.
  - apply Ascii.eqb_eq in E; subst d. intros [= <- <-]. now split.
  - destruct (split_once c s) as [[k' v']|]; [| discriminate].
    intros [= <- <-]. destruct (IH k' eq_refl) as [-> Hk].
    simpl. now rewrite E.
Qed.

Lemma split_once_app (c : ascii) (k v : string) :
  occurs c k = false -> split_once c (k ++ String c v) = Some (k, v).
Proof.
  induction k as [|d k IH]; simpl.
  - intros _. now rewrite Ascii.eqb_refl.
  - intros H. apply orb_false_iff in H as [-> H]. now rewrite IH.
Qed.

Lemma occurs_trim_left (c : ascii) (s : string) :
  occurs c s = false -> occurs c (trim_left s) = false.
Proof.
  destruct (trim_left_split s) as (pre & H & _).
  intros Hc. rewrite H, occurs_app in Hc. now apply orb_false_iff in Hc.
Qed.

Lemma occurs_trim_right (c : ascii) (s : string) :
  occurs c s = false -> occurs c (trim_right s) = false.
Proof.
  destruct (trim_right_split s) as (suf & H & _).
  intros Hc. rewrite H, occurs_app in Hc. now apply orb_false_iff in Hc.
Qed.

Lemma trim_left_idem (s : string) : trim_left (trim_left s) = trim_left s.
Proof. apply no_lead_trim_left, trim_left_no_lead. Qed.

Lemma trim_idem (s : string) : trim (trim s) = trim s.
Proof.
  unfold trim.
  now rewrite (trim_right_left (trim_right s)), trim_right_idem, trim_left_idem.
Qed.

Lemma trim_right_trim (s : string) : trim_right (trim s) = trim s.
Proof. unfold trim. now rewrite trim_right_left, trim_right_idem. Qed.

Lemma no_lead_app (a b : string) : no_lead a -> no_lead b -> no_lead (a ++ b).
Proof. destruct a; simpl; [intros _ H; exact H | intros H _; exact H]. Qed.

(** The two shapes of a packed line. *)
Lemma pack_cases (raw : string) :
  occurs "#" (pack raw) = false
  /\ ((split_once "=" (pack raw) = None
       /\ no_lead (pack raw) /\ trim_right (pack raw) = pack raw)
      \/ exists k v,
           pack raw = k ++ "=" ++ v /\ occurs "=" k = false
           /\ no_lead k /\ trim_right k = k /\ trim v = v).
Proof.
  rewrite pack_form.
  pose proof (trim_left_no_lead (before "#" raw)) as Hl.
  pose proof (occurs_trim_left "#" _ (occurs_before "#" raw)) as Hc.
  destruct (split_once "=" (trim_left (before "#" raw))) as [[k v]|] eqn:Hs.
  - destruct (split_once_some _ _ _ _ Hs) as [E Hk].
    rewrite E, occurs_app in Hc. apply orb_false_iff in Hc as [Hck Hcv].
    simpl in Hcv. split.
    + rewrite occurs_app. simpl.
      rewrite (occurs_trim_right _ _ Hck). unfold trim.
      now rewrite (occurs_trim_left _ _ (occurs_trim_right _ _ Hcv)).
    + right. exists (trim_right k), (trim v).
      split; [reflexivity |].
      split; [now apply occurs_trim_right |].
      split; [apply no_lead_trim_right, (split_once_no_lead _ _ _ Hl Hs) |].
      split; [apply trim_right_idem | apply trim_idem].
  - split; [now apply occurs_trim_right |]. left.
    split; [now rewrite split_once_trim_right, Hs |].
    split; [now apply no_lead_trim_right | apply trim_right_idem].
Qed.

Lemma all_space_absent (c : ascii) (a : string) :
  isspace c = false -> all_space a = true -> occurs c a = false.
Proof.
  intros Hc. induction a as [|x a IH]; simpl; [reflexivity |].
  intros H. apply andb_true_iff in H as [Hx Ha].
  rewrite (IH Ha), orb_false_r.
  destruct (Ascii.eqb x c) eqn:E; [| reflexivity].
  apply Ascii.eqb_eq in E; subst x. congruence.
Qed.

Lemma trim_left_app_space (a s : string) :
  all_space a = true -> trim_left (a ++ s) = trim_left s.
Proof.
  induction a as [|x a IH]; simpl; [reflexivity |].
  intros H. apply andb_true_iff in H as [-> Ha]. now apply IH.
Qed.

Lemma trim_right_all_space (b : string) : all_space b = true -> trim_right b = "".
Proof.
  induction b as [|x b IH]; simpl; [reflexivity |].
  intros H. apply andb_true_iff in H as [-> Hb]. now rewrite (IH Hb).
Qed.

Lemma trim_right_app_space (s b : string) :
  all_space b = true -> trim_right (s ++ b) = trim_right s.
Proof.
  intros Hb. induction s as [|x s IH]; simpl.
  - now apply trim_right_all_space.
  - now rewrite IH.
Qed.

Lemma trim_surrounded (a s b : string) :
  all_space a = true -> all_space b = true -> trim (a ++ s ++ b) = trim s.
Proof.
  intros Ha Hb. unfold trim.
  rewrite <- string_app_assoc, (trim_right_app_space _ b Hb).
  rewrite <- !trim_right_left. now rewrite (trim_left_app_space a s Ha).
Qed.

End Packing.

(** X3. [pack] gives a canonical token: it holds no comment character and no
    white space opens or closes it; when it holds [=], no white space
    opens or closes the key before the first [=] or the value after it. *)
Theorem pack_canonical (raw : string) :
  occurs "#" (pack raw) = false
  /\ match strchr (pack raw) "=" with
     | Some i => trimmed (take i (pack raw)) /\ trimmed (skip (S i) (pack raw))
     | None => trimmed (pack raw)
     end.
Proof.
  destruct (pack_cases raw) as [Hc H]. split; [exact Hc |].
  pose proof (strchr_split_once "=" (pack raw)) as Hs.
  assert (Ht : forall x, no_lead x -> Spec.trim_right x = x -> trimmed x).
  { intros x Hl Hr. split; [| now rewrite rtrim_trim_right].
    rewrite <- (no_lead_trim_left x Hl) at 2. apply ltrim_trim_left. }
  destruct H as [(Hn & Hl & Hr) | (k & v & E & Hk & Hl & Hr & Hv)].
  - rewrite Hn in Hs.
    destruct (strchr (pack raw) "=") as [i|]; [discriminate |].
    now apply Ht.
  - rewrite E in Hs |- *. change (k ++ "=" ++ v) with (k ++ String "=" v) in *.
    rewrite (split_once_app _ _ v Hk) in Hs.
    destruct (strchr (k ++ String "=" v) "=") as [i|]; [| discriminate].
    assert (Ek : take i (k ++ String "=" v) = k) by congruence.
    assert (Ev : skip (S i) (k ++ String "=" v) = v) by congruence.
    rewrite Ek, Ev.
    split; [now apply Ht |].
    apply Ht; rewrite <- Hv; [apply trim_left_no_lead | apply trim_right_trim].
Qed.

(** X4. A packed line is a fixed point of [pack]: the token a line of the file
    gives is read the same when it is packed again. *)
Theorem pack_idempotent (raw : string) : pack (pack raw) = pack raw.
Proof.
  destruct (pack_cases raw) as [Hc H].
  rewrite (pack_form (pack raw)), (before_absent _ _ Hc).
  destruct H as [(Hn & Hl & Hr) | (k & v & E & Hk & Hl & Hr & Hv)].
  - rewrite (no_lead_trim_left _ Hl), Hn. exact Hr.
  - rewrite E. change (k ++ "=" ++ v) with (k ++ String "=" v).
    rewrite (no_lead_trim_left (k ++ String "=" v)).
    + rewrite (split_once_app _ _ v Hk). now rewrite Hr, Hv.
    + apply no_lead_app; [exact Hl | reflexivity].
Qed.

(** X5. [pack] does not see the white space around a line: blanks and tabs
    before it, and blanks or a carriage return after it, change nothing. *)
Theorem pack_ignores_surrounding_space (a line b : string) :
  all_space a = true -> all_space b = true ->
  pack (a ++ line ++ b) = pack line.
Proof.
  intros Ha Hb. rewrite !pack_normalize. unfold Spec.normalize.
  assert (Hh : forall x, all_space x = true -> occurs "#" x = false)
    by (intros x; now apply all_space_absent).
  assert (E : Spec.trim (Spec.before "#" (a ++ line ++ b))
              = Spec.trim (Spec.before "#" line)).
  { rewrite before_app, (Hh a Ha), before_app.
    destruct (occurs "#" line) eqn:Hl.
    - rewrite <- (string_app_nil_r (Spec.before "#" line)) at 1.
      now apply trim_surrounded.
    - rewrite (before_absent _ _ (Hh b Hb)), (before_absent _ _ Hl).
      now apply trim_surrounded. }
  now rewrite E.
Qed.

(** *** [strtok_r] and the lines of a buffer *)

Section Tokens.

Lemma skip_length (n : nat) (s : string) : String.length (skip n s) = String.length s - n.
Proof.
  revert s; induction n as [|n IH]; intros [|c s]; simpl; try reflexivity.
  apply IH.
Qed.

Lemma skip_app_le (n : nat) (s t : string) :
  n <= String.length s -> skip n (s ++ t) = skip n s ++ t.
Proof.
  revert s; induction n as [|n IH]; intros [|c s] H; simpl in *; try reflexivity.
  - lia.
  - apply IH; lia.
Qed.

Lemma skip_succ (n : nat) (s : string) : skip (S n) s = skip 1 (skip n s).
Proof.
  revert s; induction n as [|n IH]; intros [|c s]; try reflexivity.
  change (skip (S (S n)) (String c s)) with (skip (S n) s).
  change (skip (S n) (String c s)) with (skip n s). apply IH.
Qed.

Lemma strcspn_le (s d : string) : strcspn s d <= String.length s.
Proof.
  induction s as [|c s IH]; simpl; [lia |].
  destruct (mem c d); lia.
Qed.

Lemma strtok_r_shorter (s d tok sp : string) :
  strtok_r s d = (Some tok, sp) -> String.length sp < String.length s.
Proof.
  unfold strtok_r.
  destruct (skip (strspn s d) s) as [|c s1] eqn:E; [discriminate |].
  cbn [empty]. intros [= _ <-].
  pose proof (skip_length (strspn s d) s) as H1. rewrite E in H1.
  rewrite skip_length. simpl in *. lia.
Qed.

Lemma strtok_from_fuel (f1 : nat) :
  forall (f2 : nat) (s d : string),
    String.length s <= f1 -> String.length s <= f2 ->
    strtok_from f1 s d = strtok_from f2 s d.
Proof.
  induction f1 as [|f1 IH]; intros [|f2] s d H1 H2; try reflexivity.
  - destruct s; [reflexivity | simpl in H1; lia].
  - destruct s; [reflexivity | simpl in H2; lia].
  - simpl. destruct (strtok_r s d) as [[tok|] sp] eqn:E; [| reflexivity].
    apply strtok_r_shorter in E. f_equal. apply IH; lia.
Qed.

Lemma strtok_all_unfold (s d : string) :
  strtok_all s d =
  match strtok_r s d with
  | (Some tok, sp) => tok :: strtok_all sp d
  | (None, _) => []
  end.
Proof.
  unfold strtok_all. destruct s as [|c s]; [reflexivity |].
  cbn [String.length strtok_from].
  destruct (strtok_r (String c s) d) as [[tok|] sp] eqn:E; [| reflexivity].
  apply strtok_r_shorter in E. f_equal.
  apply strtok_from_fuel; simpl in *; lia.
Qed.

(** A leading separator is skipped. *)
Lemma strtok_all_delim (c : ascii) (s d : string) :
  mem c d = true -> strtok_all (String c s) d = strtok_all s d.
Proof.
  intros H. rewrite (strtok_all_unfold (String c s)), (strtok_all_unfold s).
  unfold strtok_r. cbn [strspn]. rewrite H. reflexivity.
Qed.

(** A character that is no separator opens a token. *)
Lemma strtok_all_char (c : ascii) (s d : string) :
  mem c d = false ->
  strtok_all (String c s) d =
  String c (take (strcspn s d) s) :: strtok_all (skip (S (strcspn s d)) s) d.
Proof.
  intros H. rewrite (strtok_all_unfold (String c s)).
  unfold strtok_r. cbn [strspn]. rewrite H. cbn [skip empty strcspn]. rewrite H.
  reflexivity.
Qed.

Lemma strcspn_app_delim (c : ascii) (a b d : string) :
  mem c d = true -> strcspn (a ++ String c b) d = strcspn a d.
Proof.
  intros H. induction a as [|x a IH]; simpl; [now rewrite H |].
  destruct (mem x d); [reflexivity | now rewrite IH].
Qed.

Lemma strtok_all_app (c : ascii) (d : string) (a b : string) :
  mem c d = true ->
  strtok_all (a ++ String c b) d = (strtok_all a d ++ strtok_all b d)%list.
Proof.
  intros Hc. remember (String.length a) as n eqn:Hn.
  revert a Hn. induction n as [n IH] using lt_wf_ind. intros a Hn.
  destruct a as [|x a].
  - simpl. now rewrite strtok_all_delim.
  - change (String x a ++ String c b) with (String x (a ++ String c b)).
    destruct (mem x d) eqn:Hx.
    + rewrite !strtok_all_delim by exact Hx.
      apply (IH (String.length a)); [simpl in Hn; lia | reflexivity].
    + rewrite !strtok_all_char by exact Hx.
      rewrite (strcspn_app_delim c a b d Hc).
      pose proof (strcspn_le a d) as Hle.
      rewrite (take_app_le _ _ _ Hle).
      cbn [app]. f_equal.
      rewrite (skip_succ _ (a ++ String c b)), (skip_app_le _ _ _ Hle).
      rewrite (skip_succ _ a).
      pose proof (skip_length (strcspn a d) a) as Hl.
      destruct (skip (strcspn a d) a) as [|y r] eqn:Er.
      * reflexivity.
      * cbn [append skip].
        apply (IH (String.length r)); [simpl in *; lia | reflexivity].
Qed.

Lemma cfg_load_arg_conf (w : world) (cfg : cfg_t) (arg : string) :
  is_conf arg = true -> cfg_load_arg w cfg arg = (w, cfg).
Proof.
  intros H. apply starts_with_ex in H as [rest ->].
  now apply cfg_load_arg_unrecognized.
Qed.

Lemma cfg_load_lines_full_scan (lines : list string) :
  forall (w : world) (cfg : cfg_t),
    cfg_load_lines w cfg lines = full_scan w cfg (line_tokens lines).
Proof.
  induction lines as [|buf lines IH]; intros w cfg; [reflexivity |].
  cbn [cfg_load_lines line_tokens].
  destruct (line_token buf) as [arg|]; [| apply IH].
  cbn [full_scan]. destruct (strncmp_eq arg "conf=") eqn:E.
  - rewrite (cfg_load_arg_conf w cfg arg E). apply IH.
  - destruct (cfg_load_arg w cfg arg). apply IH.
Qed.

Lemma line_tokens_app (l1 l2 : list string) :
  line_tokens (l1 ++ l2) = (line_tokens l1 ++ line_tokens l2)%list.
Proof.
  induction l1 as [|buf l1 IH]; simpl; [reflexivity |].
  destruct (line_token buf); simpl; now rewrite IH.
Qed.

Lemma before_split (c : ascii) (s : string) :
  Spec.before c s <> s -> exists v, s = Spec.before c s ++ String c v.
Proof.
  induction s as [|d s IH]; simpl; [intros H; now elim H |].
  destruct (Ascii.eqb d c) eqn:E.
  - apply Ascii.eqb_eq in E; subst d. intros _. now exists s.
  - intros H. destruct IH as [v Hv]; [congruence |].
    exists v. simpl. now f_equal.
Qed.

End Tokens.

(** X6. The lines of the file act as the arguments they are packed to: loading
    a buffer does to the record and the sinks what the second scan of
    [cfg_init] does on the tokens of its lines. *)
Theorem cfg_load_buffer_as_arguments (w : world) (cfg : cfg_t) (buffer : string) :
  cfg_load_buffer w cfg buffer = full_scan w cfg (buffer_tokens buffer).
Proof. apply cfg_load_lines_full_scan. Qed.

(** X7. The lines of a buffer are applied in their order: loading two texts
    joined by a newline is loading the first, then the second on the
    record the first leaves. *)
Theorem cfg_load_buffer_app (w : world) (cfg : cfg_t) (a b : string) :
  cfg_load_buffer w cfg (a ++ String "010" b) =
  let (w1, cfg1) := cfg_load_buffer w cfg a in cfg_load_buffer w1 cfg1 b.
Proof.
  unfold cfg_load_buffer.
  rewrite (strtok_all_app "010" (String "010" "") a b eq_refl).
  rewrite !cfg_load_lines_full_scan, line_tokens_app, full_scan_app.
  destruct (full_scan w cfg (line_tokens (strtok_all a (String "010" "")))).
  now rewrite cfg_load_lines_full_scan.
Qed.

(** X8. A setting that takes no value is not set by a token that gives it one:
    [debug=1], [manual=yes] and the like match no test of [cfg_load_arg]
    and leave the record and the sinks alone. *)
Theorem flag_with_value_ignored (w : world) (cfg : cfg_t) (tok : string) :
  Spec.is_in (Spec.token_key tok) flag_keys = true ->
  tok <> Spec.token_key tok ->
  cfg_load_arg w cfg tok = (w, cfg).
Proof.
  unfold Spec.token_key. intros Hk Hv.
  destruct (before_split "=" tok) as [v E]; [congruence |].
  rewrite E. clear E Hv.
  unfold Spec.is_in, flag_keys in Hk. cbn [existsb] in Hk.
  repeat (apply orb_true_iff in Hk as [Hk | Hk];
          [apply String.eqb_eq in Hk; rewrite Hk; reflexivity |]).
  discriminate Hk.
Qed.

(** X9. Applying a token a second time changes nothing: but for a
    [debug_file=] token, which opens a sink at each application, the record
    is the one the first application left and the world is untouched. This
    is what makes the second scan of the arguments harmless. *)
Theorem cfg_load_arg_twice (w w' : world) (cfg : cfg_t) (tok : string) :
  is_debug_file tok = false ->
  cfg_load_arg w' (snd (cfg_load_arg w cfg tok)) tok
  = (w', snd (cfg_load_arg w cfg tok)).
Proof.
  unfold is_debug_file, cfg_load_arg, cfg_load_arg_debug. intros Hd.
  on_branches tok
    ltac:(cbv iota;
          try match goal with
              | |- context [sscanf_u ?a ?l] => destruct (sscanf_u a l)
              | |- context [sscanf_d ?a ?l] => destruct (sscanf_d a l)
              end;
          first [ congruence | destruct cfg; reflexivity ]).
Qed.

(** *** [slurp] *)

Section Slurping.

Local Open Scope Z_scope.

Lemma take_add (a b : nat) (s : string) :
  take (a + b) s = take a s ++ take b (skip a s).
Proof.
  revert s; induction a as [|a IH]; intros [|c s]; simpl; try reflexivity.
  - now rewrite take_nil.
  - now rewrite IH.
Qed.

Lemma skip_add (a b : nat) (s : string) : skip (a + b) s = skip b (skip a s).
Proof.
  revert s; induction a as [|a IH]; intros [|c s]; simpl; try reflexivity.
  - now rewrite skip_nil.
  - apply IH.
Qed.

Lemma take_take_length (n : nat) (s : string) :
  take (String.length (take n s)) s = take n s.
Proof.
  revert s; induction n as [|n IH]; intros [|c s]; simpl; try reflexivity.
  now rewrite IH.
Qed.

Lemma take_empty (n : nat) (s : string) : (0 < n)%nat -> take n s = "" -> s = "".
Proof. destruct n; [lia |]. destruct s; [reflexivity | discriminate]. Qed.

(** A read changes the descriptor table and the script of the reads. *)
Lemma read_frame (w : world) (fd : nat) (count : Z) :
  frame w (fst (read w fd count)) /\ w_next_ptr (fst (read w fd count)) = w_next_ptr w.
Proof.
  unfold read, frame.
  destruct (find fd (w_fds w)) as [[[] pos]|]; try (repeat split; reflexivity).
  destruct (w_reads w) as [|[|n] script]; repeat split; reflexivity.
Qed.

Lemma slurp_loop_frame (fuel : nat) :
  forall (w : world) (fd : nat) (to_read : Z) (acc : string),
    frame w (fst (slurp_loop fuel w fd to_read acc))
    /\ w_next_ptr (fst (slurp_loop fuel w fd to_read acc)) = w_next_ptr w.
Proof.
  induction fuel as [|fuel IH]; intros w fd to_read acc; simpl.
  - destruct (to_read =? 0); split; (apply frame_refl || reflexivity).
  - destruct (to_read =? 0); [split; (apply frame_refl || reflexivity) |].
    pose proof (read_frame w fd to_read) as [Hf Hp].
    destruct (read w fd to_read) as [w1 [bytes|]]; cbn [fst] in *;
      [| now split].
    destruct (Z.of_nat (String.length bytes) =? 0); [now split |].
    destruct (IH w1 fd (to_read - Z.of_nat (String.length bytes)) (acc ++ bytes))
      as [Hf' Hp'].
    split; [eapply frame_trans; eassumption | congruence].
Qed.

(** A read of a regular file that does not fail hands over a prefix of
    what the file holds from the offset on, of at least one byte if there
    is one. *)
Lemma read_succeeds (w : world) (fd : nat) (count : Z) (uid perm size : Z)
    (data : string) (pos : nat) :
  find fd (w_fds w) = Some (mk_ofile (Reg uid perm size data) pos) ->
  reads_succeed (w_reads w) = true -> 0 < count ->
  exists w1 limit,
    read w fd count = (w1, Some (take limit (skip pos data)))
    /\ (0 < limit <= Z.to_nat count)%nat
    /\ find fd (w_fds w1)
       = Some (mk_ofile (Reg uid perm size data)
                 (pos + String.length (take limit (skip pos data))))
    /\ reads_succeed (w_reads w1) = true.
Proof.
  intros Hfd Hr Hc. unfold read. rewrite Hfd.
  destruct (w_reads w) as [|[|n] script]; [| discriminate |].
  - exists (with_reads []
              (with_fds
                 ((fd, mk_ofile (Reg uid perm size data)
                         (pos + String.length (take (Z.to_nat count) (skip pos data))))
                    :: remove fd (w_fds w)) (w_next_fd w) w)),
      (Z.to_nat count).
    split; [reflexivity |]. split; [lia |].
    split; [| reflexivity].
    cbn [w_fds with_reads with_fds]. apply find_head.
  - exists (with_reads script
              (with_fds
                 ((fd, mk_ofile (Reg uid perm size data)
                         (pos + String.length
                                  (take (Nat.min (Z.to_nat count) (S n)) (skip pos data))))
                    :: remove fd (w_fds w)) (w_next_fd w) w)),
      (Nat.min (Z.to_nat count) (S n)).
    split; [reflexivity |]. split; [lia |].
    split; [| exact Hr].
    cbn [w_fds with_reads with_fds]. apply find_head.
Qed.

Lemma slurp_loop_content (fd : nat) (uid perm size : Z) (data : string) (fuel : nat) :
  forall (w : world) (pos : nat) (to_read : Z) (acc : string),
    0 <= to_read -> (Z.to_nat to_read <= fuel)%nat ->
    find fd (w_fds w) = Some (mk_ofile (Reg uid perm size data) pos) ->
    reads_succeed (w_reads w) = true ->
    snd (slurp_loop fuel w fd to_read acc)
    = Some (acc ++ take (Z.to_nat to_read) (skip pos data)).
Proof.
  induction fuel as [|fuel IH]; intros w pos to_read acc H0 Hf Hfd Hr.
  - assert (to_read = 0) as -> by lia. simpl. now rewrite string_app_nil_r.
  - cbn [slurp_loop]. destruct (to_read =? 0) eqn:Ez.
    + apply Z.eqb_eq in Ez; subst to_read. simpl. now rewrite string_app_nil_r.
    + apply Z.eqb_neq in Ez.
      destruct (read_succeeds w fd to_read uid perm size data pos Hfd Hr)
        as (w1 & limit & E & Hl & Hfd1 & Hr1); [lia |].
      rewrite E.
      set (bytes := take limit (skip pos data)) in *.
      pose proof (take_length_le limit (skip pos data)) as Hle. fold bytes in Hle.
      destruct (Z.of_nat (String.length bytes) =? 0) eqn:Eb.
      * apply Z.eqb_eq in Eb.
        assert (Hb : bytes = "") by (destruct bytes; [reflexivity | discriminate]).
        apply take_empty in Hb; [| lia]. rewrite Hb, take_nil.
        cbn [snd]. now rewrite string_app_nil_r.
      * apply Z.eqb_neq in Eb.
        rewrite (IH w1 (pos + String.length bytes)%nat _ _); try assumption; try lia.
        f_equal. rewrite string_app_assoc. f_equal.
        replace (Z.to_nat to_read)
          with (String.length bytes + Z.to_nat (to_read - Z.of_nat (String.length bytes)))%nat
          by lia.
        rewrite take_add, skip_add. subst bytes.
        now rewrite take_take_length.
Qed.

Lemma malloc_free (w : world) (size : Z) (w1 w2 : world) (p : nat) :
  malloc w size = (w1, Some p) ->
  frame w1 w2 ->
  frame w (free w2 (Some p)).
Proof.
  unfold malloc. destruct (size <=? w_mem w); [| discriminate].
  intros [= <- <-] (F0 & F1 & F2 & F3 & F4 & F5 & F6).
  cbn [w_root w_heap w_mem w_sinks w_next_sink w_log w_fault with_heap] in *.
  unfold free. rewrite F1, find_head, remove_head.
  unfold frame. cbn [w_root w_heap w_mem w_sinks w_next_sink w_log w_fault with_heap].
  repeat split; try assumption. lia.
Qed.

(** What [slurp] returns: all the cases. *)
Lemma slurp_cases (w : world) (fd : nat) (to_read : Z) :
  (to_read > CFG_MAX_FILE_SIZE /\ slurp w fd to_read = (w, PAM_SERVICE_ERR, None))
  \/ (to_read <= CFG_MAX_FILE_SIZE
      /\ (to_read + 1) mod (SIZE_MAX + 1) > w_mem w
      /\ slurp w fd to_read = (w, PAM_BUF_ERR, None))
  \/ (to_read <= CFG_MAX_FILE_SIZE
      /\ (to_read + 1) mod (SIZE_MAX + 1) <= w_mem w
      /\ ((exists w', slurp w fd to_read = (w', PAM_SYSTEM_ERR, None) /\ frame w w')
          \/ exists w' bytes,
               slurp w fd to_read = (w', PAM_SUCCESS, Some (w_next_ptr w, bytes))
               /\ snd (slurp_loop (Z.to_nat to_read)
                         (fst (malloc w ((to_read + 1) mod (SIZE_MAX + 1))))
                         fd to_read "") = Some bytes
               /\ w_heap w' = (w_next_ptr w, (to_read + 1) mod (SIZE_MAX + 1)) :: w_heap w
               /\ w_mem w' = w_mem w - (to_read + 1) mod (SIZE_MAX + 1)
               /\ w_fault w' = w_fault w
               /\ sink_state w' = sink_state w)).
Proof.
  unfold slurp.
  destruct (to_read >? CFG_MAX_FILE_SIZE) eqn:E1.
  { left. split; [now apply Z.gtb_lt in E1; lia | reflexivity]. }
  right. assert (H1 : to_read <= CFG_MAX_FILE_SIZE)
    by (destruct (Z.gtb_spec to_read CFG_MAX_FILE_SIZE); [discriminate | lia]).
  set (size := (to_read + 1) mod (SIZE_MAX + 1)).
  destruct (malloc w size) as [w1 [buffer|]] eqn:Em.
  2:{ left. unfold malloc in Em.
      destruct (size <=? w_mem w) eqn:E2; [discriminate |].
      injection Em as <-. apply Z.leb_gt in E2.
      repeat split; [exact H1 | lia]. }
  right.
  assert (H2 : size <= w_mem w).
  { unfold malloc in Em. destruct (size <=? w_mem w) eqn:E2; [| discriminate].
    now apply Z.leb_le. }
  split; [exact H1 | split; [exact H2 |]].
  pose proof (slurp_loop_frame (Z.to_nat to_read) w1 fd to_read "") as [Hf Hp].
  destruct (slurp_loop (Z.to_nat to_read) w1 fd to_read "") as [w2 [bytes|]] eqn:El;
    cbn [fst snd] in *.
  - right. exists w2, bytes.
    unfold malloc in Em. apply Z.leb_le in H2. rewrite H2 in Em.
    injection Em as <- <-.
    destruct Hf as (F0 & F1 & F2 & F3 & F4 & F5 & F6).
    cbn [w_root w_heap w_mem w_sinks w_next_sink w_log w_fault with_heap] in *.
    unfold sink_state. rewrite F3, F4, F5.
    repeat split; try assumption. now rewrite El.
  - left. exists (free w2 (Some buffer)).
    split; [reflexivity |]. exact (malloc_free w size w1 w2 buffer Em Hf).
Qed.

End Slurping.

Lemma slurp_content (w : world) (fd : nat) (to_read : Z)
    (uid perm size : Z) (data : string) (pos : nat) :
  (0 <= to_read <= CFG_MAX_FILE_SIZE)%Z ->
  ((to_read + 1) mod (SIZE_MAX + 1) <= w_mem w)%Z ->
  find fd (w_fds w) = Some (mk_ofile (Reg uid perm size data) pos) ->
  reads_succeed (w_reads w) = true ->
  exists w',
    slurp w fd to_read
    = (w', PAM_SUCCESS, Some (w_next_ptr w, take (Z.to_nat to_read) (skip pos data)))
    /\ w_heap w' = (w_next_ptr w, ((to_read + 1) mod (SIZE_MAX + 1))%Z) :: w_heap w
    /\ sink_state w' = sink_state w.
Proof.
  intros [H0 H1] H2 Hfd Hr.
  assert (E : snd (slurp_loop (Z.to_nat to_read)
                     (fst (malloc w ((to_read + 1) mod (SIZE_MAX + 1))%Z))
                     fd to_read "")
              = Some (take (Z.to_nat to_read) (skip pos data))).
  { change (take (Z.to_nat to_read) (skip pos data))
      with ("" ++ take (Z.to_nat to_read) (skip pos data)).
    apply (slurp_loop_content fd uid perm size data); try assumption; try lia;
      unfold malloc; destruct (_ <=? _)%Z; assumption. }
  destruct (slurp_cases w fd to_read)
    as [[Hc _] | [(_ & Hc & _)
                 | (_ & _ & [(w' & Hs & _)
                            | (w' & bytes & Hs & Hb & Hh & _ & _ & Hk)])]];
    try lia.
  - exfalso. unfold slurp in Hs.
    destruct (to_read >? CFG_MAX_FILE_SIZE)%Z; [discriminate |].
    destruct (malloc w ((to_read + 1) mod (SIZE_MAX + 1))%Z) as [w1 [b|]];
      [| discriminate].
    cbn [fst] in E.
    destruct (slurp_loop (Z.to_nat to_read) w1 fd to_read "") as [w2 [bs|]];
      discriminate.
  - exists w'. rewrite E in Hb. injection Hb as <-. now repeat split.
Qed.

(** X10. [slurp] hands back the content of the file however the reads deliver
    it: when the size is within the limit, the buffer can be allocated and
    no read fails, it returns [PAM_SUCCESS] and a new buffer that holds the
    first [to_read] bytes from the offset of the descriptor on, or all the
    bytes there are when the file ends before: an early end of the data is
    no error. *)
Theorem slurp_reads_content (w : world) (fd : nat) (to_read : Z)
    (uid perm size : Z) (data : string) (pos : nat) :
  (0 <= to_read <= CFG_MAX_FILE_SIZE)%Z ->
  ((to_read + 1) mod (SIZE_MAX + 1) <= w_mem w)%Z ->
  find fd (w_fds w) = Some (mk_ofile (Reg uid perm size data) pos) ->
  reads_succeed (w_reads w) = true ->
  exists w',
    slurp w fd to_read
    = (w', PAM_SUCCESS, Some (w_next_ptr w, take (Z.to_nat to_read) (skip pos data)))
    /\ w_heap w' = (w_next_ptr w, ((to_read + 1) mod (SIZE_MAX + 1))%Z) :: w_heap w.
Proof.
  intros H0 H2 Hfd Hr.
  destruct (slurp_content w fd to_read uid perm size data pos H0 H2 Hfd Hr)
    as (w' & Hs & Hh & _).
  now exists w'.
Qed.

(** X11. [slurp] fails in three ways and leaks in none: a size over the limit
    gives [PAM_SERVICE_ERR] and a buffer that cannot be allocated gives
    [PAM_BUF_ERR], both with nothing done; otherwise the failure is a read
    that failed, the code is [PAM_SYSTEM_ERR] and the buffer has been freed.
    In every case no buffer is handed back and the heap, the memory left
    and the sinks are as they were. *)
Theorem slurp_failure_releases (w : world) (fd : nat) (to_read : Z) :
  forall w' r dst,
    slurp w fd to_read = (w', r, dst) -> r <> PAM_SUCCESS ->
    dst = None /\ frame w w'
    /\ ((r = PAM_SERVICE_ERR /\ (to_read > CFG_MAX_FILE_SIZE)%Z /\ w' = w)
        \/ (r = PAM_BUF_ERR /\ (to_read <= CFG_MAX_FILE_SIZE)%Z
            /\ ((to_read + 1) mod (SIZE_MAX + 1) > w_mem w)%Z /\ w' = w)
        \/ (r = PAM_SYSTEM_ERR /\ (to_read <= CFG_MAX_FILE_SIZE)%Z
            /\ ((to_read + 1) mod (SIZE_MAX + 1) <= w_mem w)%Z)).
Proof.
  intros w' r dst H Hr.
  destruct (slurp_cases w fd to_read)
    as [[Hc Hs] | [(H1 & Hc & Hs)
                  | (H1 & H2 & [(w1 & Hs & Hf) | (w1 & bytes & Hs & _)])]];
    rewrite Hs in H; injection H as <- <- <-.
  - split; [reflexivity | split; [apply frame_refl | now left]].
  - split; [reflexivity | split; [apply frame_refl | right; now left]].
  - split; [reflexivity | split; [exact Hf | right; now right]].
  - now elim Hr.
Qed.

(** *** [open_safely] *)

Section Opening.

Lemma entry_irregular_denied (rest : list string) :
  forall (dir : node) (p : string) (f : node),
    Spec.entry dir (p :: rest) = Some f -> Spec.is_reg f = false ->
    Spec.open_trusted_from PAM_U2F_TESTING dir p rest = Spec.Denied.
Proof.
  induction rest as [|c rest IH]; intros dir p f He Hr;
    destruct dir as [u m entries | | |]; try reflexivity;
    cbn [Spec.entry Spec.open_trusted_from] in *;
    destruct (lookup p entries) as [n|]; try discriminate.
  - injection He as ->. now rewrite Hr.
  - destruct (follow n) as [d|]; [| discriminate].
    destruct (Spec.is_dir d && Spec.trusted PAM_U2F_TESTING d); [| reflexivity].
    now apply (IH d c f).
Qed.

Lemma absent_missing (rest : list string) :
  forall (dir : node) (p : string),
    Spec.open_trusted_from PAM_U2F_TESTING dir p rest = Spec.Absent ->
    Spec.missing dir (p :: rest) = true.
Proof.
  induction rest as [|c rest IH]; intros dir p;
    destruct dir as [u m entries | | |]; try discriminate;
    cbn [Spec.missing Spec.open_trusted_from];
    destruct (lookup p entries) as [n|]; try reflexivity.
  - destruct (Spec.is_reg n && Spec.trusted PAM_U2F_TESTING n); discriminate.
  - destruct (follow n) as [d|]; [| reflexivity].
    destruct (Spec.is_dir d && Spec.trusted PAM_U2F_TESTING d); [| discriminate].
    apply IH.
Qed.

(** The outcome of [open_safely] on a path that passes the first test and
    can be copied, by the cases of the walk. *)
Lemma open_safely_outcome (w : world) (path : string) :
  Spec.well_formed path = true -> strdup_fits w path = true ->
  forall w' r outfd size,
    open_safely w path = (w', r, outfd, size) ->
    match Spec.open_trusted PAM_U2F_TESTING (w_root w) path with
    | Spec.Absent => r = PAM_SUCCESS /\ outfd = None /\ size = 0%Z
    | Spec.Denied => r = PAM_SERVICE_ERR /\ outfd = None /\ size = 0%Z
    | Spec.Opened f =>
        r = PAM_SUCCESS
        /\ size = (st_size (node_stat f) mod (SIZE_MAX + 1))%Z
        /\ exists fd, outfd = Some fd /\ w_next_fd w <= fd
                      /\ w_fds w' = (fd, mk_ofile f 0) :: w_fds w
    end.
Proof.
  intros Hwf Hfit w' r outfd size H.
  destruct (open_safely_refines w path Hwf Hfit) as (n' & _ & Hr).
  destruct (Spec.open_trusted PAM_U2F_TESTING (w_root w) path) as [| | f].
  - rewrite Hr in H. injection H as <- <- <- <-. now repeat split.
  - rewrite Hr in H. injection H as <- <- <- <-. now repeat split.
  - destruct Hr as (fd & Hfd & Hr). rewrite Hr in H. injection H as <- <- <- <-.
    split; [reflexivity | split; [reflexivity |]].
    exists fd. split; [reflexivity | split; [lia | reflexivity]].
Qed.

End Opening.

(** X12. [open_safely] keeps nothing but the descriptor it hands out:
    whatever it returns, the copy of the path is freed and the descriptors
    of the directories on the way are closed, so that the heap is as
    before and the descriptor table is the one before with, when a file is
    opened, a descriptor for it at offset 0 on top; a descriptor is handed
    out only with [PAM_SUCCESS]. *)
Theorem open_safely_keeps_only_the_file (w : world) (path : string) :
  forall w' r outfd size,
    open_safely w path = (w', r, outfd, size) ->
    frame w w'
    /\ match outfd with
       | Some fd =>
           r = PAM_SUCCESS /\ exists f, w_fds w' = (fd, mk_ofile f 0) :: w_fds w
       | None => w_fds w' = w_fds w
       end.
Proof. exact (open_safely_world w path). Qed.

(** X13. [open_safely] refuses a path that is empty, relative, or ends
    with a separator with [PAM_SERVICE_ERR], before it copies the path or
    opens anything: the world is untouched. [cfg_load_defaults] on such a
    path returns that code with the world and the record as they were. *)
Theorem open_safely_rejects_ill_formed (w : world) (path : string) :
  path = ""
  \/ String.get 0 path <> Some "/"%char
  \/ String.get (String.length path - 1) path = Some "/"%char ->
  fst (fst (fst (open_safely w path))) = w
  /\ snd (fst (fst (open_safely w path))) = PAM_SERVICE_ERR
  /\ forall cfg, cfg_load_defaults w cfg (Some path) = (w, PAM_SERVICE_ERR, cfg).
Proof.
  intros H.
  assert (Hwf : Spec.well_formed path = false).
  { unfold Spec.well_formed.
    destruct H as [-> | [H | H]]; [reflexivity | |].
    - destruct (String.get 0 path) as [c|]; [| reflexivity].
      cbn [is_char]. destruct (Ascii.eqb c "/") eqn:E; [| reflexivity].
      apply Ascii.eqb_eq in E. now subst c.
    - rewrite H. cbn [is_char]. rewrite Ascii.eqb_refl. apply andb_false_r. }
  unfold cfg_load_defaults. rewrite (open_safely_ill_formed w path Hwf).
  split; [reflexivity | split; reflexivity].
Qed.

(** X14. The last component has to be a regular file: when the path names
    a symbolic link (also one that leads to a trusted regular file) or a
    directory, [open_safely] fails with [PAM_SERVICE_ERR] and hands out no
    descriptor. *)
Theorem open_safely_rejects_irregular (w : world) (path : string) (f : node) :
  Spec.well_formed path = true -> strdup_fits w path = true ->
  Spec.entry (w_root w) (strtok_all path "/") = Some f ->
  is_lnk f || Spec.is_dir f = true ->
  exists w', open_safely w path = (w', PAM_SERVICE_ERR, None, 0%Z).
Proof.
  intros Hwf Hfit He Hk.
  assert (Hr : Spec.is_reg f = false) by (now destruct f).
  destruct (open_safely w path) as [[[w' r] outfd] size] eqn:H.
  pose proof (open_safely_outcome w path Hwf Hfit _ _ _ _ H) as Ho.
  unfold Spec.open_trusted in Ho. rewrite Hwf in Ho.
  destruct (strtok_all path "/") as [|p rest]; [discriminate |].
  assert (Hd : match w_root w with
               | Dir _ _ _ =>
                   Spec.open_trusted_from PAM_U2F_TESTING (w_root w) p rest
               | _ => Spec.Denied
               end = Spec.Denied).
  { destruct (w_root w) eqn:E; try reflexivity.
    now apply (entry_irregular_denied rest _ p f). }
  rewrite Hd in Ho. destruct Ho as (-> & -> & ->). now exists w'.
Qed.

Lemma open_safely_absent (w : world) (path : string) :
  forall w' size,
    open_safely w path = (w', PAM_SUCCESS, None, size) ->
    Spec.missing (w_root w) (strtok_all path "/") = true.
Proof.
  intros w' size H.
  destruct (Spec.well_formed path) eqn:Hwf.
  2:{ rewrite open_safely_ill_formed in H by exact Hwf. discriminate H. }
  destruct (strdup_fits w path) eqn:Hfit.
  2:{ rewrite open_safely_no_memory in H by assumption. discriminate H. }
  pose proof (open_safely_outcome w path Hwf Hfit _ _ _ _ H) as Ho.
  unfold Spec.open_trusted in Ho. rewrite Hwf in Ho.
  destruct (strtok_all path "/") as [|p rest]; [now destruct Ho |].
  destruct (w_root w) as [u m e | | |] eqn:E; try (now destruct Ho).
  destruct (Spec.open_trusted_from PAM_U2F_TESTING (Dir u m e) p rest) eqn:Hw.
  - now apply absent_missing.
  - now destruct Ho.
  - destruct Ho as (_ & _ & fd & Hfd & _). discriminate Hfd.
Qed.

(** X15. [open_safely] reports a file as absent only when it is: a return of
    [PAM_SUCCESS] without a descriptor means that a component of the path
    is not there (or a symbolic link on the way dangles). A file that
    exists is opened or refused. *)
Theorem open_safely_absent_is_missing (w : world) (path : string) :
  forall w' size,
    open_safely w path = (w', PAM_SUCCESS, None, size) ->
    Spec.missing (w_root w) (strtok_all path "/") = true.
Proof. exact (open_safely_absent w path). Qed.

(** *** What a loaded record owns *)

Section Ownership.

Local Open Scope Z_scope.

Lemma cfg_load_defaults_owns (w : world) (cfg : cfg_t) (config_path : option string)
    (S0 : list nat) :
  forall w' cfg',
    cfg_load_defaults w cfg config_path = (w', PAM_SUCCESS, cfg') ->
    defaults_buffer cfg = None ->
    w_sinks w = (owned_sinks cfg ++ S0)%list ->
    w_fds w' = w_fds w /\ w_fault w' = w_fault w
    /\ w_sinks w' = (owned_sinks cfg' ++ S0)%list
    /\ owns_buffer cfg' (w_heap w) (w_heap w') (w_mem w) (w_mem w').
Proof.
  intros w' cfg' H Hb Hs. unfold owned_sinks, owns_buffer in *.
  unfold cfg_load_defaults in H.
  set (path := match config_path with Some p => p | None => CFG_DEFAULT_PATH end) in H.
  destruct (open_safely w path) as [[[w1 r1] fd] fsize] eqn:Ho.
  apply open_safely_world in Ho as [(F0 & F1 & F2 & F3 & F4 & F5 & F6) Hfd].
  destruct (is_success r1) eqn:Hr1; cbn [negb] in H.
  2:{ injection H as _ E _. rewrite E in Hr1. discriminate Hr1. }
  destruct fd as [fd|].
  2:{ destruct config_path; [discriminate H |]. injection H as <- <-.
      rewrite Hb. repeat split; congruence. }
  destruct Hfd as (_ & f & Hfd).
  destruct (fsize =? 0).
  { injection H as <- <-.
    rewrite (reading_eta w1 fd _ _ Hfd), close_reading.
    cbn [w_fds w_fault w_sinks w_heap w_mem with_reads with_fds].
    rewrite Hb. repeat split; congruence. }
  destruct (slurp w1 fd fsize) as [[w2 r2] dst] eqn:Hsl.
  destruct (slurp_world w1 fd _ _ fsize Hfd _ _ _ Hsl) as (f' & script' & np & Hw2).
  destruct dst as [[buffer bytes]|].
  2:{ destruct Hw2 as (Hr2 & _).
      replace (negb (is_success r2)) with true in H by (now destruct r2).
      injection H as _ E _. now elim Hr2. }
  destruct Hw2 as (-> & _ & size & ->). cbn [is_success negb] in H.
  set (w2 := reading _ _ _ _ _) in H.
  pose proof (cfg_load_lines_frame (strtok_all (c_str bytes) (String "010" "")) w2 cfg)
    as Hf.
  pose proof (cfg_load_lines_sinks (strtok_all (c_str bytes) (String "010" "")) w2 cfg S0)
    as Hk.
  unfold cfg_load_buffer in H.
  destruct (cfg_load_lines w2 cfg _) as [w3 cfg3]. cbn [fst] in Hf.
  destruct Hk as (K1 & _ & K3).
  { subst w2. cbn [w_sinks reading with_reads with_fds with_heap]. congruence. }
  injection H as <- <-. cbn [free]. rewrite Hf. subst w2.
  unfold close, reading.
  cbn [w_fds with_sinks with_reads with_fds with_heap].
  rewrite find_head, remove_head.
  cbn [w_fds w_fault w_sinks w_heap w_mem with_sinks with_reads with_fds with_heap].
  rewrite debug_file_set_defaults_buffer.
  split; [reflexivity | split; [exact F6 | split; [exact K1 |]]].
  destruct cfg3; cbn [defaults_buffer set_defaults_buffer].
  exists size. split; congruence.
Qed.

Lemma cfg_init_owns (w : world) (cfg : cfg_t) (flags : Z) (argv : list string) :
  forall w' cfg',
    cfg_init w cfg flags argv = (w', PAM_SUCCESS, cfg') ->
    w_fds w' = w_fds w /\ w_fault w' = w_fault w
    /\ w_sinks w' = (owned_sinks cfg' ++ w_sinks w)%list
    /\ owns_buffer cfg' (w_heap w) (w_heap w') (w_mem w) (w_mem w').
Proof.
  intros w' cfg' H.
  destruct (early_scan w (cfg_reset cfg) None argv) as [[w1 cfg1] cp] eqn:H1.
  destruct (cfg_load_defaults w1 cfg1 cp) as [[w2 r2] cfg2] eqn:H2.
  rewrite (cfg_init_phases w cfg flags argv _ _ _ _ _ _ H1 H2) in H.
  destruct (is_success r2) eqn:Hs.
  2:{ cbv zeta in H. unfold cfg_free in H. injection H as _ E _.
      rewrite E in Hs. discriminate Hs. }
  destruct r2; try discriminate Hs.
  pose proof (early_scan_sinks argv w (cfg_reset cfg) None (w_sinks w) eq_refl) as He.
  rewrite H1 in He. destruct He as (He1 & _ & He3).
  pose proof (early_scan_frame argv w (cfg_reset cfg) None) as Hf1.
  rewrite H1 in Hf1. cbn [fst] in Hf1.
  apply sink_frame_frame in Hf1 as (_ & F1 & F2 & F3 & F4).
  destruct (cfg_load_defaults_owns w1 cfg1 cp (w_sinks w) _ _ H2 He3 He1)
    as (G1 & G2 & G3 & G4).
  pose proof (full_scan_sinks argv w2 cfg2 (w_sinks w) G3) as Hk.
  pose proof (full_scan_frame argv w2 cfg2) as Hf3.
  destruct (full_scan w2 cfg2 argv) as [w3 cfg3]. cbn [fst] in Hf3.
  destruct Hk as (K1 & _ & K3).
  apply sink_frame_frame in Hf3 as (_ & L1 & L2 & L3 & L4).
  injection H as <- <-.
  assert (Hd : forall wd, sink_frame w3 wd -> w_sinks wd = w_sinks w3 ->
            w_fds wd = w_fds w /\ w_fault wd = w_fault w
            /\ w_sinks wd = (owned_sinks cfg3 ++ w_sinks w)%list
            /\ owns_buffer cfg3 (w_heap w) (w_heap wd) (w_mem w) (w_mem wd)).
  { intros wd Hfd Hsd.
    apply sink_frame_frame in Hfd as (_ & M1 & M2 & M3 & M4).
    split; [congruence | split; [congruence | split; [rewrite Hsd; exact K1 |]]].
    unfold owns_buffer in *. rewrite K3, M2, M3, L2, L3.
    rewrite F2, F3 in G4. exact G4. }
  destruct (negb (debug cfg3 =? 0)).
  - apply Hd; [apply sink_frame_debug_dump | reflexivity].
  - apply Hd; [apply sink_frame_refl | reflexivity].
Qed.

Lemma cfg_free_owned (w0 w : world) (cfg : cfg_t) :
  w_sinks w = (owned_sinks cfg ++ w_sinks w0)%list ->
  owns_buffer cfg (w_heap w0) (w_heap w) (w_mem w0) (w_mem w) ->
  w_fds (fst (cfg_free w cfg)) = w_fds w
  /\ w_heap (fst (cfg_free w cfg)) = w_heap w0
  /\ w_mem (fst (cfg_free w cfg)) = w_mem w0
  /\ w_sinks (fst (cfg_free w cfg)) = w_sinks w0
  /\ w_fault (fst (cfg_free w cfg)) = w_fault w.
Proof.
  intros Hs Hb. unfold cfg_free, owns_buffer in *. cbn [fst].
  pose proof (debug_close_held w (debug_file cfg) (w_sinks w0) Hs) as Hc.
  pose proof (sink_frame_debug_close w (debug_file cfg)) as Hf.
  apply sink_frame_frame in Hf as (_ & C1 & C2 & C3 & C4).
  set (w1 := debug_close w (debug_file cfg)) in *.
  destruct (defaults_buffer cfg) as [p|].
  - destruct Hb as (size & Hh & Hm). unfold free.
    rewrite C2, Hh, find_head, remove_head.
    cbn [w_fds w_heap w_mem w_sinks w_fault with_heap].
    repeat split; try assumption. rewrite C3, Hm. lia.
  - destruct Hb as (Hh & Hm). cbn [free]. repeat split; congruence.
Qed.

End Ownership.

(** X16. After a load that succeeds the record owns what the load has taken
    and nothing else is held: the descriptors are those of the start, the
    sinks held are those of the start and the sink of the record, and the
    heap is that of the start and the buffer of the record, when it has
    one. *)
Theorem cfg_init_record_owns_resources (w : world) (cfg : cfg_t) (flags : Z)
    (argv : list string) :
  forall w' cfg',
    cfg_init w cfg flags argv = (w', PAM_SUCCESS, cfg') ->
    w_fds w' = w_fds w /\ w_fault w' = w_fault w
    /\ w_sinks w' = (owned_sinks cfg' ++ w_sinks w)%list
    /\ owns_buffer cfg' (w_heap w) (w_heap w') (w_mem w) (w_mem w').
Proof. exact (cfg_init_owns w cfg flags argv). Qed.

(** X17. [cfg_init] followed by [cfg_free] leaks nothing, whether the load
    succeeds or fails: the descriptors, the heap, the memory left and the
    sinks held are those before the load, no stale descriptor or pointer
    has been released, and the record is reset. *)
Theorem cfg_init_then_free_is_neutral (w : world) (cfg : cfg_t) (flags : Z)
    (argv : list string) :
  let w1 := fst (fst (cfg_init w cfg flags argv)) in
  let cfg1 := snd (cfg_init w cfg flags argv) in
  snd (cfg_free w1 cfg1) = cfg_reset cfg
  /\ w_fds (fst (cfg_free w1 cfg1)) = w_fds w
  /\ w_heap (fst (cfg_free w1 cfg1)) = w_heap w
  /\ w_mem (fst (cfg_free w1 cfg1)) = w_mem w
  /\ w_sinks (fst (cfg_free w1 cfg1)) = w_sinks w
  /\ w_fault (fst (cfg_free w1 cfg1)) = w_fault w.
Proof.
  cbv zeta.
  destruct (cfg_init w cfg flags argv) as [[w1 r] cfg1] eqn:H. cbn [fst snd].
  split; [reflexivity |].
  destruct r.
  - destruct (cfg_init_owns w cfg flags argv _ _ H) as (A1 & A2 & A3 & A4).
    destruct (cfg_free_owned w w1 cfg1 A3 A4) as (B1 & B2 & B3 & B4 & B5).
    repeat split; congruence.
  - destruct (cfg_init_failed w cfg flags argv _ _ _ H) as (-> & A); [discriminate |].
    rewrite cfg_free_reset. cbn [fst]. exact A.
  - destruct (cfg_init_failed w cfg flags argv _ _ _ H) as (-> & A); [discriminate |].
    rewrite cfg_free_reset. cbn [fst]. exact A.
  - destruct (cfg_init_failed w cfg flags argv _ _ _ H) as (-> & A); [discriminate |].
    rewrite cfg_free_reset. cbn [fst]. exact A.
Qed.

(** *** [cfg_load_defaults] on a file that is there *)

Section FileLoading.

Local Open Scope Z_scope.

Lemma settled_fields (w : world) (fds : list (nat * ofile)) (n : nat) :
  w_fds (settled w fds n) = fds /\ w_mem (settled w fds n) = w_mem w
  /\ w_reads (settled w fds n) = w_reads w
  /\ w_next_ptr (settled w fds n) = S (w_next_ptr w)
  /\ sink_state (settled w fds n) = sink_state w.
Proof. repeat split. Qed.

(** X18. [cfg_load_defaults] loads the file it is given: when the path leads
    through trusted directories to a trusted regular file whose size is
    positive and within the limit, the buffer can be allocated and no read
    fails, it returns [PAM_SUCCESS], the text it applies is the first [size]
    bytes of the file up to a NUL byte if there is one, and the record is
    the one the lines of that text give, with the buffer retained. *)
Theorem cfg_load_defaults_reads_file (w : world) (cfg : cfg_t)
    (config_path : option string) (uid perm size : Z) (data : string) :
  let path := match config_path with Some p => p | None => CFG_DEFAULT_PATH end in
  Spec.well_formed path = true -> strdup_fits w path = true ->
  Spec.open_trusted PAM_U2F_TESTING (w_root w) path
  = Spec.Opened (Reg uid perm size data) ->
  0 < size <= CFG_MAX_FILE_SIZE -> size < SIZE_MAX -> size + 1 <= w_mem w ->
  reads_succeed (w_reads w) = true ->
  config_text w config_path = c_str (take (Z.to_nat size) data)
  /\ exists w' wx,
       sink_state wx = sink_state w
       /\ cfg_load_defaults w cfg config_path
          = (w', PAM_SUCCESS,
             set_defaults_buffer (Some (S (w_next_ptr w)))
               (snd (cfg_load_buffer wx cfg (c_str (take (Z.to_nat size) data))))).
Proof.
  intros path Hwf Hfit Ho Hsz Hmax Hmem Hr.
  destruct (open_safely_refines w path Hwf Hfit) as (n' & _ & Hop).
  rewrite Ho in Hop. destruct Hop as (fd & _ & Hop).
  cbn [node_stat st_size] in Hop.
  assert (Hs1 : SIZE_MAX + 1 = 2 ^ 64) by reflexivity.
  rewrite (Z.mod_small size) in Hop by lia.
  set (w1 := settled w ((fd, mk_ofile (Reg uid perm size data) 0) :: w_fds w) n') in *.
  destruct (settled_fields w ((fd, mk_ofile (Reg uid perm size data) 0) :: w_fds w) n')
    as (S1 & S2 & S3 & S4 & S5). fold w1 in S1, S2, S3, S4, S5.
  destruct (slurp_content w1 fd size uid perm size data 0) as (w2 & Hsl & _ & Hk).
  - lia.
  - rewrite S2, Z.mod_small by lia. lia.
  - rewrite S1. apply find_head.
  - now rewrite S3.
  - cbn [skip] in Hsl. rewrite S4 in Hsl.
    assert (Hz : (size =? 0) = false) by (apply Z.eqb_neq; lia).
    split.
    + unfold config_text. fold path. rewrite Hop. cbn [is_success andb negb].
      rewrite Hz. cbn [negb]. now rewrite Hsl.
    + unfold cfg_load_defaults. fold path. rewrite Hop. cbn [is_success negb].
      rewrite Hz, Hsl. cbn [is_success negb].
      destruct (cfg_load_buffer w2 cfg (c_str (take (Z.to_nat size) data)))
        as [w3 cfg3] eqn:Hb.
      eexists. exists w2. split; [congruence |]. now rewrite Hb.
Qed.

End FileLoading.


(** *** The dump of the record *)

Section Dumping.

Local Open Scope Z_scope.

Lemma cfg_load_arg_debug_flag (w : world) (cfg : cfg_t) (arg : string) :
  debug (snd (cfg_load_arg_debug w cfg arg))
  = if strcmp_eq arg "debug" then 1 else debug cfg.
Proof.
  unfold cfg_load_arg_debug.
  destruct (strcmp_eq arg "debug"); [now destruct cfg |].
  destruct (strncmp_eq arg "debug_file="); [now destruct cfg | reflexivity].
Qed.

Lemma cfg_load_arg_flag (w : world) (cfg : cfg_t) (arg : string) :
  debug (snd (cfg_load_arg w cfg arg))
  = if strcmp_eq arg "debug" then 1 else debug cfg.
Proof.
  destruct (strcmp_eq arg "debug") eqn:E.
  - apply String.eqb_eq in E. subst arg. reflexivity.
  - pose proof (cfg_load_arg_debug_flag w cfg arg) as Hd. rewrite E in Hd.
    unfold cfg_load_arg.
    repeat split_test; try (destruct cfg; reflexivity). exact Hd.
Qed.

Lemma conf_is_not_debug (arg : string) :
  strncmp_eq arg "conf=" = true -> strcmp_eq arg "debug" = false.
Proof. intros H. apply starts_with_ex in H as [rest ->]. reflexivity. Qed.

Lemma full_scan_flag (argv : list string) :
  forall (w : world) (cfg : cfg_t),
    debug (snd (full_scan w cfg argv)) = if asks_debug argv then 1 else debug cfg.
Proof.
  induction argv as [|arg argv IH]; intros w cfg; [reflexivity |].
  cbn [full_scan asks_debug existsb]. fold (asks_debug argv).
  destruct (strncmp_eq arg "conf=") eqn:E.
  - rewrite (conf_is_not_debug arg E). apply IH.
  - pose proof (cfg_load_arg_flag w cfg arg) as Hd.
    destruct (cfg_load_arg w cfg arg) as [w1 cfg1]. cbn [snd] in Hd.
    rewrite IH, Hd.
    destruct (strcmp_eq arg "debug"), (asks_debug argv); reflexivity.
Qed.

Lemma early_scan_flag (argv : list string) :
  forall (w : world) (cfg : cfg_t) (cp : option string),
    debug (snd (fst (early_scan w cfg cp argv)))
    = if asks_debug argv then 1 else debug cfg.
Proof.
  induction argv as [|arg argv IH]; intros w cfg cp; [reflexivity |].
  cbn [early_scan asks_debug existsb]. fold (asks_debug argv).
  destruct (strncmp_eq arg "conf=") eqn:E.
  - rewrite (conf_is_not_debug arg E). apply IH.
  - pose proof (cfg_load_arg_debug_flag w cfg arg) as Hd.
    destruct (cfg_load_arg_debug w cfg arg) as [w1 cfg1]. cbn [snd] in Hd.
    rewrite IH, Hd.
    destruct (strcmp_eq arg "debug"), (asks_debug argv); reflexivity.
Qed.

Lemma cfg_load_arg_debug_dumps (w : world) (cfg : cfg_t) (arg : string) :
  debug_dumps (w_log (fst (cfg_load_arg_debug w cfg arg))) = debug_dumps (w_log w).
Proof.
  unfold cfg_load_arg_debug.
  repeat split_test; try reflexivity.
  now destruct (debug_file cfg).
Qed.

Lemma cfg_load_arg_dumps (w : world) (cfg : cfg_t) (arg : string) :
  debug_dumps (w_log (fst (cfg_load_arg w cfg arg))) = debug_dumps (w_log w).
Proof.
  unfold cfg_load_arg.
  repeat split_test; try reflexivity. apply cfg_load_arg_debug_dumps.
Qed.

Lemma full_scan_dumps (argv : list string) :
  forall (w : world) (cfg : cfg_t),
    debug_dumps (w_log (fst (full_scan w cfg argv))) = debug_dumps (w_log w).
Proof.
  induction argv as [|arg argv IH]; intros w cfg; [reflexivity |].
  cbn [full_scan]. destruct (strncmp_eq arg "conf="); [apply IH |].
  pose proof (cfg_load_arg_dumps w cfg arg) as Hd.
  destruct (cfg_load_arg w cfg arg) as [w1 cfg1]. cbn [fst] in Hd.
  now rewrite IH.
Qed.

Lemma early_scan_dumps (argv : list string) :
  forall (w : world) (cfg : cfg_t) (cp : option string),
    debug_dumps (w_log (fst (fst (early_scan w cfg cp argv)))) = debug_dumps (w_log w).
Proof.
  induction argv as [|arg argv IH]; intros w cfg cp; [reflexivity |].
  cbn [early_scan]. destruct (strncmp_eq arg "conf="); [apply IH |].
  pose proof (cfg_load_arg_debug_dumps w cfg arg) as Hd.
  destruct (cfg_load_arg_debug w cfg arg) as [w1 cfg1]. cbn [fst] in Hd.
  now rewrite IH.
Qed.

Lemma free_log (w : world) (p : option nat) : w_log (free w p) = w_log w.
Proof.
  destruct p as [p|]; [| reflexivity].
  unfold free. now destruct (find p (w_heap w)).
Qed.

Lemma sink_state_log (w w' : world) : sink_state w' = sink_state w -> w_log w' = w_log w.
Proof. unfold sink_state. congruence. Qed.

(** The file phase: the flag it leaves and the log. *)
Lemma cfg_load_defaults_flag (w : world) (cfg : cfg_t) (config_path : option string) :
  forall w' r cfg',
    cfg_load_defaults w cfg config_path = (w', r, cfg') ->
    debug_dumps (w_log w') = debug_dumps (w_log w)
    /\ debug cfg' = if asks_debug (buffer_tokens (config_text w config_path))
                    then 1 else debug cfg.
Proof.
  intros w' r cfg' H. destruct r.
  - destruct (cfg_load_defaults_loaded w cfg config_path _ _ H)
      as (wx & b & Hx & -> & Hw).
    apply sink_state_log in Hx, Hw. rewrite Hw.
    unfold cfg_load_buffer. rewrite !cfg_load_lines_full_scan.
    fold (buffer_tokens (config_text w config_path)).
    rewrite full_scan_dumps, Hx. split; [reflexivity |].
    rewrite <- full_scan_flag with (w := wx).
    now destruct (snd (full_scan wx cfg _)).
  - destruct (cfg_load_defaults_failed w cfg config_path _ _ _ H)
      as (-> & (_ & _ & _ & _ & _ & F5 & _) & _); [discriminate |].
    rewrite F5. split; [reflexivity |].
    destruct (string_dec (config_text w config_path) "") as [-> | Hn];
      [reflexivity |].
    destruct (cfg_load_defaults_text w cfg config_path Hn) as (wa & ca & Ha).
    rewrite Ha in H. discriminate H.
  - destruct (cfg_load_defaults_failed w cfg config_path _ _ _ H)
      as (-> & (_ & _ & _ & _ & _ & F5 & _) & _); [discriminate |].
    rewrite F5. split; [reflexivity |].
    destruct (string_dec (config_text w config_path) "") as [-> | Hn];
      [reflexivity |].
    destruct (cfg_load_defaults_text w cfg config_path Hn) as (wa & ca & Ha).
    rewrite Ha in H. discriminate H.
  - destruct (cfg_load_defaults_failed w cfg config_path _ _ _ H)
      as (-> & (_ & _ & _ & _ & _ & F5 & _) & _); [discriminate |].
    rewrite F5. split; [reflexivity |].
    destruct (string_dec (config_text w config_path) "") as [-> | Hn];
      [reflexivity |].
    destruct (cfg_load_defaults_text w cfg config_path Hn) as (wa & ca & Ha).
    rewrite Ha in H. discriminate H.
Qed.

End Dumping.

(** X20. [cfg_init] dumps the record once if the token [debug] is among the
    arguments or among the lines of the file it has loaded, also when the
    load fails, and does not dump it otherwise. A [debug] that carries a
    value, or that stands in a file that is not loaded, asks for nothing. *)
Theorem cfg_init_dumps_on_request (w : world) (cfg : cfg_t) (flags : Z)
    (argv : list string) :
  debug_dumps (w_log (fst (fst (cfg_init w cfg flags argv))))
  = debug_dumps (w_log w)
    + (if asks_debug argv
          || asks_debug
               (buffer_tokens
                  (config_text (fst (fst (early_scan w (cfg_reset cfg) None argv)))
                     (snd (early_scan w (cfg_reset cfg) None argv))))
       then 1 else 0).
Proof.
  destruct (early_scan w (cfg_reset cfg) None argv) as [[w1 cfg1] cp] eqn:H1.
  cbn [fst snd].
  pose proof (early_scan_flag argv w (cfg_reset cfg) None) as E1.
  pose proof (early_scan_dumps argv w (cfg_reset cfg) None) as E2.
  rewrite H1 in E1, E2. cbn [fst snd] in E1, E2.
  change (debug (cfg_reset cfg)) with 0%Z in E1.
  destruct (cfg_load_defaults w1 cfg1 cp) as [[w2 r] cfg2] eqn:H2.
  destruct (cfg_load_defaults_flag w1 cfg1 cp _ _ _ H2) as [D1 D2].
  rewrite (cfg_init_phases w cfg flags argv _ _ _ _ _ _ H1 H2).
  set (text := buffer_tokens (config_text w1 cp)) in *.
  destruct (is_success r) eqn:Hs.
  - pose proof (full_scan_flag argv w2 cfg2) as G1.
    pose proof (full_scan_dumps argv w2 cfg2) as G2.
    destruct (full_scan w2 cfg2 argv) as [w3 cfg3]. cbn [fst snd] in *.
    rewrite G1, D2, E1.
    destruct (asks_debug argv), (asks_debug text); cbn; lia.
  - cbv zeta. unfold cfg_free. cbn [fst].
    assert (Ht : asks_debug text = false).
    { subst text.
      destruct (string_dec (config_text w1 cp) "") as [-> | Hn]; [reflexivity |].
      destruct (cfg_load_defaults_text w1 cfg1 cp Hn) as (wa & ca & Ha).
      rewrite Ha in H2. injection H2 as _ <- _. discriminate Hs. }
    rewrite Ht, orb_false_r in *. rewrite D2, E1, free_log.
    destruct (asks_debug argv); cbn [negb Z.eqb];
      destruct (debug_file cfg2); cbn; lia.
Qed.

(** *** The components of the path *)

Section Components.

Local Open Scope Z_scope.






End Components.

(** X22. A file phase that fails has done nothing: [cfg_load_defaults] returns
    the record as it got it, the descriptor table, the heap, the memory
    left and the sinks are as before, and no line of the file has been
    applied. *)
Theorem cfg_load_defaults_all_or_nothing (w : world) (cfg : cfg_t)
    (config_path : option string) :
  forall w' r cfg',
    cfg_load_defaults w cfg config_path = (w', r, cfg') ->
    r <> PAM_SUCCESS ->
    cfg' = cfg /\ frame w w' /\ w_fds w' = w_fds w
    /\ config_text w config_path = "".
Proof.
  intros w' r cfg' H Hr.
  destruct (cfg_load_defaults_failed w cfg config_path _ _ _ H Hr) as (Hc & Hf & Hd).
  split; [exact Hc | split; [exact Hf | split; [exact Hd |]]].
  destruct (string_dec (config_text w config_path) "") as [E | Hn]; [exact E |].
  destruct (cfg_load_defaults_text w cfg config_path Hn) as (wa & ca & Ha).
  rewrite Ha in H. injection H as _ <- _. now elim Hr.
Qed.

(** Proves that a token keeps every setting but [s]. *)
Ltac keeps_but s :=
  cbv iota; exists s; intros s' Hs' w cfg;
  destruct s'; try (exfalso; apply Hs'; reflexivity); destruct cfg; reflexivity.

(** X23. A token changes one setting at most: whatever the token, there is a
    setting such that [cfg_load_arg] leaves every other one as it was (the
    debug sink, which only a [debug_file=] token replaces, is not counted
    among the settings). *)
Theorem token_changes_one_setting (tok : string) :
  exists s, forall s', s' <> s -> arg_keeps tok s'.
Proof.
  unfold arg_keeps, cfg_load_arg, cfg_load_arg_debug.
  destruct (strncmp_eq tok "max_devices=") eqn:?; [keeps_but s_max_devices |].
  destruct (strcmp_eq tok "manual") eqn:?; [keeps_but s_manual |].
  destruct (strcmp_eq tok "nouserok") eqn:?; [keeps_but s_nouserok |].
  destruct (strcmp_eq tok "openasuser") eqn:?; [keeps_but s_openasuser |].
  destruct (strcmp_eq tok "alwaysok") eqn:?; [keeps_but s_alwaysok |].
  destruct (strcmp_eq tok "interactive") eqn:?; [keeps_but s_interactive |].
  destruct (strcmp_eq tok "cue") eqn:?; [keeps_but s_cue |].
  destruct (strcmp_eq tok "nodetect") eqn:?; [keeps_but s_nodetect |].
  destruct (strcmp_eq tok "expand") eqn:?; [keeps_but s_expand |].
  destruct (strncmp_eq tok "userpresence=") eqn:?; [keeps_but s_userpresence |].
  destruct (strncmp_eq tok "userverification=") eqn:?;
    [keeps_but s_userverification |].
  destruct (strncmp_eq tok "pinverification=") eqn:?; [keeps_but s_pinverification |].
  destruct (strncmp_eq tok "authfile=") eqn:?; [keeps_but s_authfile |].
  destruct (strcmp_eq tok "sshformat") eqn:?; [keeps_but s_sshformat |].
  destruct (strncmp_eq tok "authpending_file=") eqn:?;
    [keeps_but s_authpending_file |].
  destruct (strncmp_eq tok "origin=") eqn:?; [keeps_but s_origin |].
  destruct (strncmp_eq tok "appid=") eqn:?; [keeps_but s_appid |].
  destruct (strncmp_eq tok "prompt=") eqn:?; [keeps_but s_prompt |].
  destruct (strncmp_eq tok "cue_prompt=") eqn:?; [keeps_but s_cue_prompt |].
  destruct (strcmp_eq tok "debug") eqn:?; [keeps_but s_debug |].
  destruct (strncmp_eq tok "debug_file=") eqn:?; keeps_but s_debug.
Qed.

(** X25. [cfg_init] does not look at what the record holds when it is
    called: the result and the world it leaves are the same for any two
    records, so that a sink or a buffer of a record that is loaded again
    without [cfg_free] stays held. The flags are only printed: the code
    returned and the record do not depend on them. *)
Theorem cfg_init_ignores_prior_record (w : world) (cfg cfg' : cfg_t) (flags flags' : Z)
    (argv : list string) :
  cfg_init w cfg flags argv = cfg_init w cfg' flags argv
  /\ snd (fst (cfg_init w cfg flags argv)) = snd (fst (cfg_init w cfg flags' argv))
  /\ snd (cfg_init w cfg flags argv) = snd (cfg_init w cfg flags' argv).
Proof.
  split.
  - unfold cfg_init. now rewrite (cfg_reset_constant cfg cfg').
  - destruct (early_scan w (cfg_reset cfg) None argv) as [[w1 cfg1] cp] eqn:H1.
    destruct (cfg_load_defaults w1 cfg1 cp) as [[w2 r] cfg2] eqn:H2.
    rewrite !(cfg_init_phases w cfg _ argv _ _ _ _ _ _ H1 H2).
    destruct (is_success r).
    + destruct (full_scan w2 cfg2 argv). now split.
    + cbv zeta. unfold cfg_free. now split.
Qed.

(** X26. The codes of [open_safely]: it returns [PAM_SUCCESS],
    [PAM_SERVICE_ERR] or [PAM_BUF_ERR], never [PAM_SYSTEM_ERR], and
    [PAM_BUF_ERR] exactly when the path passes the first test and its copy
    cannot be allocated. *)
Theorem open_safely_return_codes (w : world) (path : string) :
  snd (fst (fst (open_safely w path))) <> PAM_SYSTEM_ERR
  /\ (snd (fst (fst (open_safely w path))) = PAM_BUF_ERR
      <-> Spec.well_formed path = true /\ strdup_fits w path = false).
Proof.
  destruct (Spec.well_formed path) eqn:Hwf.
  2:{ rewrite open_safely_ill_formed by exact Hwf. cbn [fst snd].
      split; [discriminate | split; [discriminate | intros [H _]; discriminate H]]. }
  destruct (strdup_fits w path) eqn:Hfit.
  2:{ rewrite open_safely_no_memory by assumption. cbn [fst snd].
      split; [discriminate | now split]. }
  destruct (open_safely w path) as [[[w' r] outfd] size] eqn:H. cbn [fst snd].
  pose proof (open_safely_outcome w path Hwf Hfit _ _ _ _ H) as Ho.
  destruct (Spec.open_trusted PAM_U2F_TESTING (w_root w) path);
    destruct Ho as (-> & _);
    (split; [discriminate | split; [discriminate | intros [_ E]; discriminate E]]).
Qed.
End Loader.

(** ** The test build

    A build with [PAM_U2F_TESTING] leaves out the tests of the owner and
    nothing else. *)

Section Builds.

Variable CFG_MAX_FILE_SIZE : Z.
Variable CFG_DEFAULT_PATH : string.

Lemma open_safely_walk_testing (rest : list string) :
  forall (w : world) (pfd : nat) (p : option string) (copy : nat)
         (w' : world) (outfd : option nat) (size : Z),
    open_safely_walk false w pfd p rest copy = (w', PAM_SUCCESS, outfd, size) ->
    open_safely_walk true w pfd p rest copy = (w', PAM_SUCCESS, outfd, size).
Proof.
  induction rest as [|c rest IH]; intros w pfd p copy w' outfd size;
    cbn [open_safely_walk]; unfold untrusted_owner;
    destruct (openat w pfd p _) as [w1 [e|fd]]; try exact id;
    (destruct (fstat w1 fd) as [st|]; [| exact id]);
    cbn [negb andb];
    (destruct (negb (st_uid st =? 0)%Z); [discriminate |]).
  - exact id.
  - destruct (negb (S_ISDIR (st_mode st) || S_ISLNK (st_mode st))
              || group_other_writable st); [exact id | apply IH].
Qed.

Lemma open_safely_testing (w : world) (path : string) :
  forall (w' : world) (outfd : option nat) (size : Z),
    open_safely false w path = (w', PAM_SUCCESS, outfd, size) ->
    open_safely true w path = (w', PAM_SUCCESS, outfd, size).
Proof.
  intros w' outfd size. unfold open_safely.
  destruct (_ || _ || _); [exact id |].
  destruct (strdup w path) as [w1 [copy|]]; [| exact id].
  destruct (open_root w1 _) as [w2 [e|pfd]]; [exact id |].
  apply open_safely_walk_testing.
Qed.

Lemma cfg_load_defaults_testing (w : world) (cfg : cfg_t) (config_path : option string) :
  forall (w' : world) (cfg' : cfg_t),
    cfg_load_defaults CFG_MAX_FILE_SIZE CFG_DEFAULT_PATH false w cfg config_path
    = (w', PAM_SUCCESS, cfg') ->
    cfg_load_defaults CFG_MAX_FILE_SIZE CFG_DEFAULT_PATH true w cfg config_path
    = (w', PAM_SUCCESS, cfg').
Proof.
  intros w' cfg'. unfold cfg_load_defaults.
  destruct (open_safely false w _) as [[[w1 r] fd] fsize] eqn:Ho.
  destruct r; cbn [is_success negb]; try (intros [= _ H _]; discriminate H).
  now rewrite (open_safely_testing w _ _ _ _ Ho).
Qed.

(** X24. What the production build accepts, the test build accepts: when
    [open_safely] or [cfg_init] returns [PAM_SUCCESS] in a build without
    [PAM_U2F_TESTING], it returns the same result, and leaves the same
    world, in a build with it. *)
Theorem test_build_accepts_more :
  (forall w path w' outfd size,
     open_safely false w path = (w', PAM_SUCCESS, outfd, size) ->
     open_safely true w path = (w', PAM_SUCCESS, outfd, size))
  /\ (forall w cfg flags argv w' cfg',
        cfg_init CFG_MAX_FILE_SIZE CFG_DEFAULT_PATH false w cfg flags argv
        = (w', PAM_SUCCESS, cfg') ->
        cfg_init CFG_MAX_FILE_SIZE CFG_DEFAULT_PATH true w cfg flags argv
        = (w', PAM_SUCCESS, cfg')).
Proof.
  split; [exact open_safely_testing |].
  intros w cfg flags argv w' cfg'. unfold cfg_init.
  destruct (early_scan w (cfg_reset cfg) None argv) as [[w1 cfg1] cp].
  destruct (cfg_load_defaults _ _ false w1 cfg1 cp) as [[w2 r] cfg2] eqn:Hd.
  destruct r; cbn [is_success negb];
    try (destruct (negb (debug cfg2 =? 0)%Z);
         destruct (cfg_free _ _); intros [= _ H _]; discriminate H).
  now rewrite (cfg_load_defaults_testing w1 cfg1 cp _ _ Hd).
Qed.

(** X27. A path given with [conf=] is loaded as the default path would
    be, but for a path that [open_safely] reports absent, with
    [PAM_SUCCESS] and no descriptor: there [cfg_load_defaults] on the
    explicit path returns [PAM_SERVICE_ERR], and a build with that path as
    [CFG_DEFAULT_PATH] returns [PAM_SUCCESS] on no path, both with the
    record as it was. In every other case the two return the same. A path
    reported absent is missing. *)
Theorem explicit_path_differs_when_missing (testing : bool) (w : world) (cfg : cfg_t)
    (path : string) :
  forall w1 r outfd size,
    open_safely testing w path = (w1, r, outfd, size) ->
    (r = PAM_SUCCESS -> outfd = None ->
     Spec.missing (w_root w) (strtok_all path "/") = true
     /\ cfg_load_defaults CFG_MAX_FILE_SIZE CFG_DEFAULT_PATH testing w cfg (Some path)
        = (w1, PAM_SERVICE_ERR, cfg)
     /\ cfg_load_defaults CFG_MAX_FILE_SIZE path testing w cfg None
        = (w1, PAM_SUCCESS, cfg))
    /\ (r <> PAM_SUCCESS \/ outfd <> None ->
        cfg_load_defaults CFG_MAX_FILE_SIZE CFG_DEFAULT_PATH testing w cfg (Some path)
        = cfg_load_defaults CFG_MAX_FILE_SIZE path testing w cfg None).
Proof.
  intros w1 r outfd size Ho. split.
  - intros -> ->.
    split; [exact (open_safely_absent testing w path _ _ Ho) |].
    unfold cfg_load_defaults. rewrite Ho. split; reflexivity.
  - intros H. unfold cfg_load_defaults. rewrite Ho.
    destruct r; cbn [is_success negb]; try reflexivity.
    destruct outfd as [fd|]; [reflexivity |].
    destruct H as [H | H]; now elim H.
Qed.

End Builds.

(** ** The properties at work on the example worlds *)

Import Example.

(** C1 at work: in [configured] the walk hands out descriptor 6, and the
    file it names is a trusted regular file; in [loose_dir] the ancestor
    [/etc/security] is writable by its group and the call fails. *)
Lemma C1_trusted_walk_witness :
  (snd (fst (open_safely false configured DEFAULT_PATH)) = Some 6
   /\ exists f,
        Spec.entry (w_root configured) (strtok_all DEFAULT_PATH "/") = Some f
        /\ Spec.is_reg f = true /\ Spec.trusted false f = true)
  /\ (Spec.ancestor (w_root loose_dir) (strtok_all DEFAULT_PATH "/") 2
      = Some (security 509 [conf_file])
      /\ Spec.writable_by_group_or_others (security 509 [conf_file]) = true
      /\ snd (fst (open_safely false loose_dir DEFAULT_PATH)) = None
      /\ snd (fst (fst (open_safely false loose_dir DEFAULT_PATH))) = PAM_SERVICE_ERR).
Proof.
  split.
  - split; [vm_compute; reflexivity |].
    assert (E : open_safely false configured DEFAULT_PATH
                = (fst (fst (fst (open_safely false configured DEFAULT_PATH))),
                   snd (fst (fst (open_safely false configured DEFAULT_PATH))),
                   Some 6, snd (open_safely false configured DEFAULT_PATH)))
      by (vm_compute; reflexivity).
    destruct (proj1 (C1_trusted_walk false configured DEFAULT_PATH _ _ _ _ E) 6 eq_refl)
      as (_ & _ & f & He & Hr & Ht & _).
    exists f. repeat split; assumption.
  - split; [reflexivity | split; [reflexivity |]].
    assert (E : open_safely false loose_dir DEFAULT_PATH
                = (fst (fst (fst (open_safely false loose_dir DEFAULT_PATH))),
                   snd (fst (fst (open_safely false loose_dir DEFAULT_PATH))),
                   snd (fst (open_safely false loose_dir DEFAULT_PATH)),
                   snd (open_safely false loose_dir DEFAULT_PATH)))
      by (vm_compute; reflexivity).
    destruct (proj2 (C1_trusted_walk false loose_dir DEFAULT_PATH _ _ _ _ E) 2
                (security 509 [conf_file]) eq_refl eq_refl)
      as [Hfd [Hr | [Hr Hfit]]].
    + split; assumption.
    + discriminate Hfit.
Defined.

(** C1 as stated fails: in [open_root] the root directory, an ancestor of
    every path, is writable by group and others, and [open_safely] opens the
    file all the same. *)
Lemma C1_counterexample :
  Spec.writable_by_group_or_others (w_root open_root) = true
  /\ snd (fst (fst (open_safely false open_root DEFAULT_PATH))) = PAM_SUCCESS
  /\ snd (fst (open_safely false open_root DEFAULT_PATH)) = Some 6.
Proof. repeat split; vm_compute; reflexivity. Qed.

(** C10 at work: with [argv_two_conf] in [two_files] the early scan ends
    with the second path, the load succeeds, and the record has the 7 of
    the second file and not the [debug] of the first. *)
Lemma C10_last_conf_wins_witness :
  last_conf argv_two_conf = Some OTHER_PATH
  /\ early_scan two_files (cfg_reset cfg_zero) None argv_two_conf
     = (two_files, cfg_reset cfg_zero, Some OTHER_PATH)
  /\ snd (fst (cfg_init MAX_FILE_SIZE DEFAULT_PATH false two_files cfg_zero 0
                 argv_two_conf)) = PAM_SUCCESS
  /\ max_devs (snd (cfg_init MAX_FILE_SIZE DEFAULT_PATH false two_files cfg_zero 0
                      argv_two_conf)) = 7%Z
  /\ debug (snd (cfg_init MAX_FILE_SIZE DEFAULT_PATH false two_files cfg_zero 0
                   argv_two_conf)) = 0%Z
  /\ config_text MAX_FILE_SIZE DEFAULT_PATH false two_files (Some OTHER_PATH)
     = other_text
  /\ exists wx b w2,
       snd (cfg_init MAX_FILE_SIZE DEFAULT_PATH false two_files cfg_zero 0
              argv_two_conf)
       = snd (full_scan w2
                (set_defaults_buffer b
                   (snd (cfg_load_buffer wx (cfg_reset cfg_zero)
                           (config_text MAX_FILE_SIZE DEFAULT_PATH false two_files
                              (Some OTHER_PATH)))))
                argv_two_conf).
Proof.
  assert (Hl : last_conf argv_two_conf = Some OTHER_PATH) by (vm_compute; reflexivity).
  assert (H1 : early_scan two_files (cfg_reset cfg_zero) None argv_two_conf
               = (two_files, cfg_reset cfg_zero, Some OTHER_PATH))
    by (vm_compute; reflexivity).
  assert (Hr : snd (fst (cfg_init MAX_FILE_SIZE DEFAULT_PATH false two_files cfg_zero 0
                           argv_two_conf)) = PAM_SUCCESS)
    by (vm_compute; reflexivity).
  assert (Hm : max_devs (snd (cfg_init MAX_FILE_SIZE DEFAULT_PATH false two_files
                                cfg_zero 0 argv_two_conf)) = 7%Z)
    by (vm_compute; reflexivity).
  assert (Hd : debug (snd (cfg_init MAX_FILE_SIZE DEFAULT_PATH false two_files
                             cfg_zero 0 argv_two_conf)) = 0%Z)
    by (vm_compute; reflexivity).
  assert (Ht : config_text MAX_FILE_SIZE DEFAULT_PATH false two_files (Some OTHER_PATH)
               = other_text) by (vm_compute; reflexivity).
  destruct (open_safely false two_files OTHER_PATH) as [[[wo r] outfd] size] eqn:Ho.
  split; [exact Hl | split; [exact H1 | split; [exact Hr |]]].
  split; [exact Hm | split; [exact Hd | split; [exact Ht |]]].
  exact (proj2 (proj2 (proj1 (proj2 (proj2
           (C10_last_conf_wins MAX_FILE_SIZE DEFAULT_PATH false two_files cfg_zero 0%Z
              argv_two_conf)))
           OTHER_PATH two_files (cfg_reset cfg_zero) (Some OTHER_PATH) wo r outfd size
           Hl H1 Ho)) Hr).
Defined.


(** C3 at work. In [bare] neither [NO_SUCH_PATH] nor the default path
    exists, and what exists of them is trusted: the first fails the load,
    the second does not. In [loose_empty_dir] the directory of the default
    path is not trusted, in [starved] the path cannot be copied, and
    [RELATIVE] taken as the default path is not well formed: the load
    fails in all three. *)
Lemma C3_missing_path_witness :
  (Spec.missing (w_root bare) (strtok_all NO_SUCH_PATH "/") = true
   /\ last_conf argv_no_such_conf = Some NO_SUCH_PATH
   /\ exists w' r,
        cfg_init MAX_FILE_SIZE DEFAULT_PATH false bare cfg_zero 0 argv_no_such_conf
        = (w', r, cfg_reset cfg_zero)
        /\ (r = PAM_SERVICE_ERR
            \/ (r = PAM_BUF_ERR /\ strdup_fits bare NO_SUCH_PATH = false)))
  /\ (Spec.missing (w_root bare) (strtok_all DEFAULT_PATH "/") = true
      /\ Spec.well_formed DEFAULT_PATH = true
      /\ strdup_fits bare DEFAULT_PATH = true
      /\ exists w',
           cfg_load_defaults MAX_FILE_SIZE DEFAULT_PATH false bare cfg_zero None
           = (w', PAM_SUCCESS, cfg_zero))
  /\ (Spec.ancestor (w_root loose_empty_dir) (strtok_all DEFAULT_PATH "/") 2
      = Some (security 509 [])
      /\ Spec.is_dir (security 509 []) && Spec.trusted false (security 509 []) = false
      /\ exists w',
           cfg_init MAX_FILE_SIZE DEFAULT_PATH false loose_empty_dir cfg_zero 0 []
           = (w', PAM_SERVICE_ERR, cfg_reset cfg_zero))
  /\ (strdup_fits starved DEFAULT_PATH = false
      /\ cfg_load_defaults MAX_FILE_SIZE DEFAULT_PATH false starved cfg_zero None
         = (starved, PAM_BUF_ERR, cfg_zero))
  /\ (Spec.well_formed RELATIVE = false
      /\ cfg_load_defaults MAX_FILE_SIZE RELATIVE false bare cfg_zero None
         = (bare, PAM_SERVICE_ERR, cfg_zero)).
Proof.
  assert (Hm : Spec.missing (w_root bare) (strtok_all NO_SUCH_PATH "/") = true)
    by (vm_compute; reflexivity).
  assert (Hl : last_conf argv_no_such_conf = Some NO_SUCH_PATH)
    by (vm_compute; reflexivity).
  assert (Hd : Spec.missing (w_root bare) (strtok_all DEFAULT_PATH "/") = true)
    by (vm_compute; reflexivity).
  assert (Hwf : Spec.well_formed DEFAULT_PATH = true) by (vm_compute; reflexivity).
  assert (Hfit : strdup_fits bare DEFAULT_PATH = true) by (vm_compute; reflexivity).
  assert (Hfit' : strdup_fits loose_empty_dir DEFAULT_PATH = true)
    by (vm_compute; reflexivity).
  assert (Ha : Spec.ancestor (w_root loose_empty_dir) (strtok_all DEFAULT_PATH "/") 2
               = Some (security 509 [])) by (vm_compute; reflexivity).
  assert (Hu : Spec.is_dir (security 509 []) && Spec.trusted false (security 509 [])
               = false) by (vm_compute; reflexivity).
  assert (Hs : strdup_fits starved DEFAULT_PATH = false) by (vm_compute; reflexivity).
  assert (Hr : Spec.well_formed RELATIVE = false) by (vm_compute; reflexivity).
  assert (Hn : last_conf [] = None) by reflexivity.
  split; [| split; [| split; [| split]]].
  - split; [exact Hm | split; [exact Hl |]].
    exact (proj2 (proj1 (C3_missing_path MAX_FILE_SIZE DEFAULT_PATH false bare cfg_zero)
                    NO_SUCH_PATH Hm)
             0%Z argv_no_such_conf Hl).
  - split; [exact Hd | split; [exact Hwf | split; [exact Hfit |]]].
    refine (proj1 (proj1 (proj2
              (C3_missing_path MAX_FILE_SIZE DEFAULT_PATH false bare cfg_zero))
              Hd Hwf Hfit _)).
    intros [|[|[|k]]] d; cbn; intros [= <-]; split; reflexivity.
  - split; [exact Ha | split; [exact Hu |]].
    exact (proj2 (proj1 (proj2 (proj2
             (C3_missing_path MAX_FILE_SIZE DEFAULT_PATH false loose_empty_dir cfg_zero)))
             Hwf Hfit' 2 (security 509 []) Ha Hu)
             0%Z [] Hn).
  - split; [exact Hs |].
    exact (proj1 (proj1 (proj2 (proj2 (proj2
             (C3_missing_path MAX_FILE_SIZE DEFAULT_PATH false starved cfg_zero))))
             Hwf Hs)).
  - split; [exact Hr |].
    exact (proj1 (proj2 (proj2 (proj2 (proj2
             (C3_missing_path MAX_FILE_SIZE RELATIVE false bare cfg_zero))))
             Hr)).
Defined.

(** C3 as stated fails: in [loose_empty_dir] the default path does not
    exist, and the load fails, because [/etc/security] is not trusted. *)
Lemma C3_counterexample :
  Spec.missing (w_root loose_empty_dir) (strtok_all DEFAULT_PATH "/") = true
  /\ snd (fst (cfg_load_defaults MAX_FILE_SIZE DEFAULT_PATH false loose_empty_dir
                 cfg_zero None)) = PAM_SERVICE_ERR
  /\ snd (fst (cfg_init MAX_FILE_SIZE DEFAULT_PATH false loose_empty_dir
                 cfg_zero 0 [])) = PAM_SERVICE_ERR.
Proof. repeat split; vm_compute; reflexivity. Qed.


(** C5 at work: 5000 bytes are more than the 4096 allowed; the load of
    [oversized] fails on it and holds nothing. *)
Lemma C5_oversize_rejected_witness :
  (5000 > MAX_FILE_SIZE)%Z
  /\ slurp MAX_FILE_SIZE oversized 6 5000 = (oversized, PAM_SERVICE_ERR, None)
  /\ slurp_failure MAX_FILE_SIZE oversized 6 5000 = Some Spec.SizeLimitExceeded
  /\ Spec.kind_of Spec.SizeLimitExceeded = Spec.ResourceError.
Proof.
  split; [reflexivity |].
  exact (proj2 (C5_oversize_rejected MAX_FILE_SIZE oversized 6 5000%Z) eq_refl).
Defined.

(** C7 at work: a key that is not known, and a number that is none. *)
Lemma C7_ignored_tokens_witness :
  (Spec.is_in (Spec.token_key "frobnicate=1") Spec.recognized_keys = false
   /\ cfg_load_arg bare cfg_zero "frobnicate=1" = (bare, cfg_zero))
  /\ (Spec.is_in (Spec.token_key "max_devices=many") Spec.numeric_keys = true
      /\ Spec.parses_as_number (Spec.token_value "max_devices=many") = false
      /\ cfg_load_arg bare cfg_zero "max_devices=many" = (bare, cfg_zero)).
Proof.
  split.
  - split; [reflexivity |].
    exact (C7_ignored_tokens bare cfg_zero "frobnicate=1" (or_introl eq_refl)).
  - split; [reflexivity | split; [reflexivity |]].
    exact (C7_ignored_tokens bare cfg_zero "max_devices=many"
             (or_intror (conj eq_refl eq_refl))).
Defined.

(** C8 at work: one [debug_file=] argument, no configuration file. *)
Lemma C8_sink_replacement_witness :
  is_debug_file "debug_file=/var/log/pam_u2f.log" = true
  /\ w_log (fst (cfg_load_arg_debug bare (cfg_reset cfg_zero)
                   "debug_file=/var/log/pam_u2f.log"))
     = [EvSinkOpen "/var/log/pam_u2f.log" (FileSink 0); EvSinkClose DefaultSink]
  /\ sink_opens
       (w_log (fst (fst (cfg_init MAX_FILE_SIZE DEFAULT_PATH false bare cfg_zero 0
                           argv_sink))))
     = 2.
Proof.
  split; [reflexivity |]. split.
  - exact (proj1 (proj2 (proj1 (proj2
             (C8_sink_replacement MAX_FILE_SIZE DEFAULT_PATH false))
             bare (cfg_reset cfg_zero) "debug_file=/var/log/pam_u2f.log" eq_refl))).
  - assert (E1 : early_scan bare (cfg_reset cfg_zero) None argv_sink
                 = (fst (fst (early_scan bare (cfg_reset cfg_zero) None argv_sink)),
                    snd (fst (early_scan bare (cfg_reset cfg_zero) None argv_sink)),
                    None))
      by (vm_compute; reflexivity).
    assert (E : cfg_init MAX_FILE_SIZE DEFAULT_PATH false bare cfg_zero 0 argv_sink
                = (fst (fst (cfg_init MAX_FILE_SIZE DEFAULT_PATH false bare cfg_zero 0
                               argv_sink)),
                   PAM_SUCCESS,
                   snd (cfg_init MAX_FILE_SIZE DEFAULT_PATH false bare cfg_zero 0
                          argv_sink)))
      by (vm_compute; reflexivity).
    rewrite (proj2 (proj2 (proj2
               (C8_sink_replacement MAX_FILE_SIZE DEFAULT_PATH false)))
               bare cfg_zero 0%Z argv_sink _ _ _ _ _ _ E1 E).
    vm_compute; reflexivity.
Defined.

(** C8 as stated fails: the arguments hold one [debug_file=] entry, the
    load succeeds without a configuration file, and the sink has been
    replaced twice. *)
Lemma C8_counterexample :
  count_debug_file argv_sink = 1
  /\ buffer_tokens (config_text MAX_FILE_SIZE DEFAULT_PATH false bare None) = []
  /\ snd (fst (cfg_init MAX_FILE_SIZE DEFAULT_PATH false bare cfg_zero 0 argv_sink))
     = PAM_SUCCESS
  /\ sink_opens
       (w_log (fst (fst (cfg_init MAX_FILE_SIZE DEFAULT_PATH false bare cfg_zero 0
                           argv_sink))))
     = 2.
Proof. repeat split; vm_compute; reflexivity. Qed.

(** C9 at work: a reset record, and a token that assigns a field. *)
Lemma C9_tristate_fields_witness :
  tristate_ok [] (cfg_reset cfg_zero)
  /\ tristate_ok ["userpresence=0"]
       (snd (cfg_load_arg bare (cfg_reset cfg_zero) "userpresence=0"))
  /\ userpresence (snd (cfg_load_arg bare (cfg_reset cfg_zero) "userpresence=0")) = 0%Z.
Proof.
  assert (H0 : tristate_ok [] (cfg_reset cfg_zero))
    by (repeat split; left; reflexivity).
  split; [exact H0 | split; [| reflexivity]].
  exact (proj1 (proj2 (proj2 (proj2
           (C9_tristate_fields MAX_FILE_SIZE DEFAULT_PATH false))))
           bare (cfg_reset cfg_zero) "userpresence=0" [] H0).
Defined.

(** [pack] at work on a line with blanks before it and a carriage return
    after it. *)
Lemma pack_ignores_surrounding_space_witness :
  all_space "  " = true /\ all_space (String "013" "") = true
  /\ pack ("  " ++ "max_devices = 2" ++ String "013" "") = pack "max_devices = 2".
Proof.
  split; [reflexivity |]. split; [reflexivity |].
  exact (pack_ignores_surrounding_space "  " "max_devices = 2" (String "013" "")
           eq_refl eq_refl).
Defined.

(** [debug=1] names a setting that takes no value, and is ignored. *)
Lemma flag_with_value_ignored_witness :
  Spec.is_in (Spec.token_key "debug=1") flag_keys = true
  /\ "debug=1" <> Spec.token_key "debug=1"
  /\ cfg_load_arg bare cfg_zero "debug=1" = (bare, cfg_zero).
Proof.
  assert (H : "debug=1" <> Spec.token_key "debug=1") by discriminate.
  split; [reflexivity | split; [exact H |]].
  exact (flag_with_value_ignored bare cfg_zero "debug=1" eq_refl H).
Defined.

(** [max_devices=3] applied twice. *)
Lemma cfg_load_arg_twice_witness :
  is_debug_file "max_devices=3" = false
  /\ cfg_load_arg configured (snd (cfg_load_arg bare cfg_zero "max_devices=3"))
       "max_devices=3"
     = (configured, snd (cfg_load_arg bare cfg_zero "max_devices=3")).
Proof.
  split; [reflexivity |].
  exact (cfg_load_arg_twice bare configured cfg_zero "max_devices=3" eq_refl).
Defined.

(** [slurp] at work on [short_reads]: the 20 bytes of the file come in
    three reads and are handed back in one buffer. *)
Lemma slurp_reads_content_witness :
  reads_succeed (w_reads short_reads) = true
  /\ exists w',
       slurp MAX_FILE_SIZE short_reads 6 20
       = (w', PAM_SUCCESS, Some (0, conf_text))
       /\ w_heap w' = [(0, 21%Z)].
Proof.
  split; [reflexivity |].
  destruct (slurp_reads_content MAX_FILE_SIZE short_reads 6 20 0 420 20 conf_text 0)
    as (w' & H & Hh);
    [unfold MAX_FILE_SIZE; lia | vm_compute; discriminate | reflexivity | reflexivity |].
  exists w'. split; [exact H | exact Hh].
Defined.

(** On [failing_read] the second read fails: [PAM_SYSTEM_ERR], and the
    heap is as before. *)
Lemma slurp_failure_releases_witness :
  snd (fst (slurp MAX_FILE_SIZE failing_read 6 20)) = PAM_SYSTEM_ERR
  /\ snd (slurp MAX_FILE_SIZE failing_read 6 20) = None
  /\ w_heap (fst (fst (slurp MAX_FILE_SIZE failing_read 6 20))) = [].
Proof.
  assert (E : slurp MAX_FILE_SIZE failing_read 6 20
              = (fst (fst (slurp MAX_FILE_SIZE failing_read 6 20)), PAM_SYSTEM_ERR,
                 snd (slurp MAX_FILE_SIZE failing_read 6 20)))
    by (vm_compute; reflexivity).
  assert (Hr : PAM_SYSTEM_ERR <> PAM_SUCCESS) by discriminate.
  destruct (slurp_failure_releases MAX_FILE_SIZE failing_read 6 20 _ _ _ E Hr)
    as (Hd & (_ & Hh & _) & _).
  split; [vm_compute; reflexivity | split; [exact Hd | exact Hh]].
Defined.

(** On [configured] the walk leaves the descriptor of the file and nothing
    else. *)
Lemma open_safely_keeps_only_the_file_witness :
  w_heap (fst (fst (fst (open_safely false configured DEFAULT_PATH)))) = []
  /\ exists fd f,
       snd (fst (open_safely false configured DEFAULT_PATH)) = Some fd
       /\ w_fds (fst (fst (fst (open_safely false configured DEFAULT_PATH))))
          = [(fd, mk_ofile f 0)].
Proof.
  destruct (open_safely false configured DEFAULT_PATH) as [[[w' r] outfd] size] eqn:E.
  assert (Hfd : exists fd, outfd = Some fd).
  { assert (H : exists fd, snd (fst (open_safely false configured DEFAULT_PATH)) = Some fd)
      by (eexists; vm_compute; reflexivity).
    now rewrite E in H. }
  destruct Hfd as (fd & ->).
  destruct (open_safely_keeps_only_the_file false configured DEFAULT_PATH _ _ _ _ E)
    as ((_ & Hh & _) & _ & f & Hf).
  split; [exact Hh |]. exists fd, f. split; [reflexivity | exact Hf].
Defined.

(** A relative path is refused. *)
Lemma open_safely_rejects_ill_formed_witness :
  String.get 0 RELATIVE <> Some "/"%char
  /\ fst (fst (fst (open_safely false configured RELATIVE))) = configured
  /\ snd (fst (fst (open_safely false configured RELATIVE))) = PAM_SERVICE_ERR
  /\ forall cfg,
       cfg_load_defaults MAX_FILE_SIZE DEFAULT_PATH false configured cfg (Some RELATIVE)
       = (configured, PAM_SERVICE_ERR, cfg).
Proof.
  assert (H : String.get 0 RELATIVE <> Some "/"%char) by discriminate.
  split; [exact H |].
  exact (open_safely_rejects_ill_formed MAX_FILE_SIZE DEFAULT_PATH false configured
           RELATIVE (or_intror (or_introl H))).
Defined.

(** On [linked] the configuration file is a symbolic link to a trusted
    regular file: it is refused. *)
Lemma open_safely_rejects_irregular_witness :
  Spec.entry (w_root linked) (strtok_all DEFAULT_PATH "/")
  = Some (Lnk 0 (Some (snd conf_file)))
  /\ exists w', open_safely false linked DEFAULT_PATH = (w', PAM_SERVICE_ERR, None, 0%Z).
Proof.
  assert (Hwf : Spec.well_formed DEFAULT_PATH = true) by (vm_compute; reflexivity).
  assert (Hfit : strdup_fits linked DEFAULT_PATH = true) by (vm_compute; reflexivity).
  assert (He : Spec.entry (w_root linked) (strtok_all DEFAULT_PATH "/")
               = Some (Lnk 0 (Some (snd conf_file)))) by (vm_compute; reflexivity).
  assert (Hk : is_lnk (Lnk 0 (Some (snd conf_file)))
               || Spec.is_dir (Lnk 0 (Some (snd conf_file))) = true) by reflexivity.
  split; [exact He |].
  exact (open_safely_rejects_irregular false linked DEFAULT_PATH
           (Lnk 0 (Some (snd conf_file))) Hwf Hfit He Hk).
Defined.

(** In [bare] [NO_SUCH_PATH] is reported absent: given with [conf=] it
    fails the load, taken as the default path it does not. In
    [configured] the default path is opened, and the two builds agree. *)
Lemma explicit_path_differs_when_missing_witness :
  (Spec.missing (w_root bare) (strtok_all NO_SUCH_PATH "/") = true
   /\ snd (fst (cfg_load_defaults MAX_FILE_SIZE DEFAULT_PATH false bare cfg_zero
                  (Some NO_SUCH_PATH))) = PAM_SERVICE_ERR
   /\ snd (fst (cfg_load_defaults MAX_FILE_SIZE NO_SUCH_PATH false bare cfg_zero None))
      = PAM_SUCCESS)
  /\ cfg_load_defaults MAX_FILE_SIZE NO_SUCH_PATH false configured cfg_zero
       (Some DEFAULT_PATH)
     = cfg_load_defaults MAX_FILE_SIZE DEFAULT_PATH false configured cfg_zero None.
Proof.
  split.
  - destruct (open_safely false bare NO_SUCH_PATH) as [[[w1 r] outfd] size] eqn:E.
    assert (Hr : r = PAM_SUCCESS).
    { assert (H : snd (fst (fst (open_safely false bare NO_SUCH_PATH))) = PAM_SUCCESS)
        by (vm_compute; reflexivity).
      now rewrite E in H. }
    assert (Hn : outfd = None).
    { assert (H : snd (fst (open_safely false bare NO_SUCH_PATH)) = None)
        by (vm_compute; reflexivity).
      now rewrite E in H. }
    destruct (proj1 (explicit_path_differs_when_missing MAX_FILE_SIZE DEFAULT_PATH
                       false bare cfg_zero NO_SUCH_PATH w1 r outfd size E) Hr Hn)
      as (Hm & H1 & H2).
    rewrite H1, H2. split; [exact Hm | split; reflexivity].
  - destruct (open_safely false configured DEFAULT_PATH) as [[[w1 r] outfd] size] eqn:E.
    assert (Hn : outfd <> None).
    { assert (H : exists fd, snd (fst (open_safely false configured DEFAULT_PATH))
                              = Some fd)
        by (eexists; vm_compute; reflexivity).
      rewrite E in H. destruct H as (fd & H). cbn [fst snd] in H.
      rewrite H. discriminate. }
    exact (proj2 (explicit_path_differs_when_missing MAX_FILE_SIZE NO_SUCH_PATH
                    false configured cfg_zero DEFAULT_PATH w1 r outfd size E)
             (or_intror Hn)).
Defined.

(** On [bare] the default path is reported absent, and it is missing. *)
Lemma open_safely_absent_is_missing_witness :
  snd (fst (fst (open_safely false bare DEFAULT_PATH))) = PAM_SUCCESS
  /\ snd (fst (open_safely false bare DEFAULT_PATH)) = None
  /\ Spec.missing (w_root bare) (strtok_all DEFAULT_PATH "/") = true.
Proof.
  assert (E : open_safely false bare DEFAULT_PATH
              = (fst (fst (fst (open_safely false bare DEFAULT_PATH))),
                 PAM_SUCCESS, None, snd (open_safely false bare DEFAULT_PATH)))
    by (vm_compute; reflexivity).
  split; [vm_compute; reflexivity | split; [vm_compute; reflexivity |]].
  exact (open_safely_absent_is_missing false bare DEFAULT_PATH _ _ E).
Defined.

(** After a load of [configured] with a [debug_file=] argument the record
    owns sink 1 and buffer 1, and they are all that is held. *)
Lemma cfg_init_record_owns_resources_witness :
  let loaded := cfg_init MAX_FILE_SIZE DEFAULT_PATH false configured cfg_zero 0 argv_sink in
  snd (fst loaded) = PAM_SUCCESS
  /\ w_fds (fst (fst loaded)) = []
  /\ w_sinks (fst (fst loaded)) = owned_sinks (snd loaded)
  /\ owned_sinks (snd loaded) = [1]
  /\ defaults_buffer (snd loaded) = Some 1.
Proof.
  cbv zeta.
  assert (E : cfg_init MAX_FILE_SIZE DEFAULT_PATH false configured cfg_zero 0 argv_sink
              = (fst (fst (cfg_init MAX_FILE_SIZE DEFAULT_PATH false configured cfg_zero 0
                             argv_sink)),
                 PAM_SUCCESS,
                 snd (cfg_init MAX_FILE_SIZE DEFAULT_PATH false configured cfg_zero 0
                        argv_sink)))
    by (vm_compute; reflexivity).
  destruct (cfg_init_record_owns_resources MAX_FILE_SIZE DEFAULT_PATH false
              configured cfg_zero 0%Z argv_sink _ _ E) as (H1 & _ & H3 & _).
  split; [vm_compute; reflexivity |].
  split; [exact H1 |].
  split; [rewrite H3; apply app_nil_r |].
  split; vm_compute; reflexivity.
Defined.

(** On [configured] the file phase applies the 20 bytes of the file. *)
Lemma cfg_load_defaults_reads_file_witness :
  config_text MAX_FILE_SIZE DEFAULT_PATH false configured None = conf_text
  /\ exists w' wx,
       sink_state wx = sink_state configured
       /\ cfg_load_defaults MAX_FILE_SIZE DEFAULT_PATH false configured
            (cfg_reset cfg_zero) None
          = (w', PAM_SUCCESS,
             set_defaults_buffer (Some 1)
               (snd (cfg_load_buffer wx (cfg_reset cfg_zero) conf_text))).
Proof.
  refine (cfg_load_defaults_reads_file MAX_FILE_SIZE DEFAULT_PATH false configured
            (cfg_reset cfg_zero) None 0 420 20 conf_text
            eq_refl eq_refl eq_refl _ _ _ eq_refl);
    unfold MAX_FILE_SIZE; vm_compute; intuition discriminate.
Defined.


(** With [argv_no_such_conf] the file phase fails on [bare] and has done
    nothing. *)
Lemma cfg_load_defaults_all_or_nothing_witness :
  snd (fst (cfg_load_defaults MAX_FILE_SIZE DEFAULT_PATH false bare (cfg_reset cfg_zero)
              (Some NO_SUCH_PATH))) = PAM_SERVICE_ERR
  /\ snd (cfg_load_defaults MAX_FILE_SIZE DEFAULT_PATH false bare (cfg_reset cfg_zero)
            (Some NO_SUCH_PATH)) = cfg_reset cfg_zero
  /\ w_fds (fst (fst (cfg_load_defaults MAX_FILE_SIZE DEFAULT_PATH false bare
                        (cfg_reset cfg_zero) (Some NO_SUCH_PATH)))) = [].
Proof.
  assert (E : cfg_load_defaults MAX_FILE_SIZE DEFAULT_PATH false bare (cfg_reset cfg_zero)
                (Some NO_SUCH_PATH)
              = (fst (fst (cfg_load_defaults MAX_FILE_SIZE DEFAULT_PATH false bare
                             (cfg_reset cfg_zero) (Some NO_SUCH_PATH))),
                 PAM_SERVICE_ERR,
                 snd (cfg_load_defaults MAX_FILE_SIZE DEFAULT_PATH false bare
                        (cfg_reset cfg_zero) (Some NO_SUCH_PATH))))
    by (vm_compute; reflexivity).
  assert (Hr : PAM_SERVICE_ERR <> PAM_SUCCESS) by discriminate.
  destruct (cfg_load_defaults_all_or_nothing MAX_FILE_SIZE DEFAULT_PATH false bare
              (cfg_reset cfg_zero) (Some NO_SUCH_PATH) _ _ _ E Hr)
    as (Hc & _ & Hd & _).
  split; [vm_compute; reflexivity | split; [exact Hc | exact Hd]].
Defined.
